(** * PO-Translator: the catalog codec and its callers

    A shallow embedding of [src/utils/poParser.ts] (the PO parser and
    generator), of [parseTranslations] from [src/utils/aiService.ts] and of
    [updateTranslation] from [src/App.tsx], followed by the properties the
    specification states about them.

    - Strings.  A JavaScript string is a sequence of UTF-16 code units; a
      code unit is a number of type [N] and a string is a [list] of them.
      Every string primitive the source calls ([trim], [startsWith],
      [endsWith], [slice], [indexOf], [split], [join]) is a structurally
      recursive function, so every definition evaluates.
    - Regular expressions.  The source uses seven patterns.  The global
      replacements of a literal of one or two characters are [replace1]
      and [replace2]; the split on runs of two or more newlines is
      [splitBlankRuns]; the anchored pattern of [extractString] is
      [matchQuoted]; the two anchored prefixes that [parseTranslations]
      strips are [stripNumbering] and [stripBullet].
    - Objects.  The headers object is the list of its own properties in
      the order in which [Object.entries] lists them; [objSet] is the
      assignment [headers[key] = value].
    - Loops.  A loop over lines or blocks is a [fold_left] of the function
      that is its body, on a record of the variables that the body
      assigns.
    - State.  [updateTranslation] is a function on the two state variables
      of [App] that it reads and sets. *)

From Stdlib Require Import String Ascii.
From Stdlib Require Import List NArith ZArith Bool Lia.
Import ListNotations.

(** ** JavaScript strings *)

Module JS.

Definition char := N.
Bind Scope N_scope with char.
Definition str := list char.

Definition lit (s : String.string) : str :=
  map Ascii.N_of_ascii (String.list_ascii_of_string s).
Arguments lit s%_string.

Definition eqc (a b : char) : bool := N.eqb a b.
#[global] Arguments eqc !a !b : simpl nomatch.

Fixpoint eqs (a b : str) : bool :=
  match a, b with
  | [], [] => true
  | x :: a', y :: b' => eqc x y && eqs a' b'
  | _, _ => false
  end.

(** Truthiness of a string: only the empty string is falsy. *)
Definition truthy (s : str) : bool :=
  match s with [] => false | _ :: _ => true end.

(** The code units that [String.prototype.trim] strips and that [\s] matches:
    WhiteSpace and LineTerminator of ECMA-262. *)
Definition is_ws (c : char) : bool :=
  ((9 <=? c) && (c <=? 13) || (c =? 32) || (c =? 160) || (c =? 5760)
   || ((8192 <=? c) && (c <=? 8202)) || (c =? 8232) || (c =? 8233)
   || (c =? 8239) || (c =? 8287) || (c =? 12288) || (c =? 65279))%N.

(** The code units that [.] does not match (no [s] flag). *)
Definition is_line_terminator (c : char) : bool :=
  eqc c 10 || eqc c 13 || eqc c 8232 || eqc c 8233.

Definition is_digit (c : char) : bool := ((48 <=? c) && (c <=? 57))%N.

#[global] Arguments is_ws !c : simpl nomatch.
#[global] Arguments is_line_terminator !c : simpl nomatch.
#[global] Arguments is_digit !c : simpl nomatch.

Fixpoint dropWhile (p : char -> bool) (s : str) : str :=
  match s with
  | [] => []
  | c :: t => if p c then dropWhile p t else s
  end.

Fixpoint takeWhile (p : char -> bool) (s : str) : str :=
  match s with
  | [] => []
  | c :: t => if p c then c :: takeWhile p t else []
  end.

Definition trimStart (s : str) : str := dropWhile is_ws s.
Definition trimEnd (s : str) : str := rev (dropWhile is_ws (rev s)).
Definition trim (s : str) : str := trimEnd (trimStart s).

Fixpoint startsWith (p s : str) : bool :=
  match p, s with
  | [], _ => true
  | x :: p', y :: s' => eqc x y && startsWith p' s'
  | _ :: _, [] => false
  end.

Definition endsWith (p s : str) : bool := startsWith (rev p) (rev s).

#[global] Arguments startsWith : simpl never.
#[global] Arguments endsWith : simpl never.
#[global] Arguments trim : simpl never.

(** [s.slice(n)] and [s.slice(0, n)] for [0 <= n]; [s.slice(1, -1)]. *)
Definition sliceFrom (n : nat) (s : str) : str := skipn n s.
Definition sliceTo (n : nat) (s : str) : str := firstn n s.
Definition slice1m1 (s : str) : str := firstn (length s - 2) (skipn 1 s).

(** [s.indexOf(c)] for a one-character needle; [-1] when absent. *)
Fixpoint indexOf (c : char) (s : str) : Z :=
  match s with
  | [] => (-1)%Z
  | x :: t =>
      if eqc x c then 0%Z
      else let r := indexOf c t in if (r <? 0)%Z then (-1)%Z else (r + 1)%Z
  end.

(** [s.split(sep)] for a one-character separator: never the empty list. *)
Fixpoint split (sep : char) (s : str) : list str :=
  match s with
  | [] => [[]]
  | c :: t =>
      if eqc c sep then [] :: split sep t
      else match split sep t with
           | p :: ps => (c :: p) :: ps
           | [] => [[c]]
           end
  end.

Fixpoint join (sep : str) (l : list str) : str :=
  match l with
  | [] => []
  | [x] => x
  | x :: rest => x ++ sep ++ join sep rest
  end.

(** [s.replace(/a/g, rep)] for a one-character pattern. *)
Fixpoint replace1 (a : char) (rep : str) (s : str) : str :=
  match s with
  | [] => []
  | x :: t => if eqc x a then rep ++ replace1 a rep t else x :: replace1 a rep t
  end.

(** [s.replace(/ab/g, rep)] for a two-character literal pattern: matches are
    found left to right and do not overlap. *)
Fixpoint replace2 (a b : char) (rep : str) (s : str) : str :=
  match s with
  | [] => []
  | x :: s' =>
      match s' with
      | y :: t =>
          if eqc x a && eqc y b then rep ++ replace2 a b rep t
          else x :: replace2 a b rep s'
      | [] => [x]
      end
  end.

(** [s.split(/\n\n+/)]: the separators are the maximal runs of two or more
    newlines.  [inrun] says that the scan is inside such a run. *)
Definition consHead (c : char) (l : list str) : list str :=
  match l with
  | p :: ps => (c :: p) :: ps
  | [] => [[c]]
  end.

Fixpoint splitBlankRuns (inrun : bool) (s : str) : list str :=
  match s with
  | [] => [[]]
  | c :: t =>
      if inrun then
        if eqc c 10 then splitBlankRuns true t
        else consHead c (splitBlankRuns false t)
      else if eqc c 10 && startsWith [10%N] t then [] :: splitBlankRuns true t
      else consHead c (splitBlankRuns false t)
  end.

End JS.

Import JS.

(** Names for the code units that the source writes as literals. *)
Abbreviation TAB := 9%N (only parsing).
Abbreviation NL := 10%N (only parsing).
Abbreviation CR := 13%N (only parsing).
Abbreviation SP := 32%N (only parsing).
Abbreviation DQ := 34%N (only parsing).
Abbreviation SQ := 39%N (only parsing).
Abbreviation HASH := 35%N (only parsing).
Abbreviation COLON := 58%N (only parsing).
Abbreviation BS := 92%N (only parsing).
Abbreviation LS := 8232%N (only parsing).
Abbreviation PS := 8233%N (only parsing).

(** ** poParser.ts: data model *)

Inductive Status : Type := Pending | Translated | AiSuggested.

Record TranslationEntry : Type := mkEntry {
  id : str;
  msgid : str;
  msgstr : str;
  context : option str;
  comments : option str;
  status : Status
}.

(** A [Record<string, string>] as the list of its own enumerable properties
    in the order [Object.entries] yields them. *)
Definition Headers := list (str * str).

Record ParsedPO : Type := mkPO {
  headers : Headers;
  entries : list TranslationEntry
}.

Record RawEntry : Type := mkRaw {
  r_msgid : str;
  r_msgstr : str;
  r_context : option str;
  r_comments : option str
}.

(** [x || ''] for an optional string. *)
Definition orEmpty (o : option str) : str :=
  match o with Some s => s | None => [] end.

(** Truthiness of an optional string: [undefined] and [''] are falsy. *)
Definition truthyOpt (o : option str) : bool :=
  match o with Some s => truthy s | None => false end.

(** ** Property assignment on a plain object

    [headers[key] = value] on an object created by [{}]: the key
    [__proto__] reaches the setter of [Object.prototype], which ignores a
    string; an existing key keeps its place; a new array index (a canonical
    decimal numeral below 2^32 - 1) is listed in ascending numeric order
    before every other key; any other new key is listed last. *)

Definition kw_proto : str := Eval cbv in lit "__proto__".

Definition digitStep (acc : N) (c : char) : N := (10 * acc + (c - 48))%N.

Definition digitsValue (s : str) : N := fold_left digitStep s 0%N.

Definition arrayIndex (k : str) : option N :=
  match k with
  | [] => None
  | c :: t =>
      if forallb is_digit k
         && (negb (eqc c 48) || match t with [] => true | _ => false end)
         && (digitsValue k <=? 4294967294)%N
      then Some (digitsValue k) else None
  end.

Fixpoint objGet (k : str) (o : Headers) : option str :=
  match o with
  | [] => None
  | (k', v') :: o' => if eqs k' k then Some v' else objGet k o'
  end.

Fixpoint objUpdate (k v : str) (o : Headers) : Headers :=
  match o with
  | [] => []
  | (k', v') :: o' =>
      if eqs k' k then (k', v) :: o' else (k', v') :: objUpdate k v o'
  end.

Fixpoint objInsertIndex (n : N) (k v : str) (o : Headers) : Headers :=
  match o with
  | [] => [(k, v)]
  | (k', v') :: o' =>
      match arrayIndex k' with
      | Some n' =>
          if (n' <? n)%N then (k', v') :: objInsertIndex n k v o'
          else (k, v) :: o
      | None => (k, v) :: o
      end
  end.

Definition objSet (k v : str) (o : Headers) : Headers :=
  if eqs k kw_proto then o
  else match objGet k o with
       | Some _ => objUpdate k v o
       | None =>
           match arrayIndex k with
           | Some n => objInsertIndex n k v o
           | None => o ++ [(k, v)]
           end
       end.

(** ** poParser.ts: the parser *)

(** The regular expression of [extractString]: anchored at both ends, a
    double quote, a greedy group of any code units other than line
    terminators, a double quote.  The result is the capture group. *)
Definition matchQuoted (quoted : str) : option str :=
  match quoted with
  | c :: rest =>
      if eqc c DQ then
        match rev rest with
        | d :: m =>
            if eqc d DQ && forallb (fun x => negb (is_line_terminator x)) m
            then Some (rev m) else None
        | [] => None
        end
      else None
  | [] => None
  end.

Definition unescapeBody (s : str) : str :=
  replace2 BS BS [BS]
    (replace2 BS DQ [DQ]
      (replace2 BS 114 [CR]
        (replace2 BS 116 [TAB]
          (replace2 BS 110 [NL] s)))).

Definition extractString (quoted : str) : str :=
  match matchQuoted quoted with
  | None => quoted
  | Some body => unescapeBody body
  end.

Definition escapeBody (s : str) : str :=
  replace1 CR [BS; 114%N]
    (replace1 TAB [BS; 116%N]
      (replace1 NL [BS; 110%N]
        (replace1 DQ [BS; DQ]
          (replace1 BS [BS; BS] s)))).

Definition escapeString (s : str) : str := [DQ] ++ escapeBody s ++ [DQ].

Inductive Field : Type := FMsgid | FMsgstr | FMsgctxt.

(** The local variables of [parseBlock]. *)
Record BlockState : Type := mkBlock {
  b_msgid : str;
  b_msgstr : str;
  b_context : option str;
  b_comments : str;
  b_currentField : option Field
}.

Definition initBlock : BlockState := mkBlock [] [] None [] None.

Definition kw_hashdot : str := Eval cbv in lit "#.".
Definition kw_hashcolon : str := Eval cbv in lit "#:".
Definition kw_msgctxt : str := Eval cbv in lit "msgctxt ".
Definition kw_msgid : str := Eval cbv in lit "msgid ".
Definition kw_msgstr : str := Eval cbv in lit "msgstr ".

Definition addComment (st : BlockState) (trimmed : str) : BlockState :=
  mkBlock (b_msgid st) (b_msgstr st) (b_context st)
          (b_comments st ++ trim (sliceFrom 2 trimmed) ++ [SP])
          (b_currentField st).

Definition continueField (st : BlockState) (continued : str) : BlockState :=
  match b_currentField st with
  | Some FMsgid =>
      mkBlock (b_msgid st ++ continued) (b_msgstr st) (b_context st)
              (b_comments st) (b_currentField st)
  | Some FMsgstr =>
      mkBlock (b_msgid st) (b_msgstr st ++ continued) (b_context st)
              (b_comments st) (b_currentField st)
  | Some FMsgctxt =>
      mkBlock (b_msgid st) (b_msgstr st)
              (Some (orEmpty (b_context st) ++ continued))
              (b_comments st) (b_currentField st)
  | None => st
  end.

(** One iteration of the loop over the lines of a block. *)
Definition parseLine (st : BlockState) (line : str) : BlockState :=
  let trimmed := trim line in
  if negb (truthy trimmed) then st
  else if startsWith [HASH] trimmed then
    if startsWith kw_hashdot trimmed then addComment st trimmed
    else if startsWith kw_hashcolon trimmed then addComment st trimmed
    else st
  else if startsWith kw_msgctxt trimmed then
    mkBlock (b_msgid st) (b_msgstr st)
            (Some (extractString (sliceFrom 8 trimmed)))
            (b_comments st) (Some FMsgctxt)
  else if startsWith kw_msgid trimmed then
    mkBlock (extractString (sliceFrom 6 trimmed)) (b_msgstr st) (b_context st)
            (b_comments st) (Some FMsgid)
  else if startsWith kw_msgstr trimmed then
    mkBlock (b_msgid st) (extractString (sliceFrom 7 trimmed)) (b_context st)
            (b_comments st) (Some FMsgstr)
  else if startsWith [DQ] trimmed && endsWith [DQ] trimmed then
    continueField st (extractString trimmed)
  else st.

(** [comments.trim() || undefined]. *)
Definition finishComments (buf : str) : option str :=
  let t := trim buf in if truthy t then Some t else None.

Definition finishBlock (st : BlockState) : RawEntry :=
  mkRaw (b_msgid st) (b_msgstr st) (b_context st)
        (finishComments (b_comments st)).

(** [parseBlock] has return type [RawEntry | null]. *)
Definition parseBlock (block : str) : option RawEntry :=
  Some (finishBlock (fold_left parseLine (split NL block) initBlock)).

Definition parseHeaderLine (hs : Headers) (line : str) : Headers :=
  let colonIdx := indexOf COLON line in
  if (colonIdx >? 0)%Z then
    let key := trim (sliceTo (Z.to_nat colonIdx) line) in
    let value := trim (sliceFrom (Z.to_nat (colonIdx + 1)) line) in
    objSet key value hs
  else hs.

(** [parseHeaders] mutates the object it is given; here it returns it. *)
Definition parseHeaders (headerStr : str) (hs : Headers) : Headers :=
  fold_left parseHeaderLine (split NL headerStr) hs.

Definition entryId (ctx : option str) (mid : str) : str :=
  orEmpty ctx ++ [95%N] ++ mid.

Definition statusOf (mstr : str) : Status :=
  if truthy mstr then Translated else Pending.

Definition entryOfRaw (e : RawEntry) : TranslationEntry :=
  mkEntry (entryId (r_context e) (r_msgid e)) (r_msgid e) (r_msgstr e)
          (r_context e) (r_comments e) (statusOf (r_msgstr e)).

(** One iteration of the loop over the blocks. *)
Definition processBlock (acc : ParsedPO) (block : str) : ParsedPO :=
  if negb (truthy (trim block)) then acc
  else match parseBlock block with
       | None => acc
       | Some entry =>
           if eqs (r_msgid entry) [] then
             mkPO (parseHeaders (r_msgstr entry) (headers acc)) (entries acc)
           else
             mkPO (headers acc) (entries acc ++ [entryOfRaw entry])
       end.

Definition normalizeNewlines (content : str) : str :=
  replace1 CR [NL] (replace2 CR NL [NL] content).

Definition splitBlocks (normalizedContent : str) : list str :=
  splitBlankRuns false normalizedContent.

Definition emptyPO : ParsedPO := mkPO [] [].

Definition parsePOFile (content : str) : ParsedPO :=
  fold_left processBlock (splitBlocks (normalizeNewlines content)) emptyPO.

(** ** poParser.ts: the generator *)

Definition kw_title : str := Eval cbv in lit "# Translation File".
Definition kw_comment : str := Eval cbv in lit "#. ".

Definition headerLine (kv : str * str) : str :=
  [DQ] ++ fst kv ++ [COLON; SP] ++ snd kv ++ [BS; 110%N] ++ [DQ].

Definition entryLines (entry : TranslationEntry) : list str :=
  (if truthyOpt (comments entry)
   then [kw_comment ++ orEmpty (comments entry)] else [])
  ++ (if truthyOpt (context entry)
      then [kw_msgctxt ++ escapeString (orEmpty (context entry))] else [])
  ++ [kw_msgid ++ escapeString (msgid entry);
      kw_msgstr ++ escapeString (msgstr entry);
      []].

Definition generateLines (data : ParsedPO) : list str :=
  [kw_title; kw_msgid ++ [DQ; DQ]; kw_msgstr ++ [DQ; DQ]]
  ++ (let headerLines := join [NL] (map headerLine (headers data)) in
      if truthy headerLines then [headerLines] else [])
  ++ [[]]
  ++ flat_map entryLines (entries data).

Definition generatePOFile (data : ParsedPO) : str :=
  join [NL] (generateLines data).

(** ** aiService.ts: parseTranslations *)

(** [line.replace(/^\d+[\.\)]\s*/, '')]. *)
Definition stripNumbering (line : str) : str :=
  match takeWhile is_digit line, dropWhile is_digit line with
  | _ :: _, c :: rest =>
      if eqc c 46 || eqc c 41 then dropWhile is_ws rest else line
  | _, _ => line
  end.

(** [line.replace(/^[-•*]\s*/, '')]. *)
Definition stripBullet (line : str) : str :=
  match line with
  | c :: rest =>
      if eqc c 45 || eqc c 8226 || eqc c 42 then dropWhile is_ws rest
      else line
  | [] => []
  end.

Definition cleanLine (line : str) : str :=
  let cleaned := trim (stripBullet (stripNumbering line)) in
  if (startsWith [DQ] cleaned && endsWith [DQ] cleaned)
     || (startsWith [SQ] cleaned && endsWith [SQ] cleaned)
  then slice1m1 cleaned else cleaned.

Definition parseTranslations (content : str) : list str :=
  firstn 3 (filter (fun line => (0 <? length line)%nat)
                   (map cleanLine (split NL content))).

(** ** App.tsx: updateTranslation *)

Record AppState : Type := mkApp {
  poData : option ParsedPO;
  selectedEntry : option TranslationEntry
}.

Definition withMsgstr (entry : TranslationEntry) (newMsgstr : str)
  : TranslationEntry :=
  mkEntry (id entry) (msgid entry) newMsgstr (context entry) (comments entry)
          (statusOf newMsgstr).

Definition updateEntries (i newMsgstr : str) (es : list TranslationEntry)
  : list TranslationEntry :=
  map (fun entry => if eqs (id entry) i then withMsgstr entry newMsgstr
                    else entry) es.

Definition updateTranslation (i newMsgstr : str) (st : AppState) : AppState :=
  match poData st with
  | None => st
  | Some po =>
      mkApp (Some (mkPO (headers po) (updateEntries i newMsgstr (entries po))))
            (match selectedEntry st with
             | Some sel =>
                 if eqs (id sel) i then Some (withMsgstr sel newMsgstr)
                 else Some sel
             | None => None
             end)
  end.

(** ** aiService.ts: getAISuggestions

    The exchange with a provider ([fetch], the status of the response, the
    JSON body and the path to the text in it) is the parameter [respond]:
    it ends in an error with a message, or it delivers the text that
    [callOpenAI] and [callGemini] pass to [parseTranslations]. *)

Inductive AIProvider : Type := OpenAI | Gemini.

Record AISettings : Type := mkSettings {
  provider : AIProvider;
  openaiKey : str;
  geminiKey : str
}.

(** How an async function ends: the value of its promise, or the message
    of the error it rejects with. *)
Inductive Outcome : Type :=
| Return (suggestions : list str)
| Throw (message : str).

Inductive Response : Type :=
| Failed (message : str)
| Content (content : str).

Definition Respond := AIProvider -> str -> str -> Response.

Definition callOpenAI (respond : Respond) (prompt apiKey : str) : Outcome :=
  match respond OpenAI prompt apiKey with
  | Failed message => Throw message
  | Content content => Return (parseTranslations content)
  end.

Definition callGemini (respond : Respond) (prompt apiKey : str) : Outcome :=
  match respond Gemini prompt apiKey with
  | Failed message => Throw message
  | Content content => Return (parseTranslations content)
  end.

Definition isOpenAI (p : AIProvider) : bool :=
  match p with OpenAI => true | Gemini => false end.

Definition isGemini (p : AIProvider) : bool :=
  match p with OpenAI => false | Gemini => true end.

Definition kw_noOpenAIKey : str :=
  Eval cbv in lit "OpenAI API key not configured".
Definition kw_noGeminiKey : str :=
  Eval cbv in lit "Gemini API key not configured".

Definition buildPrompt (text targetLanguage : str) (context : option str)
  : str :=
  let prompt :=
    lit "Translate the following text to " ++ targetLanguage
    ++ lit ". Provide exactly 3 different translation variations, each on a new line. Only output the translations, no numbers, no explanations." in
  let prompt :=
    if truthyOpt context
    then prompt ++ [NL; NL] ++ lit "Context: " ++ orEmpty context
    else prompt in
  prompt ++ [NL; NL] ++ lit "Text: " ++ [DQ] ++ text ++ [DQ].

Definition getAISuggestions (respond : Respond) (text targetLanguage : str)
           (settings : AISettings) (context : option str) : Outcome :=
  if isOpenAI (provider settings) && negb (truthy (openaiKey settings))
  then Throw kw_noOpenAIKey
  else if isGemini (provider settings) && negb (truthy (geminiKey settings))
  then Throw kw_noGeminiKey
  else
    let prompt := buildPrompt text targetLanguage context in
    if isOpenAI (provider settings)
    then callOpenAI respond prompt (openaiKey settings)
    else callGemini respond prompt (geminiKey settings).

(** ** App.tsx: the state of the component and its handlers

    [UiState] holds the state variables of [App]; [uiCore] is the pair of
    [poData] and [selectedEntry].  A handler is a function from the state
    in which it is called to the state after its setters.  A file is the
    pair of its name and of the text that the reader delivers.  The
    builtin [toLowerCase] is the parameter [lower]. *)

Inductive FilterType : Type := FAll | FPending | FTranslated.

Record UiState : Type := mkUi {
  uiCore : AppState;
  fileName : str;
  filterType : FilterType;
  searchQuery : str;
  isLoading : bool;
  aiSuggestions : list str;
  showSettings : bool;
  aiSettings : AISettings;
  errorMessage : option str
}.

Definition initialUi (settings : AISettings) : UiState :=
  mkUi (mkApp None None) [] FAll [] false [] false settings None.

Definition setCore (ui : UiState) (core : AppState) : UiState :=
  mkUi core (fileName ui) (filterType ui) (searchQuery ui) (isLoading ui)
       (aiSuggestions ui) (showSettings ui) (aiSettings ui) (errorMessage ui).

(** The body of [reader.onload], after [setFileName]. *)
Definition loadFile (name content : str) (ui : UiState) : UiState :=
  mkUi (mkApp (Some (parsePOFile content)) None) name (filterType ui)
       (searchQuery ui) (isLoading ui) [] (showSettings ui) (aiSettings ui)
       (errorMessage ui).

Definition handleFileUpload (file : option (str * str)) (ui : UiState)
  : UiState :=
  match file with
  | None => ui
  | Some (name, content) => loadFile name content ui
  end.

Definition kw_dotpo : str := Eval cbv in lit ".po".

Definition handleDrop (file : option (str * str)) (ui : UiState) : UiState :=
  match file with
  | None => ui
  | Some (name, content) =>
      if endsWith kw_dotpo name then loadFile name content ui else ui
  end.

Definition editTranslation (i newMsgstr : str) (ui : UiState) : UiState :=
  setCore ui (updateTranslation i newMsgstr (uiCore ui)).

Definition withSuggestion (entry : TranslationEntry) (suggestion : str)
  : TranslationEntry :=
  mkEntry (id entry) (msgid entry) suggestion (context entry)
          (comments entry) Translated.

Definition applySuggestion (suggestion : str) (ui : UiState) : UiState :=
  match selectedEntry (uiCore ui), poData (uiCore ui) with
  | Some sel, Some po =>
      mkUi (mkApp
              (Some (mkPO (headers po)
                          (map (fun e => if eqs (id e) (id sel)
                                         then withSuggestion e suggestion
                                         else e)
                               (entries po))))
              (Some (withSuggestion sel suggestion)))
           (fileName ui) (filterType ui) (searchQuery ui) (isLoading ui)
           [] (showSettings ui) (aiSettings ui) (errorMessage ui)
  | _, _ => ui
  end.

Definition handleSelectEntry (entry : TranslationEntry) (ui : UiState)
  : UiState :=
  mkUi (mkApp (poData (uiCore ui)) (Some entry)) (fileName ui)
       (filterType ui) (searchQuery ui) (isLoading ui) []
       (showSettings ui) (aiSettings ui) None.

Definition kw_configureKey : str :=
  Eval cbv in lit "Please configure your API key first".

Definition hasKey (settings : AISettings) : str :=
  if isOpenAI (provider settings) then openaiKey settings
  else geminiKey settings.

(** [handleAISuggest] up to its [await]. *)
Definition suggestStart (ui : UiState) : UiState :=
  if negb (truthy (hasKey (aiSettings ui))) then
    mkUi (uiCore ui) (fileName ui) (filterType ui) (searchQuery ui)
         (isLoading ui) (aiSuggestions ui) true (aiSettings ui)
         (Some kw_configureKey)
  else
    mkUi (uiCore ui) (fileName ui) (filterType ui) (searchQuery ui)
         true [] (showSettings ui) (aiSettings ui) None.

(** [handleAISuggest] from the end of its [await]: the branches [try],
    [catch] and [finally]. *)
Definition suggestResolve (outcome : Outcome) (ui : UiState) : UiState :=
  match outcome with
  | Return suggestions =>
      mkUi (uiCore ui) (fileName ui) (filterType ui) (searchQuery ui)
           false suggestions (showSettings ui) (aiSettings ui)
           (errorMessage ui)
  | Throw message =>
      mkUi (uiCore ui) (fileName ui) (filterType ui) (searchQuery ui)
           false (aiSuggestions ui) (showSettings ui) (aiSettings ui)
           (Some message)
  end.

(** [hay.includes(needle)]. *)
Fixpoint includes (needle hay : str) : bool :=
  startsWith needle hay
  || match hay with
     | [] => false
     | _ :: t => includes needle t
     end.

Definition isPending (s : Status) : bool :=
  match s with Pending => true | _ => false end.

Definition matchesFilter (f : FilterType) (entry : TranslationEntry) : bool :=
  match f with
  | FAll => true
  | FPending => isPending (status entry)
  | FTranslated =>
      match status entry with
      | Translated | AiSuggested => true
      | Pending => false
      end
  end.

Definition matchesSearch (lower : str -> str) (query : str)
           (entry : TranslationEntry) : bool :=
  negb (truthy query)
  || includes (lower query) (lower (msgid entry))
  || includes (lower query) (lower (msgstr entry)).

Definition filteredEntries (lower : str -> str) (ui : UiState)
  : list TranslationEntry :=
  match poData (uiCore ui) with
  | Some po =>
      filter (fun entry => matchesFilter (filterType ui) entry
                           && matchesSearch lower (searchQuery ui) entry)
             (entries po)
  | None => []
  end.

Record Stats : Type := mkStats {
  total : nat;
  translated : nat;
  pending : nat
}.

Definition stats (ui : UiState) : Stats :=
  match poData (uiCore ui) with
  | Some po =>
      mkStats (length (entries po))
              (length (filter (fun e => negb (isPending (status e)))
                              (entries po)))
              (length (filter (fun e => isPending (status e)) (entries po)))
  | None => mkStats 0 0 0
  end.

(** The pattern of [handleExport]: a dot, then one or more characters
    other than a slash and a dot, up to the end of the name.  The first
    match is removed. *)
Definition isExtension (t : str) : bool :=
  truthy t && forallb (fun x => negb (eqc x 47 || eqc x 46)) t.

Fixpoint stripExtension (name : str) : str :=
  match name with
  | [] => []
  | c :: t =>
      if eqc c 46 && isExtension t then [] else c :: stripExtension t
  end.

Definition kw_defaultName : str := Eval cbv in lit "translations.po".

(** The name and the content of the file that [handleExport] offers. *)
Definition handleExport (lower : str -> str) (ui : UiState)
  : option (str * str) :=
  match poData (uiCore ui) with
  | None => None
  | Some po =>
      let content := generatePOFile po in
      let exportName :=
        if truthy (fileName ui) then fileName ui else kw_defaultName in
      let exportName :=
        if negb (endsWith kw_dotpo (lower exportName))
        then stripExtension exportName ++ kw_dotpo
        else exportName in
      Some (exportName, content)
  end.

(** ** App.tsx: the setters that the view calls directly, the count on
    the button of a filter, and the states that the view can reach *)

Definition setFilter (f : FilterType) (ui : UiState) : UiState :=
  mkUi (uiCore ui) (fileName ui) f (searchQuery ui) (isLoading ui)
       (aiSuggestions ui) (showSettings ui) (aiSettings ui) (errorMessage ui).

Definition setSearchQuery (q : str) (ui : UiState) : UiState :=
  mkUi (uiCore ui) (fileName ui) (filterType ui) q (isLoading ui)
       (aiSuggestions ui) (showSettings ui) (aiSettings ui) (errorMessage ui).

Definition setShowSettings (b : bool) (ui : UiState) : UiState :=
  mkUi (uiCore ui) (fileName ui) (filterType ui) (searchQuery ui)
       (isLoading ui) (aiSuggestions ui) b (aiSettings ui) (errorMessage ui).

Definition setAiSettings (s : AISettings) (ui : UiState) : UiState :=
  mkUi (uiCore ui) (fileName ui) (filterType ui) (searchQuery ui)
       (isLoading ui) (aiSuggestions ui) (showSettings ui) s
       (errorMessage ui).

(** The count that the view shows on the button of the filter [f]. *)
Definition badge (f : FilterType) (ui : UiState) : nat :=
  match f with
  | FAll => total (stats ui)
  | FPending => pending (stats ui)
  | FTranslated => translated (stats ui)
  end.

(** The states of the component: the initial one, and those that follow
    a handler called as the view calls it.  An entry is selected from the
    listed ones; the text area edits the selected entry; the button that
    asks for suggestions is there for a selected entry while nothing is
    loading; the answer of a provider may arrive at any later time; a
    suggestion is applied from the ones shown. *)
Inductive reachable (lower : str -> str) : UiState -> Prop :=
| r_initial settings : reachable lower (initialUi settings)
| r_upload file ui :
    reachable lower ui -> reachable lower (handleFileUpload file ui)
| r_drop file ui :
    reachable lower ui -> reachable lower (handleDrop file ui)
| r_select entry ui :
    reachable lower ui -> In entry (filteredEntries lower ui) ->
    reachable lower (handleSelectEntry entry ui)
| r_edit sel newMsgstr ui :
    reachable lower ui -> selectedEntry (uiCore ui) = Some sel ->
    reachable lower (editTranslation (id sel) newMsgstr ui)
| r_suggest sel ui :
    reachable lower ui -> selectedEntry (uiCore ui) = Some sel ->
    isLoading ui = false -> reachable lower (suggestStart ui)
| r_resolve respond text targetLanguage settings context ui :
    reachable lower ui ->
    reachable lower
      (suggestResolve
         (getAISuggestions respond text targetLanguage settings context) ui)
| r_apply suggestion ui :
    reachable lower ui -> In suggestion (aiSuggestions ui) ->
    reachable lower (applySuggestion suggestion ui)
| r_filter f ui : reachable lower ui -> reachable lower (setFilter f ui)
| r_search q ui : reachable lower ui -> reachable lower (setSearchQuery q ui)
| r_show b ui : reachable lower ui -> reachable lower (setShowSettings b ui)
| r_settings s ui :
    reachable lower ui -> reachable lower (setAiSettings s ui).

(** * Definitions for the statements *)

(** ** Views of the parser loop *)

Definition nonBlank (block : str) : bool := truthy (trim block).

Definition rawOf (block : str) : RawEntry :=
  finishBlock (fold_left parseLine (split NL block) initBlock).

Definition isHeaderRaw (raw : RawEntry) : bool := eqs (r_msgid raw) [].

(** The raw records of the blocks that the loop does not skip. *)
Definition rawBlocks (content : str) : list RawEntry :=
  map rawOf (filter nonBlank (splitBlocks (normalizeNewlines content))).

Definition feedHeaders (hs : Headers) (raw : RawEntry) : Headers :=
  parseHeaders (r_msgstr raw) hs.

Definition rawOfLines (lines : list str) : RawEntry :=
  finishBlock (fold_left parseLine lines initBlock).

(** What the loop of [parsePOFile] does with the raw record of a block. *)
Definition processRaw (acc : ParsedPO) (raw : RawEntry) : ParsedPO :=
  if isHeaderRaw raw
  then mkPO (parseHeaders (r_msgstr raw) (headers acc)) (entries acc)
  else mkPO (headers acc) (entries acc ++ [entryOfRaw raw]).

(** ** The comments of a block, after the specification *)

(** The payloads of the lines that contribute to [comments], following the
    specification: the lines that start, once trimmed, with a hash and a dot
    or a hash and a colon; the payload is the text after these two
    characters, trimmed. *)
Definition linePayload (line : str) : list str :=
  let trimmed := trim line in
  if startsWith kw_hashdot trimmed || startsWith kw_hashcolon trimmed
  then [trim (sliceFrom 2 trimmed)] else [].

Definition commentPayloads (lines : list str) : list str :=
  flat_map linePayload lines.

Definition commentBuffer (payloads : list str) : str :=
  concat (map (fun p => p ++ [SP]) payloads).

(** ** Predicates on strings *)

(** The strings without white space at either end. *)
Definition trimmed (s : str) : Prop :=
  dropWhile is_ws s = s /\ dropWhile is_ws (rev s) = rev s.

(** A text without newline and carriage return. *)
Definition clean (l : str) : Prop :=
  forall x, In x l -> x <> NL /\ x <> CR.

(** A line of a block: not empty, and without a newline. *)
Definition lineOk (l : str) : Prop := l <> [] /\ ~ In NL l.

Definition lineFine (l : str) : Prop := l <> [] /\ clean l.

Definition notTerminator (x : char) : bool := negb (is_line_terminator x).

(** A text without the separators U+2028 and U+2029. *)
Definition noLineSep (s : str) : bool :=
  forallb (fun x => negb (eqc x LS || eqc x PS)) s.

(** The text has no [a] immediately followed by [b]. *)
Fixpoint noPair (a b : char) (s : str) : bool :=
  match s with
  | [] => true
  | x :: t =>
      negb (eqc x a && match t with y :: _ => eqc y b | [] => false end)
      && noPair a b t
  end.

(** The characters that [extractString] reads together with a preceding
    backslash: n, t, r, the double quote and the backslash. *)
Definition isEscapeCode (y : char) : bool :=
  eqc y 110 || eqc y 116 || eqc y 114 || eqc y DQ || eqc y BS.

Fixpoint noEscapePair (s : str) : bool :=
  match s with
  | [] => true
  | x :: t =>
      negb (eqc x BS
            && match t with y :: _ => isEscapeCode y | [] => false end)
      && noEscapePair t
  end.

(** A header key or value that the generator can write between quotes
    as it is: no backslash before n, t, r, a double quote or a backslash,
    and no carriage return or line separator. *)
Definition headerSafe (s : str) : bool :=
  noEscapePair s
  && forallb (fun x => negb (eqc x CR || eqc x LS || eqc x PS)) s.

(** A text is safe to escape when no backslash in it comes just before one
    of the letters n, t and r. *)
Fixpoint escapeSafe (s : str) : bool :=
  match s with
  | [] => true
  | c :: t =>
      negb (eqc c BS
            && match t with
               | x :: _ => eqc x 110 || eqc x 116 || eqc x 114
               | [] => false
               end)
      && escapeSafe t
  end.

Definition textSafe (s : str) : bool := escapeSafe s && noLineSep s.

(** ** Escape tokens *)

(** One pass of [extractString] over a text made of escape tokens: the
    pass turns the tokens backslash-[b] into [r] and leaves the others. *)
Section UnescapePass.

Variables (f f' : char -> str) (b r : char).

Inductive tokenKind (c : char) : Prop :=
| tk_plain : f c = [c] -> f' c = [c] -> c <> BS -> tokenKind c
| tk_kept (k : char) :
    f c = [BS; k] -> f' c = [BS; k] -> k <> b -> tokenKind c
| tk_undone : f c = [BS; b] -> f' c = [r] -> tokenKind c.

(** After a token that ends with a backslash the text does not go on with
    the character [b]. *)
Fixpoint passSafe (s : str) : Prop :=
  match s with
  | [] => True
  | c :: t =>
      (f c = [BS; BS] ->
       forall x R, flat_map f t = x :: R -> x <> b)
      /\ passSafe t
  end.

End UnescapePass.

(** The escape tokens that are left after [n] passes of [extractString]:
    passes one to five undo the tokens of newline, tab, carriage return,
    double quote and backslash. *)
Definition tok (n : nat) (c : char) : str :=
  if eqc c BS then (if (n <? 5)%nat then [BS; BS] else [c])
  else if eqc c DQ then (if (n <? 4)%nat then [BS; DQ] else [c])
  else if eqc c CR then (if (n <? 3)%nat then [BS; 114%N] else [c])
  else if eqc c TAB then (if (n <? 2)%nat then [BS; 116%N] else [c])
  else if eqc c NL then (if (n <? 1)%nat then [BS; 110%N] else [c])
  else [c].

(** ** Header objects *)

(** A function on header objects that overlays assignments: what it leaves
    under a key is what it would write into the empty object or, failing
    that, what was there before. *)
Definition overlays (f : Headers -> Headers) : Prop :=
  forall k hs,
    objGet k (f hs) =
    match objGet k (f []) with Some v => Some v | None => objGet k hs end.

Definition setPair (hs : Headers) (kv : str * str) : Headers :=
  objSet (fst kv) (snd kv) hs.

(** Assigning the properties of the object again, in the order in which it
    lists them, builds the same object. *)
Definition canonical (hs : Headers) : Prop := fold_left setPair hs [] = hs.

(** A numeral without a leading zero; the empty string counts as one. *)
Definition numeral (s : str) : Prop :=
  forallb is_digit s = true /\ forall c t, s = c :: t -> c <> 48%N.

Definition keys (o : Headers) : list str := map fst o.

(** [k1] may be listed before [k2]. *)
Definition keyLt (k1 k2 : str) : Prop :=
  match arrayIndex k1, arrayIndex k2 with
  | Some a, Some b => (a < b)%N
  | Some _, None => True
  | None, Some _ => False
  | None, None => True
  end.

Fixpoint keysOrdered (ks : list str) : Prop :=
  match ks with
  | [] => True
  | k :: rest => (forall k', In k' rest -> keyLt k k') /\ keysOrdered rest
  end.

(** What every object built by assignments from the empty object
    satisfies: its keys are distinct, [__proto__] is not one of them, the
    array indices come first in ascending order. *)
Definition objInv (o : Headers) : Prop :=
  NoDup (keys o) /\ ~ In kw_proto (keys o) /\ keysOrdered (keys o).

(** ** The generated text *)

(** The text that a header line contributes to the header [msgstr]. *)
Definition headerText (kv : str * str) : str :=
  fst kv ++ [COLON; SP] ++ snd kv.

Definition headersText (hs : Headers) : str :=
  concat (map (fun kv => headerText kv ++ [NL]) hs).

Definition headerBlock (hs : Headers) : list str :=
  [kw_title; kw_msgid ++ [DQ; DQ]; kw_msgstr ++ [DQ; DQ]]
  ++ map headerLine hs.

Definition entryBlock (entry : TranslationEntry) : list str :=
  (if truthyOpt (comments entry)
   then [kw_comment ++ orEmpty (comments entry)] else [])
  ++ (if truthyOpt (context entry)
      then [kw_msgctxt ++ escapeString (orEmpty (context entry))] else [])
  ++ [kw_msgid ++ escapeString (msgid entry);
      kw_msgstr ++ escapeString (msgstr entry)].

(** In a block every newline is followed by another character, which is
    not a newline. *)
Fixpoint blockOk (s : str) : Prop :=
  match s with
  | [] => True
  | c :: t => (c = NL -> startsWith [NL] t = false /\ t <> []) /\ blockOk t
  end.

(** The text of a sequence of blocks of lines, each followed by one empty
    line, and the pieces into which [splitBlocks] cuts it. *)
Fixpoint blocksText (blocks : list (list str)) : str :=
  match blocks with
  | [] => []
  | [b] => join [NL] b ++ [NL]
  | b :: rest => join [NL] b ++ [NL; NL] ++ blocksText rest
  end.

Fixpoint blockTexts (blocks : list (list str)) : list str :=
  match blocks with
  | [] => []
  | [b] => [join [NL] b ++ [NL]]
  | b :: rest => join [NL] b :: blockTexts rest
  end.

Definition blockLinesOk (b : list str) : Prop := b <> [] /\ Forall lineOk b.

(** A block of lines whose first line starts with a character that is not
    white space. *)
Definition blockGood (b : list str) : Prop :=
  blockLinesOk b
  /\ exists c l ls, b = (c :: l) :: ls /\ is_ws c = false.

(** ** Catalogs that survive the round trip *)

(** The conditions on one header under which [parseHeaderLine] reads the
    generated line back as the same key and value. *)
Record headerWf (kv : str * str) : Prop := {
  hw_key_nonempty : fst kv <> [];
  hw_key_trimmed : trimmed (fst kv);
  hw_value_trimmed : trimmed (snd kv);
  hw_key_colon : ~ In COLON (fst kv);
  hw_key_newline : ~ In NL (fst kv);
  hw_value_newline : ~ In NL (snd kv);
  hw_key_safe : headerSafe (fst kv) = true;
  hw_value_safe : headerSafe (snd kv) = true
}.

(** The conditions on an entry under which the generated block is read
    back as the same entry. *)
Record entryWf (e : TranslationEntry) : Prop := {
  ew_id : id e = entryId (context e) (msgid e);
  ew_status : status e = statusOf (msgstr e);
  ew_msgid : msgid e <> [];
  ew_comments : forall c, comments e = Some c ->
                          c <> [] /\ trimmed c /\ clean c;
  ew_context : context e <> Some [];
  ew_msgid_safe : escapeSafe (msgid e) = true /\ noLineSep (msgid e) = true;
  ew_msgstr_safe : escapeSafe (msgstr e) = true
                   /\ noLineSep (msgstr e) = true;
  ew_context_safe : escapeSafe (orEmpty (context e)) = true
                    /\ noLineSep (orEmpty (context e)) = true
}.

(** The shape of a header that [parseHeaderLine] stores. *)
Definition headerShape (kv : str * str) : Prop :=
  trimmed (fst kv) /\ trimmed (snd kv) /\ ~ In COLON (fst kv)
  /\ ~ In NL (fst kv) /\ ~ In NL (snd kv).

Definition headersInv (hs : Headers) : Prop :=
  objInv hs /\ Forall headerShape hs.

(** The shape of an entry that [parsePOFile] returns. *)
Definition entryShape (e : TranslationEntry) : Prop :=
  id e = entryId (context e) (msgid e)
  /\ status e = statusOf (msgstr e)
  /\ msgid e <> []
  /\ forall c, comments e = Some c -> c <> [] /\ trimmed c /\ clean c.

(** The context is present and is the empty string. *)
Definition emptyContext (e : TranslationEntry) : bool :=
  match context e with
  | Some [] => true
  | _ => false
  end.

Definition entrySafe (e : TranslationEntry) : bool :=
  negb (emptyContext e)
  && textSafe (msgid e) && textSafe (msgstr e)
  && textSafe (orEmpty (context e)).

Definition headerPairSafe (kv : str * str) : bool :=
  truthy (fst kv) && headerSafe (fst kv) && headerSafe (snd kv).

(** The catalogs on which the generator and the parser are inverse: no
    header has an empty key; in no header key or value is a backslash
    followed by n, t, r, a double quote or a backslash, and none has a
    carriage return or a line separator; no entry has a context that is
    present and empty; in no [msgid], [msgstr] or context is a backslash
    followed by n, t or r, and none has a line separator. *)
Definition roundtripSafe (data : ParsedPO) : bool :=
  forallb headerPairSafe (headers data) && forallb entrySafe (entries data).

(** ** Variations of a text, kinds of lines, and the invariant of the
    states *)

Definition toCRLF (s : str) : str := replace1 NL [CR; NL] s.

Definition toCR (s : str) : str := replace1 NL [CR] s.

Definition allSpace (w : str) : bool := forallb is_ws w.

(** The line is blank or a comment. *)
Definition commentOrBlank (line : str) : bool :=
  negb (truthy (trim line)) || startsWith [HASH] (trim line).

(** The line does not declare a [msgid]. *)
Definition notMsgidLine (line : str) : bool :=
  negb (startsWith kw_msgid (trim line)).

(** A reader of escape tokens in one pass from the left, used to show
    that escaping loses nothing. *)
Fixpoint readTokens (s : str) : str :=
  match s with
  | [] => []
  | c :: t =>
      if eqc c BS then
        match t with
        | k :: u =>
            (if eqc k 110 then NL
             else if eqc k 116 then TAB
             else if eqc k 114 then CR else k) :: readTokens u
        | [] => [c]
        end
      else c :: readTokens t
  end.

(** A character that [cleanLine] may take for a numbering, a bullet or
    a quote at the start of a line. *)
Definition isMarker (c : char) : bool :=
  is_digit c || eqc c 45 || eqc c 8226 || eqc c 42 || eqc c DQ || eqc c SQ.

(** A line that [cleanLine] has nothing to remove from: it has no
    newline, it begins with a character that is neither white space nor
    a marker, and it does not end with white space. *)
Definition plainLine (l : str) : bool :=
  match l, rev l with
  | c :: _, d :: _ => negb (is_ws c) && negb (isMarker c) && negb (is_ws d)
  | _, _ => false
  end
  && forallb (fun x => negb (eqc x NL)) l.

(** What holds in every state that can be reached. *)
Definition uiInv (ui : UiState) : Prop :=
  (forall po, poData (uiCore ui) = Some po ->
              headersInv (headers po) /\ Forall entryShape (entries po))
  /\ (forall sel, selectedEntry (uiCore ui) = Some sel ->
                  exists po, poData (uiCore ui) = Some po
                             /\ In sel (entries po))
  /\ (length (aiSuggestions ui) <= 3)%nat
  /\ Forall (fun s => s <> []) (aiSuggestions ui).

(** ** Lines without effect, missing fields, and the pieces of a text *)

(** The line leaves the state of [parseBlock] as it is: it is blank, a
    comment of another kind than [#.] and [#:], or a line that is neither
    a comment, a field declaration nor a quoted string. *)
Definition noEffectLine (line : str) : bool :=
  let t := trim line in
  negb (truthy t)
  || (if startsWith [HASH] t
      then negb (startsWith kw_hashdot t) && negb (startsWith kw_hashcolon t)
      else negb (startsWith kw_msgctxt t) && negb (startsWith kw_msgid t)
           && negb (startsWith kw_msgstr t)
           && negb (startsWith [DQ] t && endsWith [DQ] t)).

(** The line does not declare a [msgstr]. *)
Definition notMsgstrLine (line : str) : bool :=
  negb (startsWith kw_msgstr (trim line)).

(** The line does not declare a [msgctxt]. *)
Definition notMsgctxtLine (line : str) : bool :=
  negb (startsWith kw_msgctxt (trim line)).

(** The raw records of the pieces that the loop does not skip. *)
Definition recordsOf (pieces : list str) : list RawEntry :=
  map rawOf (filter nonBlank pieces).

(** Two pieces that differ by at most a newline at the end. *)
Definition edgeEq (x y : str) : Prop :=
  y = x \/ y = x ++ [NL] \/ x = y ++ [NL].

(** How the pieces [X] of a text followed by a suffix relate to the
    pieces [Y] of the text alone, when the suffix adds the records [T]:
    either the text is one piece, which the suffix changes by at most a
    newline at its end, or both have the same first piece. *)
Definition piecesRel (T : list RawEntry) (X Y : list str) : Prop :=
  (exists x y Xs,
      X = x :: Xs /\ Y = [y] /\ edgeEq x y /\ recordsOf Xs = T)
  \/ (exists y Xs Ys,
         X = y :: Xs /\ Y = y :: Ys /\ recordsOf Xs = recordsOf Ys ++ T).

(** The pattern of the numbering matches at the start of the line: one
    or more digits, then a dot or a closing parenthesis. *)
Definition hasNumbering (line : str) : bool :=
  match takeWhile is_digit line, dropWhile is_digit line with
  | _ :: _, c :: _ => eqc c 46 || eqc c 41
  | _, _ => false
  end.

(** The line starts with a hyphen, a bullet sign or an asterisk. *)
Definition hasBullet (line : str) : bool :=
  match line with
  | c :: _ => eqc c 45 || eqc c 8226 || eqc c 42
  | [] => false
  end.

(** The line starts and ends with the quote [q]. *)
Definition surrounded (q : char) (line : str) : bool :=
  startsWith [q] line && endsWith [q] line.

(** A line of an answer from which [cleanLine] removes nothing: it is
    not empty and has no newline, no white space at its ends, no
    numbering, no bullet and no surrounding quotes. *)
Definition bareLine (l : str) : bool :=
  match l, rev l with
  | c :: _, d :: _ => negb (is_ws c) && negb (is_ws d)
  | _, _ => false
  end
  && forallb (fun x => negb (eqc x NL)) l
  && negb (hasNumbering l) && negb (hasBullet l)
  && negb (surrounded DQ l) && negb (surrounded SQ l).

(** ** Inputs of the examples *)

(** Scenario 1 of the specification: a minimal entry. *)
Definition scenario1 : str :=
  lit "msgid " ++ [DQ] ++ lit "Hello" ++ [DQ; NL]
  ++ lit "msgstr " ++ [DQ] ++ lit "Hola" ++ [DQ].

(** Scenario 2: a pending entry with an extracted comment. *)
Definition scenario2 : str :=
  lit "#. Greeting shown on login" ++ [NL]
  ++ lit "msgid " ++ [DQ] ++ lit "Welcome" ++ [DQ; NL]
  ++ lit "msgstr " ++ [DQ; DQ].

(** Scenario 3: continuation lines are appended without a separator. *)
Definition scenario3 : str :=
  lit "msgid " ++ [DQ] ++ lit "Line one" ++ [DQ; NL]
  ++ [DQ] ++ lit "Line two" ++ [DQ; NL]
  ++ lit "msgstr " ++ [DQ] ++ lit "L" ++ [237%N] ++ lit "nea uno" ++ [DQ; NL]
  ++ [DQ] ++ lit "L" ++ [237%N] ++ lit "nea dos" ++ [DQ].

(** Scenario 4: the header block. *)
Definition scenario4 : str :=
  lit "msgid " ++ [DQ; DQ; NL]
  ++ lit "msgstr " ++ [DQ; DQ; NL]
  ++ [DQ] ++ lit "Language: es\n" ++ [DQ; NL]
  ++ [DQ] ++ lit "Content-Type: text/plain; charset=UTF-8\n" ++ [DQ].

(** Scenario 5: a value with an embedded double quote and a newline. *)
Definition scenario5 : str :=
  lit "He said " ++ [DQ] ++ lit "hi" ++ [DQ; NL] ++ lit "Bye".

Definition twoBlocks : str :=
  lit "msgstr " ++ [DQ] ++ lit "Language: es" ++ [DQ; NL; NL]
  ++ lit "msgid " ++ [DQ] ++ lit "a" ++ [DQ].

Definition ctxSave : str :=
  lit "msgctxt " ++ [DQ] ++ lit "menu" ++ [DQ; NL]
  ++ lit "msgid " ++ [DQ] ++ lit "Save" ++ [DQ].

Definition noCtxSave : str := lit "msgid " ++ [DQ] ++ lit "Save" ++ [DQ].

Definition emptyCtxSave : str :=
  lit "msgctxt " ++ [DQ; DQ; NL] ++ lit "msgid " ++ [DQ] ++ lit "Save" ++ [DQ].

(** One catalog with the same [msgid] twice: without a context, and with
    an empty context. *)
Definition collidingCatalog : str := noCtxSave ++ [NL; NL] ++ emptyCtxSave.

Definition fourSuggestions : str :=
  lit "1. Hola" ++ [NL] ++ lit "2) " ++ [DQ] ++ lit "Buenas" ++ [DQ; NL; NL]
  ++ lit "- 'Saludos'" ++ [NL] ++ [8226%N] ++ lit " Buenos dias".

(** A block of arbitrary text between two well-formed blocks. *)
Definition malformedMiddle : str :=
  lit "msgid " ++ [DQ] ++ lit "a" ++ [DQ; NL; NL]
  ++ lit "msgid " ++ [DQ] ++ lit "unterminated" ++ [NL]
  ++ lit "garbage ]]] msgstr" ++ [NL; NL]
  ++ lit "msgid " ++ [DQ] ++ lit "b" ++ [DQ].

Definition commentedBlock : str :=
  lit "# translator note" ++ [NL]
  ++ lit "#. Greeting  " ++ [NL]
  ++ lit "#, fuzzy" ++ [NL]
  ++ lit "#: src/app.c:12" ++ [NL]
  ++ lit "#| msgid old" ++ [NL]
  ++ lit "msgid " ++ [DQ] ++ lit "Hi" ++ [DQ].

(** Three blocks without a [msgid] line: all are header blocks. *)
Definition threeHeaderBlocks : str :=
  lit "msgstr " ++ [DQ] ++ lit "Language: es\n" ++ [DQ; NL]
  ++ [DQ] ++ lit "Project: one\n" ++ [DQ; NL; NL]
  ++ lit "msgstr " ++ [DQ] ++ lit "Language: fr\n" ++ [DQ; NL; NL]
  ++ lit "msgstr " ++ [DQ] ++ lit "Team: core\n" ++ [DQ].

(** The two-character text backslash, n, as in the path [C:\new]. *)
Definition backslash_n : str := [BS; 110%N].

(** A catalog with three headers and three entries: comments, a context,
    a continuation line, escapes of every kind, Windows line ends. *)
Definition sampleCatalog : str :=
  lit "# translator note" ++ [NL]
  ++ lit "msgid " ++ [DQ; DQ; NL]
  ++ lit "msgstr " ++ [DQ; DQ; NL]
  ++ [DQ] ++ lit "Language: es\n" ++ [DQ; NL]
  ++ [DQ] ++ lit "Content-Type: text/plain; charset=UTF-8\n" ++ [DQ; NL]
  ++ [DQ] ++ lit "X-Source: C:\\po\\dir\n" ++ [DQ; CR; NL]
  ++ [CR; NL]
  ++ lit "#. Greeting shown on login" ++ [NL]
  ++ lit "#: src/login.c:10" ++ [NL]
  ++ lit "msgctxt " ++ [DQ] ++ lit "menu" ++ [DQ; NL]
  ++ lit "msgid " ++ [DQ] ++ lit "He said \" ++ [DQ] ++ lit "hi\" ++ [DQ]
  ++ lit "\n" ++ [DQ; NL]
  ++ [DQ] ++ lit "Bye\tnow \\ then" ++ [DQ; NL]
  ++ lit "msgstr " ++ [DQ] ++ lit "Dijo hola" ++ [DQ; NL; NL; NL]
  ++ lit "msgid " ++ [DQ] ++ lit "Save" ++ [DQ; NL]
  ++ lit "msgstr " ++ [DQ; DQ; NL; NL]
  ++ lit "msgid unquoted" ++ [NL]
  ++ lit "msgstr " ++ [DQ] ++ lit "sin comillas" ++ [DQ; NL].

Definition context_of_first (data : ParsedPO) : option (option str) :=
  option_map context (hd_error (entries data)).

(** A block of an obsolete entry, between two entries. *)
Definition obsoleteBlock : str :=
  lit "# removed in 2.0" ++ [NL]
  ++ lit "#~ msgid " ++ [DQ] ++ lit "Old" ++ [DQ; NL]
  ++ lit "#~ msgstr " ++ [DQ] ++ lit "Viejo" ++ [DQ].

(** A block with a translation and no source text. *)
Definition orphanBlock : str :=
  lit "msgctxt " ++ [DQ] ++ lit "menu" ++ [DQ; NL]
  ++ [DQ] ++ lit "more" ++ [DQ; NL]
  ++ lit "msgstr " ++ [DQ] ++ lit "Guardar" ++ [DQ].

(** The quoted text [a\\nb\tc]: a doubled backslash before n. *)
Definition trickyBody : str := lit "a\\nb\tc".

(** A provider that answers with five numbered lines. *)
Definition fiveLines : Respond :=
  fun _ _ _ =>
    Content (lit "1. uno" ++ [NL] ++ lit "2. dos" ++ [NL; NL] ++ lit "3. tres"
             ++ [NL] ++ lit "4. cuatro" ++ [NL] ++ lit "5. cinco").

Definition geminiWithKey : AISettings := mkSettings Gemini [] (lit "k").

(** A catalog with the entries Hello, translated, and Bye, pending. *)
Definition helloBye : str :=
  scenario1 ++ [NL; NL]
  ++ lit "msgid " ++ [DQ] ++ lit "Bye" ++ [DQ; NL]
  ++ lit "msgstr " ++ [DQ; DQ; NL].

Definition twoEntryState : AppState :=
  mkApp (Some (parsePOFile helloBye)) None.

(** The state in which the catalog [helloBye] is loaded, its entry Bye
    is selected and two suggestions are shown. *)
Definition sessionSuggested : UiState :=
  mkUi (mkApp (Some (parsePOFile helloBye))
              (Some (mkEntry (lit "_Bye") (lit "Bye") [] None None Pending)))
       (lit "es.po") FAll [] false
       [lit "Adi" ++ [243%N] ++ lit "s"; lit "Chao"] false
       (mkSettings Gemini [] (lit "k")) None.

(** A session: a file is chosen, the pending entry Bye is selected and
    the translation of it is typed. *)
Definition sessionLoaded : UiState :=
  handleFileUpload (Some (lit "es.po", helloBye))
                   (initialUi (mkSettings Gemini [] [])).

Definition entryBye : TranslationEntry :=
  mkEntry (lit "_Bye") (lit "Bye") [] None None Pending.

Definition sessionEdited : UiState :=
  editTranslation (lit "_Bye") (lit "Adi" ++ [243%N] ++ lit "s")
                  (handleSelectEntry entryBye sessionLoaded).

Definition editedCatalog : ParsedPO :=
  mkPO []
       [mkEntry (lit "_Hello") (lit "Hello") (lit "Hola") None None
                Translated;
        mkEntry (lit "_Bye") (lit "Bye") (lit "Adi" ++ [243%N] ++ lit "s")
                None None Translated].

(** A block with an unterminated string, a line of another format and
    no [msgstr]. *)
Definition brokenBlock : str :=
  lit "msgid " ++ [DQ] ++ lit "unterminated" ++ [NL]
  ++ lit "garbage ]]] msgstr" ++ [NL]
  ++ lit "#, fuzzy".

(** Answers that start with a digit or with a quote and still have no
    numbering and no surrounding quotes. *)
Definition bareLines : list str :=
  [lit "3 apples"; [DQ] ++ lit "unterminated"; lit "Hola mundo";
   lit "a fourth"].

(** * Properties *)

(** ** Equality tests *)

Lemma eqc_true (a b : char) : eqc a b = true <-> a = b.
Proof. unfold eqc. apply N.eqb_eq. Qed.

Lemma eqc_false (a b : char) : eqc a b = false <-> a <> b.
Proof. unfold eqc. apply N.eqb_neq. Qed.

Lemma eqc_refl (a : char) : eqc a a = true.
Proof. apply eqc_true. reflexivity. Qed.

Lemma eqs_true (a b : str) : eqs a b = true <-> a = b.
Proof.
  revert b. induction a as [|x a IH]; intros [|y b]; simpl; split;
    try congruence; try reflexivity.
  - intros H. apply andb_true_iff in H as [H1 H2].
    apply eqc_true in H1. apply IH in H2. congruence.
  - intros H. injection H as -> ->. rewrite eqc_refl. simpl.
    apply IH. reflexivity.
Qed.

Lemma eqs_refl (a : str) : eqs a a = true.
Proof. apply eqs_true. reflexivity. Qed.

Lemma eqs_false (a b : str) : eqs a b = false <-> a <> b.
Proof.
  split.
  - intros H E. apply eqs_true in E. congruence.
  - intros H. destruct (eqs a b) eqn:E; [|reflexivity].
    apply eqs_true in E. contradiction.
Qed.

Lemma truthy_true (s : str) : truthy s = true <-> s <> [].
Proof. destruct s; simpl; split; congruence. Qed.

(** ** The loop over the blocks, as a map and a filter *)

Lemma parseBlock_rawOf (block : str) : parseBlock block = Some (rawOf block).
Proof. reflexivity. Qed.

Lemma processBlock_blank (acc : ParsedPO) (block : str) :
  nonBlank block = false -> processBlock acc block = acc.
Proof. unfold processBlock, nonBlank. intros ->. reflexivity. Qed.

Lemma processBlock_header (acc : ParsedPO) (block : str) :
  nonBlank block = true -> isHeaderRaw (rawOf block) = true ->
  processBlock acc block =
  mkPO (parseHeaders (r_msgstr (rawOf block)) (headers acc)) (entries acc).
Proof.
  unfold processBlock, nonBlank, isHeaderRaw. intros -> H.
  rewrite parseBlock_rawOf. cbn [negb]. cbv iota. rewrite H. reflexivity.
Qed.

Lemma processBlock_entry (acc : ParsedPO) (block : str) :
  nonBlank block = true -> isHeaderRaw (rawOf block) = false ->
  processBlock acc block =
  mkPO (headers acc) (entries acc ++ [entryOfRaw (rawOf block)]).
Proof.
  unfold processBlock, nonBlank, isHeaderRaw. intros -> H.
  rewrite parseBlock_rawOf. cbn [negb]. cbv iota. rewrite H. reflexivity.
Qed.

Lemma fold_processBlock (blocks : list str) (acc : ParsedPO) :
  let raws := map rawOf (filter nonBlank blocks) in
  fold_left processBlock blocks acc =
  mkPO (fold_left feedHeaders (filter isHeaderRaw raws) (headers acc))
       (entries acc
        ++ map entryOfRaw (filter (fun r => negb (isHeaderRaw r)) raws)).
Proof.
  revert acc. induction blocks as [|b blocks IH]; intros acc; simpl.
  - rewrite app_nil_r. destruct acc; reflexivity.
  - rewrite IH. destruct (nonBlank b) eqn:Hb.
    + simpl. destruct (isHeaderRaw (rawOf b)) eqn:Hh; simpl.
      * rewrite processBlock_header by assumption. reflexivity.
      * rewrite processBlock_entry by assumption. simpl.
        rewrite <- app_assoc. reflexivity.
    + rewrite processBlock_blank by assumption. reflexivity.
Qed.

Lemma parsePOFile_entries (content : str) :
  entries (parsePOFile content) =
  map entryOfRaw (filter (fun r => negb (isHeaderRaw r)) (rawBlocks content)).
Proof. unfold parsePOFile. rewrite fold_processBlock. reflexivity. Qed.

Lemma parsePOFile_headers (content : str) :
  headers (parsePOFile content) =
  fold_left feedHeaders (filter isHeaderRaw (rawBlocks content)) [].
Proof. unfold parsePOFile. rewrite fold_processBlock. reflexivity. Qed.

Lemma in_entries_raw (content : str) (e : TranslationEntry) :
  In e (entries (parsePOFile content)) ->
  exists raw, In raw (rawBlocks content) /\ r_msgid raw <> []
              /\ e = entryOfRaw raw.
Proof.
  rewrite parsePOFile_entries. intros H.
  apply in_map_iff in H as (raw & <- & H).
  apply filter_In in H as [H1 H2]. exists raw. repeat split; try assumption.
  unfold isHeaderRaw in H2. apply negb_true_iff, eqs_false in H2. assumption.
Qed.

Example scenario1_parse :
  parsePOFile scenario1 =
  mkPO [] [mkEntry (lit "_Hello") (lit "Hello") (lit "Hola") None None
                   Translated].
Proof. vm_compute. reflexivity. Qed.

Example scenario2_parse :
  parsePOFile scenario2 =
  mkPO [] [mkEntry (lit "_Welcome") (lit "Welcome") []  None
                   (Some (lit "Greeting shown on login")) Pending].
Proof. vm_compute. reflexivity. Qed.

Example scenario3_parse :
  parsePOFile scenario3 =
  mkPO [] [mkEntry (lit "_Line oneLine two") (lit "Line oneLine two")
                   (lit "L" ++ [237%N] ++ lit "nea unoL" ++ [237%N]
                    ++ lit "nea dos")
                   None None Translated].
Proof. vm_compute. reflexivity. Qed.

Example scenario4_parse :
  parsePOFile scenario4 =
  mkPO [(lit "Language", lit "es");
        (lit "Content-Type", lit "text/plain; charset=UTF-8")] [].
Proof. vm_compute. reflexivity. Qed.

Example scenario4_roundtrip :
  parsePOFile (generatePOFile (parsePOFile scenario4)) = parsePOFile scenario4.
Proof. vm_compute. reflexivity. Qed.

Example scenario5_escape :
  escapeString scenario5 =
  [DQ] ++ lit "He said \" ++ [DQ] ++ lit "hi\" ++ [DQ] ++ lit "\nBye" ++ [DQ].
Proof. vm_compute. reflexivity. Qed.

Example scenario5_roundtrip :
  extractString (escapeString scenario5) = scenario5.
Proof. vm_compute. reflexivity. Qed.

(** ** Status derivation *)

Lemma statusOf_pending (s : str) : statusOf s = Pending <-> s = [].
Proof. destruct s; unfold statusOf; simpl; split; congruence. Qed.

Lemma statusOf_translated (s : str) : s <> [] -> statusOf s = Translated.
Proof. destruct s; unfold statusOf; simpl; congruence. Qed.

Lemma statusOf_not_suggested (s : str) : statusOf s <> AiSuggested.
Proof. destruct s; unfold statusOf; simpl; congruence. Qed.

(** C4: every entry that [parsePOFile] returns has status [Pending] exactly
    when its [msgstr] is the empty string, has status [Translated] otherwise,
    and never has status [AiSuggested]. *)
Theorem parsePOFile_status (content : str) (e : TranslationEntry) :
  In e (entries (parsePOFile content)) ->
  (status e = Pending <-> msgstr e = [])
  /\ (msgstr e <> [] -> status e = Translated)
  /\ status e <> AiSuggested.
Proof.
  intros H. apply in_entries_raw in H as (raw & _ & _ & ->). simpl.
  split; [apply statusOf_pending|].
  split; [apply statusOf_translated | apply statusOf_not_suggested].
Qed.

Lemma parsePOFile_status_witness :
  In (mkEntry (lit "_Welcome") (lit "Welcome") [] None
              (Some (lit "Greeting shown on login")) Pending)
     (entries (parsePOFile scenario2))
  /\ ((Pending = Pending <-> @nil char = [])
      /\ (@nil char <> [] -> Pending = Translated)
      /\ Pending <> AiSuggested).
Proof.
  assert (H : In (mkEntry (lit "_Welcome") (lit "Welcome") [] None
                          (Some (lit "Greeting shown on login")) Pending)
                 (entries (parsePOFile scenario2))).
  { vm_compute. left. reflexivity. }
  split; [exact H|]. exact (parsePOFile_status scenario2 _ H).
Defined.

(** ** Header isolation *)

(** C5: whatever the state of the loop, a block whose extracted [msgid] is
    empty leaves [entries] as it was, and a block whose extracted [msgid] is
    not empty leaves [headers] as it was; so no returned entry has an empty
    [msgid] and only the blocks with an empty [msgid] reach [parseHeaders]. *)
Theorem header_isolation (content : str) :
  (forall (acc : ParsedPO) (block : str) (raw : RawEntry),
      parseBlock block = Some raw ->
      (r_msgid raw = [] -> entries (processBlock acc block) = entries acc)
      /\ (r_msgid raw <> [] ->
          headers (processBlock acc block) = headers acc))
  /\ (forall e, In e (entries (parsePOFile content)) -> msgid e <> [])
  /\ entries (parsePOFile content) =
     map entryOfRaw
         (filter (fun r => negb (eqs (r_msgid r) [])) (rawBlocks content))
  /\ headers (parsePOFile content) =
     fold_left (fun hs r => parseHeaders (r_msgstr r) hs)
               (filter (fun r => eqs (r_msgid r) []) (rawBlocks content)) [].
Proof.
  split; [|split; [|split]].
  - intros acc block raw Hraw. rewrite parseBlock_rawOf in Hraw.
    injection Hraw as <-.
    destruct (nonBlank block) eqn:Hb.
    + split; intros H.
      * rewrite processBlock_header; [reflexivity|assumption|].
        unfold isHeaderRaw. rewrite H. reflexivity.
      * rewrite processBlock_entry; [reflexivity|assumption|].
        unfold isHeaderRaw. apply eqs_false. assumption.
    + rewrite processBlock_blank by assumption. split; reflexivity.
  - intros e H. apply in_entries_raw in H as (raw & _ & Hne & ->).
    exact Hne.
  - apply parsePOFile_entries.
  - apply parsePOFile_headers.
Qed.

Lemma header_isolation_witness :
  parseBlock (lit "msgid x") = Some (mkRaw (lit "x") [] None None)
  /\ (lit "x" <> [] ->
      headers (processBlock emptyPO (lit "msgid x")) = headers emptyPO)
  /\ In (mkEntry (lit "_a") (lit "a") [] None None Pending)
        (entries (parsePOFile twoBlocks))
  /\ lit "a" <> [].
Proof.
  assert (H1 : parseBlock (lit "msgid x") = Some (mkRaw (lit "x") [] None None))
    by (vm_compute; reflexivity).
  assert (H2 : In (mkEntry (lit "_a") (lit "a") [] None None Pending)
                  (entries (parsePOFile twoBlocks)))
    by (vm_compute; left; reflexivity).
  split; [exact H1|]. split.
  - exact (proj2 (proj1 (header_isolation twoBlocks) emptyPO _ _ H1)).
  - split; [exact H2|].
    exact (proj1 (proj2 (header_isolation twoBlocks)) _ H2).
Defined.

(** ** Entry identifiers *)

(** C8 (amended): the [id] of every returned entry is its context, or the
    empty string when the context is absent, followed by an underscore and
    its [msgid]; two returned entries with the same [msgid] whose contexts
    differ once an absent context is read as the empty string have
    different ids. *)
Theorem entry_id_derivation (c1 c2 : str) (e1 e2 : TranslationEntry) :
  In e1 (entries (parsePOFile c1)) ->
  In e2 (entries (parsePOFile c2)) ->
  id e1 = orEmpty (context e1) ++ [95%N] ++ msgid e1
  /\ (msgid e1 = msgid e2 ->
      orEmpty (context e1) <> orEmpty (context e2) -> id e1 <> id e2).
Proof.
  intros H1 H2.
  apply in_entries_raw in H1 as (r1 & _ & _ & ->).
  apply in_entries_raw in H2 as (r2 & _ & _ & ->). simpl.
  split; [reflexivity|]. unfold entryId. intros Hm Hc E. apply Hc.
  rewrite Hm in E. exact (app_inv_tail _ _ _ E).
Qed.

Lemma entry_id_derivation_witness :
  let e1 := mkEntry (lit "menu_Save") (lit "Save") [] (Some (lit "menu")) None
                    Pending in
  let e2 := mkEntry (lit "_Save") (lit "Save") [] None None Pending in
  In e1 (entries (parsePOFile ctxSave))
  /\ In e2 (entries (parsePOFile noCtxSave))
  /\ msgid e1 = msgid e2
  /\ orEmpty (context e1) <> orEmpty (context e2)
  /\ id e1 <> id e2.
Proof.
  intros e1 e2.
  assert (H1 : In e1 (entries (parsePOFile ctxSave)))
    by (vm_compute; left; reflexivity).
  assert (H2 : In e2 (entries (parsePOFile noCtxSave)))
    by (vm_compute; left; reflexivity).
  assert (H3 : orEmpty (context e1) <> orEmpty (context e2))
    by (vm_compute; discriminate).
  split; [exact H1|]. split; [exact H2|]. split; [reflexivity|].
  split; [exact H3|].
  exact (proj2 (entry_id_derivation ctxSave noCtxSave e1 e2 H1 H2)
               eq_refl H3).
Defined.

(** C8 as stated fails: an absent context and an empty context are
    different context values, and in one catalog both give the id
    [_Save]. *)
Lemma entry_id_collision :
  exists e1 e2,
    In e1 (entries (parsePOFile collidingCatalog))
    /\ In e2 (entries (parsePOFile collidingCatalog))
    /\ msgid e1 = msgid e2
    /\ context e1 <> context e2
    /\ id e1 = id e2.
Proof.
  exists (mkEntry (lit "_Save") (lit "Save") [] None None Pending).
  exists (mkEntry (lit "_Save") (lit "Save") [] (Some []) None Pending).
  split; [vm_compute; left; reflexivity|].
  split; [vm_compute; right; left; reflexivity|].
  split; [reflexivity|]. split; [discriminate|reflexivity].
Qed.

(** ** Suggestions *)

Lemma filter_nonempty (l : list str) :
  Forall (fun s => s <> [])
         (filter (fun line => (0 <? length line)%nat) l).
Proof.
  apply Forall_forall. intros s H. apply filter_In in H as [_ H].
  destruct s; [discriminate|congruence].
Qed.

Lemma Forall_firstn (A : Type) (P : A -> Prop) (n : nat) (l : list A) :
  Forall P l -> Forall P (firstn n l).
Proof.
  intros H. revert n. induction H as [|x l Hx Hl IH]; intros [|n]; simpl;
    constructor; auto.
Qed.

(** C9: for every response text, [parseTranslations] returns at most three
    strings and none of them is empty. *)
Theorem parseTranslations_bounded (content : str) :
  (length (parseTranslations content) <= 3)%nat
  /\ Forall (fun s => s <> []) (parseTranslations content).
Proof.
  unfold parseTranslations. split.
  - apply firstn_le_length.
  - apply Forall_firstn, filter_nonempty.
Qed.

Example parseTranslations_four :
  parseTranslations fourSuggestions =
  [lit "Hola"; lit "Buenas"; lit "Saludos"].
Proof. vm_compute. reflexivity. Qed.

(** ** Editing a translation *)

Lemma nth_error_updateEntries (i newMsgstr : str)
      (es : list TranslationEntry) (n : nat) :
  nth_error (updateEntries i newMsgstr es) n =
  option_map (fun entry => if eqs (id entry) i
                           then withMsgstr entry newMsgstr else entry)
             (nth_error es n).
Proof. unfold updateEntries. apply nth_error_map. Qed.

(** C10: [updateTranslation] keeps the headers, the number and order of the
    entries and every entry with another id; an entry with the given id gets
    the new [msgstr] and the status derived from it, and keeps its [id],
    [msgid], [context] and [comments]. *)
Theorem updateTranslation_frame (i newMsgstr : str) (st : AppState)
        (po : ParsedPO) :
  poData st = Some po ->
  exists po',
    poData (updateTranslation i newMsgstr st) = Some po'
    /\ headers po' = headers po
    /\ length (entries po') = length (entries po)
    /\ map id (entries po') = map id (entries po)
    /\ forall n e, nth_error (entries po) n = Some e ->
         exists e', nth_error (entries po') n = Some e'
           /\ (id e <> i -> e' = e)
           /\ (id e = i ->
               msgstr e' = newMsgstr
               /\ status e' = (if truthy newMsgstr then Translated
                               else Pending)
               /\ id e' = id e /\ msgid e' = msgid e
               /\ context e' = context e /\ comments e' = comments e).
Proof.
  intros Hpo. unfold updateTranslation. rewrite Hpo.
  eexists. split; [reflexivity|]. simpl.
  split; [reflexivity|]. split; [apply length_map|]. split.
  - unfold updateEntries. rewrite map_map. apply map_ext.
    intros e. destruct (eqs (id e) i); reflexivity.
  - intros n e Hn. rewrite nth_error_updateEntries, Hn. simpl.
    eexists. split; [reflexivity|]. split.
    + intros Hne. apply eqs_false in Hne. rewrite Hne. reflexivity.
    + intros He. apply eqs_true in He. rewrite He. simpl.
      repeat split; reflexivity.
Qed.

Lemma updateTranslation_frame_witness :
  let e := mkEntry (lit "_Welcome") (lit "Welcome") [] None
                   (Some (lit "Greeting shown on login")) Pending in
  let st := mkApp (Some (parsePOFile scenario2)) (Some e) in
  exists po',
    poData (updateTranslation (lit "_Welcome") (lit "Hola") st) = Some po'
    /\ headers po' = []
    /\ length (entries po') = 1%nat.
Proof.
  intros e st.
  destruct (updateTranslation_frame (lit "_Welcome") (lit "Hola") st
              (parsePOFile scenario2) eq_refl)
    as (po' & H1 & H2 & H3 & _).
  exists po'. split; [exact H1|]. split; [exact H2|exact H3].
Defined.

(** ** Totality of the parser *)

Lemma filter_partition_length (A : Type) (p : A -> bool) (l : list A) :
  (length (filter (fun x => negb (p x)) l) + length (filter p l)
   = length l)%nat.
Proof.
  induction l as [|x l IH]; simpl; [reflexivity|].
  destruct (p x); simpl; lia.
Qed.

Example parsePOFile_empty : parsePOFile [] = mkPO [] [].
Proof. reflexivity. Qed.

Example malformedMiddle_parse :
  map msgid (entries (parsePOFile malformedMiddle)) =
  [lit "a"; [DQ] ++ lit "unterminated"; lit "b"].
Proof. vm_compute. reflexivity. Qed.

(** ** Comments of a block *)

Lemma continueField_comments (st : BlockState) (continued : str) :
  b_comments (continueField st continued) = b_comments st.
Proof.
  unfold continueField. destruct (b_currentField st) as [[]|]; reflexivity.
Qed.

Lemma startsWith_cons (x y : char) (p s : str) :
  startsWith (x :: p) (y :: s) = eqc x y && startsWith p s.
Proof. reflexivity. Qed.

Lemma startsWith_hash (c : char) (t : str) :
  startsWith [HASH] t = false -> startsWith (HASH :: c :: nil) t = false.
Proof.
  destruct t as [|y t]; [reflexivity|]. rewrite !startsWith_cons.
  intros H. apply andb_false_iff in H as [H|H]; [|discriminate].
  rewrite H. reflexivity.
Qed.

Ltac destr_if :=
  match goal with
  | |- context [if ?b then _ else _] => destruct b eqn:?
  end.

Lemma parseLine_comments (st : BlockState) (line : str) :
  b_comments (parseLine st line) =
  b_comments st ++ commentBuffer (linePayload line).
Proof.
  unfold parseLine, linePayload, commentBuffer. cbv zeta.
  destruct (trim line) as [|c t] eqn:Ht; [now rewrite app_nil_r|].
  cbn [truthy negb].
  destruct (startsWith [HASH] (c :: t)) eqn:Hh.
  - destruct (startsWith kw_hashdot (c :: t));
      [simpl; now rewrite app_nil_r|].
    destruct (startsWith kw_hashcolon (c :: t)); simpl; now rewrite app_nil_r.
  - unfold kw_hashdot, kw_hashcolon. rewrite !startsWith_hash by assumption.
    simpl. rewrite app_nil_r.
    repeat destr_if; try reflexivity. apply continueField_comments.
Qed.

Lemma fold_parseLine_comments (lines : list str) (st : BlockState) :
  b_comments (fold_left parseLine lines st) =
  b_comments st ++ commentBuffer (commentPayloads lines).
Proof.
  revert st. induction lines as [|l lines IH]; intros st; simpl.
  - now rewrite app_nil_r.
  - rewrite IH, parseLine_comments. unfold commentBuffer, commentPayloads.
    simpl. rewrite map_app, concat_app, app_assoc. reflexivity.
Qed.

(** C7: the [comments] of a block are the payloads of its hash-dot and
    hash-colon lines, each trimmed and followed by one space, the whole
    trimmed at the end; a line of any other kind leaves the comment buffer
    as it is; without a contributing line the field is absent. *)
Theorem parseBlock_comments (block : str) (raw : RawEntry) :
  parseBlock block = Some raw ->
  r_comments raw =
    finishComments (commentBuffer (commentPayloads (split NL block)))
  /\ (forall st line,
        startsWith kw_hashdot (trim line) = false ->
        startsWith kw_hashcolon (trim line) = false ->
        b_comments (parseLine st line) = b_comments st)
  /\ (commentPayloads (split NL block) = [] -> r_comments raw = None).
Proof.
  rewrite parseBlock_rawOf. intros H. injection H as <-.
  assert (E : r_comments (rawOf block) =
              finishComments
                (commentBuffer (commentPayloads (split NL block)))).
  { unfold rawOf, finishBlock. simpl.
    rewrite fold_parseLine_comments. reflexivity. }
  split; [exact E|]. split.
  - intros st line H1 H2. rewrite parseLine_comments.
    unfold linePayload. rewrite H1, H2. simpl. apply app_nil_r.
  - intros Hnone. rewrite E, Hnone. reflexivity.
Qed.

Lemma parseBlock_comments_witness :
  parseBlock commentedBlock =
    Some (mkRaw (lit "Hi") [] None (Some (lit "Greeting src/app.c:12")))
  /\ Some (lit "Greeting src/app.c:12") =
     finishComments (commentBuffer (commentPayloads (split NL commentedBlock))).
Proof.
  assert (H : parseBlock commentedBlock =
              Some (mkRaw (lit "Hi") [] None
                          (Some (lit "Greeting src/app.c:12"))))
    by (vm_compute; reflexivity).
  split; [exact H|]. exact (proj1 (parseBlock_comments commentedBlock _ H)).
Defined.

(** ** Property assignment and lookup *)

Lemma eqs_reflect (a b : str) : reflect (a = b) (eqs a b).
Proof.
  destruct (eqs a b) eqn:E; constructor.
  - apply eqs_true. assumption.
  - apply eqs_false. assumption.
Qed.

Lemma objGet_objUpdate (k k' v : str) (o : Headers) :
  objGet k (objUpdate k' v o) =
  if eqs k' k
  then match objGet k' o with Some _ => Some v | None => None end
  else objGet k o.
Proof.
  induction o as [|[k1 v1] o IH]; simpl.
  - destruct (eqs k' k); reflexivity.
  - destruct (eqs_reflect k1 k'); subst; simpl.
    + destruct (eqs_reflect k' k); reflexivity.
    + rewrite IH. destruct (eqs_reflect k1 k); subst.
      * destruct (eqs_reflect k' k); congruence.
      * reflexivity.
Qed.

Lemma objGet_objInsertIndex (n : N) (k k' v : str) (o : Headers) :
  objGet k' o = None ->
  objGet k (objInsertIndex n k' v o) =
  if eqs k' k then Some v else objGet k o.
Proof.
  induction o as [|[k1 v1] o IH]; simpl; [reflexivity|].
  destruct (eqs_reflect k1 k'); [discriminate|]. intros Hnone.
  destruct (arrayIndex k1) as [n'|]; [destruct (n' <? n)%N|]; simpl;
    try reflexivity.
  rewrite IH by assumption.
  destruct (eqs_reflect k1 k); subst; [|reflexivity].
  destruct (eqs_reflect k' k); congruence.
Qed.

Lemma objGet_app (k : str) (o o' : Headers) :
  objGet k (o ++ o') =
  match objGet k o with Some v => Some v | None => objGet k o' end.
Proof.
  induction o as [|[k1 v1] o IH]; simpl; [reflexivity|].
  destruct (eqs k1 k); [reflexivity|apply IH].
Qed.

(** Reading a key after an assignment. *)
Lemma objGet_objSet (k k' v : str) (o : Headers) :
  objGet k (objSet k' v o) =
  if eqs k' k && negb (eqs k' kw_proto) then Some v else objGet k o.
Proof.
  unfold objSet. destruct (eqs k' kw_proto) eqn:Hp; simpl.
  - now rewrite andb_false_r.
  - rewrite andb_true_r. destruct (objGet k' o) as [v0|] eqn:Hg.
    + rewrite objGet_objUpdate, Hg. reflexivity.
    + destruct (arrayIndex k') as [n|].
      * apply objGet_objInsertIndex. assumption.
      * rewrite objGet_app. simpl.
        destruct (eqs_reflect k' k); subst.
        -- rewrite Hg. reflexivity.
        -- destruct (objGet k o); reflexivity.
Qed.

Lemma overlays_id : overlays (fun hs => hs).
Proof. intros k hs. reflexivity. Qed.

Lemma overlays_objSet (k v : str) : overlays (objSet k v).
Proof.
  intros k0 hs. rewrite !objGet_objSet.
  destruct (eqs k k0 && negb (eqs k kw_proto)); reflexivity.
Qed.

Lemma overlays_compose (f g : Headers -> Headers) :
  overlays f -> overlays g -> overlays (fun hs => g (f hs)).
Proof.
  intros Hf Hg k hs. rewrite (Hg k (f hs)), (Hg k (f [])), (Hf k hs).
  destruct (objGet k (g [])); reflexivity.
Qed.

Lemma overlays_parseHeaderLine (line : str) :
  overlays (fun hs => parseHeaderLine hs line).
Proof.
  unfold parseHeaderLine. cbv zeta.
  destruct (indexOf COLON line >? 0)%Z.
  - apply overlays_objSet.
  - apply overlays_id.
Qed.

Lemma overlays_fold (lines : list str) :
  overlays (fun hs => fold_left parseHeaderLine lines hs).
Proof.
  induction lines as [|l lines IH]; simpl.
  - apply overlays_id.
  - exact (overlays_compose _ _ (overlays_parseHeaderLine l) IH).
Qed.

Lemma overlays_parseHeaders (headerStr : str) :
  overlays (parseHeaders headerStr).
Proof. unfold parseHeaders. apply overlays_fold. Qed.




Example threeHeaderBlocks_parse :
  parsePOFile threeHeaderBlocks =
  mkPO [(lit "Language", lit "fr"); (lit "Project", lit "one");
        (lit "Team", lit "core")] [].
Proof. vm_compute. reflexivity. Qed.


(** ** Escaping and unescaping *)

(** C2 fails on the code: the text backslash, n is escaped to backslash,
    backslash, n, and [extractString] turns the last two characters of that
    into a newline before it looks for doubled backslashes. *)
Theorem extract_escape_backslash_n :
  escapeString backslash_n = [DQ; BS; BS; 110%N; DQ]
  /\ extractString (escapeString backslash_n) = [BS; NL]
  /\ extractString (escapeString backslash_n) <> backslash_n.
Proof.
  split; [vm_compute; reflexivity|].
  split; [vm_compute; reflexivity|]. vm_compute. discriminate.
Qed.

(** ** Trimming *)

Lemma dropWhile_app_stop (p : char -> bool) (l r : str) (c : char) :
  p c = false -> dropWhile p (l ++ c :: r) = dropWhile p l ++ c :: r.
Proof.
  intros Hc. induction l as [|x l IH]; simpl.
  - rewrite Hc. reflexivity.
  - destruct (p x); [exact IH|reflexivity].
Qed.

Lemma dropWhile_idem (p : char -> bool) (s : str) :
  dropWhile p (dropWhile p s) = dropWhile p s.
Proof.
  induction s as [|x s IH]; simpl; [reflexivity|].
  destruct (p x) eqn:Hx; [exact IH|]. simpl. rewrite Hx. reflexivity.
Qed.

Lemma dropWhile_shape (p : char -> bool) (s : str) :
  dropWhile p s = [] \/
  exists c r, dropWhile p s = c :: r /\ p c = false.
Proof.
  induction s as [|x s IH]; simpl; [left; reflexivity|].
  destruct (p x) eqn:Hx; [exact IH|]. right. exists x, s. split; auto.
Qed.

Lemma In_dropWhile (p : char -> bool) (s : str) (x : char) :
  In x (dropWhile p s) -> In x s.
Proof.
  induction s as [|c s IH]; simpl; [tauto|].
  destruct (p c); [intros H; right; apply IH, H|simpl; tauto].
Qed.

Lemma In_trim (s : str) (x : char) : In x (trim s) -> In x s.
Proof.
  unfold trim, trimEnd, trimStart. intros H.
  apply in_rev, In_dropWhile in H. apply in_rev in H.
  apply In_dropWhile in H. assumption.
Qed.

Lemma trimEnd_snoc (s : str) (d : char) :
  is_ws d = false -> trimEnd (s ++ [d]) = s ++ [d].
Proof.
  intros Hd. unfold trimEnd. rewrite rev_app_distr. simpl. rewrite Hd.
  simpl. rewrite rev_involutive. reflexivity.
Qed.

Lemma trimEnd_snoc_ws (s : str) (d : char) :
  is_ws d = true -> trimEnd (s ++ [d]) = trimEnd s.
Proof.
  intros Hd. unfold trimEnd. rewrite rev_app_distr. simpl. rewrite Hd.
  reflexivity.
Qed.

Lemma trimEnd_cons (c : char) (s : str) :
  is_ws c = false -> trimEnd (c :: s) = c :: trimEnd s.
Proof.
  intros Hc. unfold trimEnd. simpl.
  rewrite dropWhile_app_stop by assumption.
  rewrite rev_app_distr. reflexivity.
Qed.

Lemma trim_cons (c : char) (s : str) :
  is_ws c = false -> trim (c :: s) = c :: trimEnd s.
Proof.
  intros Hc. unfold trim, trimStart. simpl. rewrite Hc.
  apply trimEnd_cons, Hc.
Qed.

Lemma trim_cons_ws (c : char) (s : str) :
  is_ws c = true -> trim (c :: s) = trim s.
Proof. intros Hc. unfold trim, trimStart. simpl. rewrite Hc. reflexivity. Qed.

Lemma trimmed_trim (s : str) : trimmed (trim s).
Proof.
  split.
  - destruct (dropWhile_shape is_ws s) as [E|(c & r & E & Hc)].
    + unfold trim, trimStart. rewrite E. reflexivity.
    + unfold trim, trimStart. rewrite E, trimEnd_cons by assumption.
      simpl. rewrite Hc. reflexivity.
  - unfold trim, trimEnd. rewrite rev_involutive. apply dropWhile_idem.
Qed.

Lemma trim_trimmed (s : str) : trimmed s -> trim s = s.
Proof.
  intros [H1 H2]. unfold trim, trimStart, trimEnd.
  rewrite H1, H2. apply rev_involutive.
Qed.

Lemma trim_idem (s : str) : trim (trim s) = trim s.
Proof. apply trim_trimmed, trimmed_trim. Qed.

Lemma trimmed_head (c : char) (s : str) : trimmed (c :: s) -> is_ws c = false.
Proof.
  intros [H _]. simpl in H. destruct (is_ws c) eqn:Hc; [|reflexivity].
  exfalso. assert (L : (length (dropWhile is_ws s) <= length s)%nat).
  { clear. induction s as [|x s IH]; simpl; [lia|].
    destruct (is_ws x); simpl; lia. }
  rewrite H in L. simpl in L. lia.
Qed.

Lemma trimmed_last (s : str) (d : char) :
  trimmed (s ++ [d]) -> is_ws d = false.
Proof.
  intros [H1 H2]. apply (trimmed_head d (rev s)). split.
  - rewrite rev_app_distr in H2. exact H2.
  - simpl. rewrite rev_involutive. exact H1.
Qed.

Lemma trimmed_ends (c d : char) (s : str) :
  is_ws c = false -> is_ws d = false -> trimmed (c :: s ++ [d]).
Proof.
  intros Hc Hd. split.
  - simpl. rewrite Hc. reflexivity.
  - change (c :: s ++ [d]) with ((c :: s) ++ [d]).
    rewrite rev_app_distr. simpl. rewrite Hd. reflexivity.
Qed.

(** A trimmed string that is not empty, seen from its last character. *)
Lemma trimmed_snoc (s : str) :
  trimmed s -> s <> [] -> exists m d, s = m ++ [d] /\ is_ws d = false.
Proof.
  intros Ht Hne. destruct (exists_last Hne) as (m & d & E).
  exists m, d. split; [exact E|]. subst s. exact (trimmed_last _ _ Ht).
Qed.

Lemma trim_space_trimmed (s : str) : trimmed s -> trim (SP :: s) = s.
Proof.
  intros Ht. rewrite trim_cons_ws by reflexivity. apply trim_trimmed, Ht.
Qed.

Lemma trim_trimmed_space (s : str) : trimmed s -> trim (s ++ [SP]) = s.
Proof.
  intros Ht. destruct s as [|c s]; [reflexivity|].
  pose proof (trimmed_head _ _ Ht) as Hc.
  simpl. rewrite trim_cons by assumption.
  rewrite trimEnd_snoc_ws by reflexivity.
  rewrite <- trim_cons by assumption. apply trim_trimmed, Ht.
Qed.

(** A line that starts and ends with a character that is not white space
    is its own trimmed form. *)
Lemma trim_ends (c d : char) (s : str) :
  is_ws c = false -> is_ws d = false -> trim (c :: s ++ [d]) = c :: s ++ [d].
Proof. intros Hc Hd. apply trim_trimmed, trimmed_ends; assumption. Qed.

(** ** Global replacement *)

Lemma replace1_flat_map (a : char) (rep s : str) :
  replace1 a rep s = flat_map (fun x => if eqc x a then rep else [x]) s.
Proof.
  induction s as [|x s IH]; simpl; [reflexivity|].
  rewrite IH. destruct (eqc x a); reflexivity.
Qed.

Lemma flat_map_flat_map (f g : char -> str) (s : str) :
  flat_map g (flat_map f s) = flat_map (fun x => flat_map g (f x)) s.
Proof.
  induction s as [|x s IH]; simpl; [reflexivity|].
  rewrite flat_map_app, IH. reflexivity.
Qed.

Lemma flat_map_single (s : str) : flat_map (fun x => [x]) s = s.
Proof. induction s as [|x s IH]; simpl; congruence. Qed.

Lemma replace2_single (a b x : char) (rep : str) :
  replace2 a b rep [x] = [x].
Proof. reflexivity. Qed.

Lemma replace2_hit (a b : char) (rep t : str) :
  replace2 a b rep (a :: b :: t) = rep ++ replace2 a b rep t.
Proof. simpl. rewrite !eqc_refl. reflexivity. Qed.

Lemma replace2_skip_head (a b x : char) (rep s : str) :
  x <> a -> replace2 a b rep (x :: s) = x :: replace2 a b rep s.
Proof.
  intros Hx. apply eqc_false in Hx. destruct s as [|y t]; simpl;
    [reflexivity|]. rewrite Hx. reflexivity.
Qed.

Lemma replace2_skip_second (a b x y : char) (rep t : str) :
  y <> b -> replace2 a b rep (x :: y :: t) = x :: replace2 a b rep (y :: t).
Proof.
  intros Hy. apply eqc_false in Hy.
  change (replace2 a b rep (x :: y :: t))
    with (if eqc x a && eqc y b then rep ++ replace2 a b rep t
          else x :: replace2 a b rep (y :: t)).
  rewrite Hy, andb_false_r. reflexivity.
Qed.

#[global] Arguments replace2 : simpl never.

Section UnescapePassProof.

Variables (f f' : char -> str) (b r : char).

Hypothesis classify : forall c, tokenKind f f' b r c.

Lemma unescape_pass (s : str) :
  passSafe f b s ->
  replace2 BS b [r] (flat_map f s) = flat_map f' s.
Proof.
  induction s as [|c s IH]; [reflexivity|].
  intros [Hhead Htail]. specialize (IH Htail).
  cbn [flat_map]. destruct (classify c) as [E E' Hc|k E E' Hk|E E'];
    rewrite E, E'; cbn [app].
  - rewrite replace2_skip_head by assumption. now rewrite IH.
  - rewrite replace2_skip_second by assumption.
    destruct (N.eq_dec k BS) as [->|Hk'].
    + specialize (Hhead E).
      destruct (flat_map f s) as [|x R] eqn:ER.
      * rewrite replace2_single. now rewrite <- IH.
      * rewrite replace2_skip_second by (eapply Hhead; reflexivity).
        now rewrite IH.
    + rewrite replace2_skip_head by assumption. now rewrite IH.
  - rewrite replace2_hit. now rewrite IH.
Qed.

End UnescapePassProof.

Ltac case_char c k :=
  let E := fresh "E" in
  destruct (eqc c k) eqn:E;
  [apply eqc_true in E; subst c | apply eqc_false in E].

Lemma escapeBody_tok (s : str) : escapeBody s = flat_map (tok 0) s.
Proof.
  unfold escapeBody. rewrite !replace1_flat_map, !flat_map_flat_map.
  apply flat_map_ext. intros c. unfold tok.
  case_char c 92%N; [reflexivity|]. simpl.
  case_char c 34%N; [reflexivity|]. simpl.
  case_char c 10%N; [reflexivity|]. simpl.
  case_char c 9%N; [reflexivity|]. simpl.
  case_char c 13%N; [reflexivity|]. simpl. reflexivity.
Qed.

Lemma tok_cases (n : nat) (c : char) :
  (exists k, tok n c = [BS; k])
  \/ (tok n c = [c] /\ (c = BS -> (5 <= n)%nat) /\ (c = DQ -> (4 <= n)%nat)).
Proof.
  unfold tok.
  case_char c 92%N.
  { destruct (n <? 5)%nat eqn:L; [left; eauto|right].
    apply Nat.ltb_ge in L. repeat split; try discriminate; auto. }
  case_char c 34%N.
  { destruct (n <? 4)%nat eqn:L; [left; eauto|right].
    apply Nat.ltb_ge in L. repeat split; try discriminate; auto. }
  case_char c 13%N.
  { destruct (n <? 3)%nat; [left; eauto|right].
    repeat split; discriminate. }
  case_char c 9%N.
  { destruct (n <? 2)%nat; [left; eauto|right].
    repeat split; discriminate. }
  case_char c 10%N.
  { destruct (n <? 1)%nat; [left; eauto|right].
    repeat split; discriminate. }
  right. repeat split; congruence.
Qed.

Lemma tok_double_backslash (n : nat) (c : char) :
  tok n c = [BS; BS] -> c = BS.
Proof.
  unfold tok. case_char c 92%N; [reflexivity|].
  repeat match goal with
         | |- context [if ?x then _ else _] => destruct x
         end; intros H; injection H; congruence.
Qed.

Lemma passSafe_letter (n : nat) (b : char) (s : str) :
  b = 110%N \/ b = 116%N \/ b = 114%N ->
  escapeSafe s = true -> passSafe (tok n) b s.
Proof.
  intros Hb. induction s as [|c s IH]; [constructor|].
  cbn [escapeSafe]. intros H. apply andb_true_iff in H as [H1 H2].
  split; [|apply IH, H2].
  intros Hc x R Hx. apply tok_double_backslash in Hc. subst c.
  destruct s as [|c' s]; [discriminate|].
  rewrite eqc_refl in H1. cbn [andb] in H1. apply negb_true_iff in H1.
  apply orb_false_iff in H1 as [H1 Hr].
  apply orb_false_iff in H1 as [Hn Ht].
  apply eqc_false in Hn, Ht, Hr.
  cbn [flat_map] in Hx.
  destruct (tok_cases n c') as [[k E]|[E _]]; rewrite E in Hx;
    injection Hx as <- _.
  - destruct Hb as [->|[->| ->]]; discriminate.
  - destruct Hb as [->|[->| ->]]; assumption.
Qed.

Lemma passSafe_quote (n : nat) (s : str) :
  (n < 4)%nat -> passSafe (tok n) DQ s.
Proof.
  intros Hn. induction s as [|c s IH]; [constructor|].
  split; [|exact IH]. intros _ x R Hx.
  destruct s as [|c' s]; [discriminate|]. cbn [flat_map] in Hx.
  destruct (tok_cases n c') as [[k E]|[E [_ Hq]]]; rewrite E in Hx;
    injection Hx as <- _.
  - discriminate.
  - intros ->. specialize (Hq eq_refl). lia.
Qed.

Ltac case_char_b c k :=
  let E := fresh "E" in
  destruct (eqc c k) eqn:E; [apply eqc_true in E; subst c | ].

Ltac tok_eval :=
  unfold tok;
  repeat match goal with
         | H : eqc ?c ?k = false |- context [eqc ?c ?k] => rewrite H
         end;
  reflexivity.

Ltac tok_kind :=
  first [eapply tk_undone; tok_eval
        |eapply tk_kept; [tok_eval|tok_eval|discriminate]
        |eapply tk_plain; [tok_eval|tok_eval|discriminate]].

Ltac classify_tok :=
  intros c;
  case_char_b c 92%N; [tok_kind|];
  case_char_b c 34%N; [tok_kind|];
  case_char_b c 13%N; [tok_kind|];
  case_char_b c 9%N; [tok_kind|];
  case_char_b c 10%N; [tok_kind|];
  eapply tk_plain; [tok_eval|tok_eval|apply eqc_false; assumption].

Lemma classify_newline : forall c, tokenKind (tok 0) (tok 1) 110 NL c.
Proof. classify_tok. Qed.

Lemma classify_tab : forall c, tokenKind (tok 1) (tok 2) 116 TAB c.
Proof. classify_tok. Qed.

Lemma classify_return : forall c, tokenKind (tok 2) (tok 3) 114 CR c.
Proof. classify_tok. Qed.

Lemma classify_quote : forall c, tokenKind (tok 3) (tok 4) DQ DQ c.
Proof. classify_tok. Qed.

Lemma tok_last_plain (c : char) : c <> BS -> tok 4 c = [c].
Proof.
  intros Hc. apply eqc_false in Hc. unfold tok. rewrite Hc.
  destruct (eqc c 34), (eqc c 13), (eqc c 9), (eqc c 10); reflexivity.
Qed.

Lemma unescape_backslashes (s : str) :
  replace2 BS BS [BS] (flat_map (tok 4) s) = s.
Proof.
  induction s as [|c s IH]; [reflexivity|]. cbn [flat_map].
  destruct (N.eq_dec c BS) as [->|Hc].
  - change (tok 4 BS) with [BS; BS]. cbn [app].
    rewrite replace2_hit, IH. reflexivity.
  - rewrite tok_last_plain by assumption. cbn [app].
    rewrite replace2_skip_head by assumption. now rewrite IH.
Qed.

(** Unescaping the escaped form of a safe text gives the text back. *)
Lemma unescapeBody_escapeBody (s : str) :
  escapeSafe s = true -> unescapeBody (escapeBody s) = s.
Proof.
  intros Hs. unfold unescapeBody. rewrite escapeBody_tok.
  rewrite (unescape_pass (tok 0) (tok 1) 110 NL classify_newline)
    by (apply passSafe_letter; auto).
  rewrite (unescape_pass (tok 1) (tok 2) 116 TAB classify_tab)
    by (apply passSafe_letter; auto).
  rewrite (unescape_pass (tok 2) (tok 3) 114 CR classify_return)
    by (apply passSafe_letter; auto).
  rewrite (unescape_pass (tok 3) (tok 4) DQ DQ classify_quote)
    by (apply passSafe_quote; lia).
  apply unescape_backslashes.
Qed.

(** ** Quoted strings *)

Lemma forallb_rev (p : char -> bool) (s : str) :
  forallb p (rev s) = forallb p s.
Proof.
  induction s as [|x s IH]; simpl; [reflexivity|].
  rewrite forallb_app, IH. simpl. rewrite andb_true_r. apply andb_comm.
Qed.

Lemma forallb_flat_map (p : char -> bool) (f : char -> str) (s : str) :
  forallb p (flat_map f s) = forallb (fun c => forallb p (f c)) s.
Proof.
  induction s as [|x s IH]; simpl; [reflexivity|].
  rewrite forallb_app, IH. reflexivity.
Qed.

Lemma matchQuoted_quoted (body : str) :
  forallb notTerminator body = true ->
  matchQuoted (DQ :: body ++ [DQ]) = Some body.
Proof.
  intros H. unfold matchQuoted. rewrite eqc_refl, rev_app_distr.
  cbn [rev app]. rewrite eqc_refl. cbn [andb].
  change (fun x => negb (is_line_terminator x)) with notTerminator.
  rewrite forallb_rev, H, rev_involutive. reflexivity.
Qed.

Lemma tok_notTerminator (c : char) :
  negb (eqc c LS || eqc c PS) = true ->
  forallb notTerminator (tok 0 c) = true.
Proof.
  intros H. apply negb_true_iff, orb_false_iff in H as [H1 H2].
  case_char_b c 92%N; [reflexivity|].
  case_char_b c 34%N; [reflexivity|].
  case_char_b c 13%N; [reflexivity|].
  case_char_b c 9%N; [reflexivity|].
  case_char_b c 10%N; [reflexivity|].
  unfold tok. rewrite E, E0, E1, E2, E3. cbn [forallb].
  unfold notTerminator, is_line_terminator. rewrite E1, E3, H1, H2.
  reflexivity.
Qed.

Lemma escapeBody_notTerminator (s : str) :
  noLineSep s = true -> forallb notTerminator (escapeBody s) = true.
Proof.
  unfold noLineSep. intros H. rewrite escapeBody_tok, forallb_flat_map.
  rewrite forallb_forall in *. intros c Hc. apply tok_notTerminator.
  apply H, Hc.
Qed.

(** [extractString] undoes [escapeString] on every text that is safe to
    escape and has no line separator. *)
Lemma extractString_escapeString (s : str) :
  escapeSafe s = true -> noLineSep s = true ->
  extractString (escapeString s) = s.
Proof.
  intros H1 H2. unfold extractString, escapeString. cbn [app].
  rewrite matchQuoted_quoted by (apply escapeBody_notTerminator, H2).
  apply unescapeBody_escapeBody, H1.
Qed.

Lemma replace2_absent (a b : char) (rep s : str) :
  ~ In a s -> replace2 a b rep s = s.
Proof.
  induction s as [|x s IH]; intros H; [reflexivity|].
  rewrite replace2_skip_head by (intros ->; apply H; left; reflexivity).
  rewrite IH; [reflexivity|]. intros Hs. apply H. right. exact Hs.
Qed.

Lemma replace2_prefix (a b : char) (rep p t : str) :
  ~ In a p -> replace2 a b rep (p ++ t) = p ++ replace2 a b rep t.
Proof.
  induction p as [|x p IH]; intros H; [reflexivity|]. cbn [app].
  rewrite replace2_skip_head by (intros ->; apply H; left; reflexivity).
  rewrite IH; [reflexivity|]. intros Hs. apply H. right. exact Hs.
Qed.

Lemma headerSafe_spec (s : str) (x : char) :
  headerSafe s = true -> In x s -> x <> CR /\ x <> LS /\ x <> PS.
Proof.
  unfold headerSafe. intros H Hx. apply andb_true_iff in H as [_ H].
  rewrite forallb_forall in H.
  specialize (H x Hx). apply negb_true_iff in H.
  apply orb_false_iff in H as [H H3]. apply orb_false_iff in H as [H1 H2].
  apply eqc_false in H1, H2, H3. auto.
Qed.

Lemma noEscapePair_noPair (b : char) (s : str) :
  isEscapeCode b = true -> noEscapePair s = true -> noPair BS b s = true.
Proof.
  intros Hb. induction s as [|x s IH]; [reflexivity|].
  cbn [noEscapePair noPair]. intros H. apply andb_true_iff in H as [H1 H2].
  rewrite (IH H2), andb_true_r.
  destruct (eqc x BS); [|reflexivity]. cbn [andb] in *.
  destruct s as [|y s]; [reflexivity|].
  destruct (eqc y b) eqn:E; [|reflexivity].
  apply eqc_true in E. subst y. rewrite Hb in H1. discriminate.
Qed.

Lemma replace2_noPair (a b : char) (rep s : str) :
  noPair a b s = true -> replace2 a b rep s = s.
Proof.
  induction s as [|x s IH]; [reflexivity|]. cbn [noPair]. intros H.
  apply andb_true_iff in H as [H1 H2]. specialize (IH H2).
  destruct s as [|y s]; [reflexivity|].
  destruct (eqc x a) eqn:Ex.
  - cbn [andb] in H1. apply negb_true_iff, eqc_false in H1.
    rewrite replace2_skip_second by assumption. now rewrite IH.
  - apply eqc_false in Ex. rewrite replace2_skip_head by assumption.
    now rewrite IH.
Qed.

(** The only match of a pass is the pair at the end of the text. *)
Lemma replace2_noPair_last (a b : char) (rep p : str) :
  a <> b -> noPair a b p = true ->
  replace2 a b rep (p ++ [a; b]) = p ++ rep.
Proof.
  intros Hab. induction p as [|x p IH].
  - intros _. cbn [app]. rewrite replace2_hit. apply app_nil_r.
  - cbn [noPair app]. intros H. apply andb_true_iff in H as [H1 H2].
    specialize (IH H2). destruct (eqc x a) eqn:Ex.
    + destruct p as [|y p].
      * cbn [app] in *. rewrite replace2_skip_second by assumption.
        now rewrite IH.
      * cbn [andb app] in *. apply negb_true_iff, eqc_false in H1.
        rewrite replace2_skip_second by assumption. now rewrite IH.
    + apply eqc_false in Ex. rewrite replace2_skip_head by assumption.
      now rewrite IH.
Qed.

Lemma noPair_app (a b h : char) (x y : str) :
  h <> b -> noPair a b x = true -> noPair a b (h :: y) = true ->
  noPair a b (x ++ h :: y) = true.
Proof.
  intros Hh. induction x as [|c x IH]; intros Hx Hy; [exact Hy|].
  cbn [noPair] in Hx. apply andb_true_iff in Hx as [H1 H2].
  cbn [app noPair]. rewrite (IH H2 Hy), andb_true_r.
  destruct x as [|c' x]; [|exact H1]. cbn [app].
  apply eqc_false in Hh. rewrite Hh, andb_false_r. reflexivity.
Qed.

Lemma headerLine_text (kv : str * str) :
  headerLine kv = DQ :: (headerText kv ++ [BS; 110%N]) ++ [DQ].
Proof.
  unfold headerLine, headerText. cbn [app].
  rewrite <- !app_assoc. reflexivity.
Qed.

Lemma noPair_headerText (b : char) (kv : str * str) :
  isEscapeCode b = true ->
  headerSafe (fst kv) = true -> headerSafe (snd kv) = true ->
  noPair BS b (headerText kv ++ [NL]) = true.
Proof.
  intros Hb Hk Hv. unfold headerSafe in Hk, Hv.
  apply andb_true_iff in Hk as [Hk _]. apply andb_true_iff in Hv as [Hv _].
  pose proof (noEscapePair_noPair b _ Hb Hk) as Pk.
  pose proof (noEscapePair_noPair b _ Hb Hv) as Pv.
  assert (Hn : NL <> b) by (intros <-; discriminate).
  assert (Hc : COLON <> b) by (intros <-; discriminate).
  unfold headerText. rewrite <- !app_assoc. cbn [app].
  apply noPair_app; [exact Hc|exact Pk|].
  change (noPair BS b (COLON :: SP :: snd kv ++ [NL]))
    with (noPair BS b (snd kv ++ [NL])).
  apply noPair_app; [exact Hn|exact Pv|reflexivity].
Qed.

Lemma noPair_init (a b c : char) (p : str) :
  noPair a b (p ++ [c]) = true -> noPair a b p = true.
Proof.
  induction p as [|x p IH]; [reflexivity|]. cbn [app noPair]. intros H.
  apply andb_true_iff in H as [H1 H2]. rewrite (IH H2), andb_true_r.
  destruct p as [|y p]; [|exact H1].
  destruct (eqc x a); reflexivity.
Qed.

Lemma extractString_headerLine (kv : str * str) :
  headerSafe (fst kv) = true -> headerSafe (snd kv) = true ->
  ~ In NL (fst kv) -> ~ In NL (snd kv) ->
  extractString (headerLine kv) = headerText kv ++ [NL].
Proof.
  intros Hk Hv Nk Nv.
  assert (Hin : forall x, In x (headerText kv) ->
                          is_line_terminator x = false).
  { intros x Hx. unfold headerText in Hx.
    apply in_app_or in Hx as [Hx|Hx].
    - destruct (headerSafe_spec _ x Hk Hx) as (B & C & D).
      unfold is_line_terminator. apply eqc_false in B, C, D.
      assert (E : eqc x 10 = false) by (apply eqc_false; intros ->; auto).
      rewrite B, C, D, E. reflexivity.
    - destruct Hx as [<-|[<-|Hx]]; [reflexivity..|].
      destruct (headerSafe_spec _ x Hv Hx) as (B & C & D).
      unfold is_line_terminator. apply eqc_false in B, C, D.
      assert (E : eqc x 10 = false) by (apply eqc_false; intros ->; auto).
      rewrite B, C, D, E. reflexivity. }
  pose proof (fun b Hb => noPair_headerText b kv Hb Hk Hv) as P.
  rewrite headerLine_text. unfold extractString.
  rewrite matchQuoted_quoted.
  - unfold unescapeBody.
    rewrite replace2_noPair_last
      by (discriminate || exact (noPair_init _ _ _ _ (P 110%N eq_refl))).
    rewrite (replace2_noPair BS 116) by (apply P; reflexivity).
    rewrite (replace2_noPair BS 114) by (apply P; reflexivity).
    rewrite (replace2_noPair BS DQ) by (apply P; reflexivity).
    rewrite (replace2_noPair BS BS) by (apply P; reflexivity).
    reflexivity.
  - rewrite forallb_app. apply andb_true_iff. split; [|reflexivity].
    apply forallb_forall. intros x Hx. unfold notTerminator.
    rewrite (Hin x Hx). reflexivity.
Qed.

(** ** Splitting and joining *)

Lemma split_nonempty (sep : char) (s : str) : split sep s <> [].
Proof.
  induction s as [|c s IH]; simpl; [discriminate|].
  destruct (eqc c sep); [discriminate|].
  destruct (split sep s); [contradiction|discriminate].
Qed.

Lemma split_cons_other (sep c : char) (s : str) :
  c <> sep -> split sep (c :: s) = consHead c (split sep s).
Proof.
  intros H. apply eqc_false in H. simpl. rewrite H.
  destruct (split sep s) eqn:E; [|reflexivity].
  exfalso. exact (split_nonempty _ _ E).
Qed.

Lemma split_cons_sep (sep : char) (s : str) :
  split sep (sep :: s) = [] :: split sep s.
Proof. simpl. rewrite eqc_refl. reflexivity. Qed.

Lemma split_line (sep : char) (l rest : str) :
  ~ In sep l -> split sep (l ++ sep :: rest) = l :: split sep rest.
Proof.
  induction l as [|c l IH]; intros H; cbn [app].
  - apply split_cons_sep.
  - rewrite split_cons_other by (intros ->; apply H; left; reflexivity).
    rewrite IH by (intros Hl; apply H; right; exact Hl). reflexivity.
Qed.

Lemma split_last_line (sep : char) (l : str) :
  ~ In sep l -> split sep l = [l].
Proof.
  induction l as [|c l IH]; intros H; [reflexivity|].
  rewrite split_cons_other by (intros ->; apply H; left; reflexivity).
  rewrite IH by (intros Hl; apply H; right; exact Hl). reflexivity.
Qed.

Lemma split_pieces (sep : char) (s : str) :
  Forall (fun l => ~ In sep l /\ forall x, In x l -> In x s) (split sep s).
Proof.
  induction s as [|c s IH]; simpl.
  - constructor; [|constructor]. split; [tauto|]. intros x [].
  - assert (IH' : Forall (fun l => ~ In sep l
                                   /\ forall x, In x l -> In x (c :: s))
                         (split sep s)).
    { eapply Forall_impl; [|exact IH]. intros l [H1 H2].
      split; [exact H1|]. intros x Hx. right. apply H2, Hx. }
    destruct (eqc c sep) eqn:E.
    + constructor; [|exact IH']. split; [tauto|]. intros x [].
    + apply eqc_false in E. destruct (split sep s) as [|p ps].
      * constructor; [|constructor]. split.
        -- intros [H|[]]. congruence.
        -- intros x [<-|[]]. left. reflexivity.
      * inversion IH' as [|? ? [H1 H2] H3]; subst. constructor; [|exact H3].
        split.
        -- intros [H|H]; [congruence|contradiction].
        -- intros x [<-|Hx]; [left; reflexivity|apply H2, Hx].
Qed.

Lemma join_cons (sep x : str) (rest : list str) :
  rest <> [] -> join sep (x :: rest) = x ++ sep ++ join sep rest.
Proof. destruct rest; [congruence|reflexivity]. Qed.

Lemma join_app (sep : str) (l1 l2 : list str) :
  l1 <> [] -> l2 <> [] ->
  join sep (l1 ++ l2) = join sep l1 ++ sep ++ join sep l2.
Proof.
  induction l1 as [|x l1 IH]; intros H1 H2; [congruence|].
  destruct l1 as [|y l1].
  - cbn [app]. rewrite join_cons by assumption. reflexivity.
  - change ((x :: y :: l1) ++ l2) with (x :: ((y :: l1) ++ l2)).
    rewrite !join_cons by discriminate.
    rewrite IH by (discriminate || assumption).
    rewrite <- !app_assoc. reflexivity.
Qed.

Lemma split_join (lines : list str) :
  lines <> [] -> Forall (fun l => ~ In NL l) lines ->
  split NL (join [NL] lines) = lines.
Proof.
  induction lines as [|l lines IH]; intros Hne H; [congruence|].
  inversion H as [|? ? Hl Hrest]; subst.
  destruct lines as [|l' lines].
  - apply split_last_line, Hl.
  - rewrite join_cons by discriminate. cbn [app].
    rewrite split_line by assumption.
    rewrite IH by (discriminate || assumption). reflexivity.
Qed.

Lemma In_join (sep : str) (lines : list str) (x : char) :
  In x (join sep lines) ->
  In x sep \/ exists l, In l lines /\ In x l.
Proof.
  induction lines as [|l lines IH]; [intros []|].
  destruct lines as [|l' lines].
  - intros H. right. exists l. split; [left; reflexivity|exact H].
  - rewrite join_cons by discriminate. intros H.
    apply in_app_or in H as [H|H].
    + right. exists l. split; [left; reflexivity|exact H].
    + apply in_app_or in H as [H|H]; [left; exact H|].
      destruct (IH H) as [H'|(l0 & H1 & H2)]; [left; exact H'|].
      right. exists l0. split; [right; exact H1|exact H2].
Qed.

(** ** Blocks *)

Lemma startsWith_nil (s : str) : startsWith [] s = true.
Proof. destruct s; reflexivity. Qed.

Lemma splitBlankRuns_other (inrun : bool) (c : char) (t : str) :
  c <> NL ->
  splitBlankRuns inrun (c :: t) = consHead c (splitBlankRuns false t).
Proof.
  intros H. apply eqc_false in H. simpl. rewrite H.
  destruct inrun; reflexivity.
Qed.

Lemma splitBlankRuns_lone (t : str) :
  startsWith [NL] t = false ->
  splitBlankRuns false (NL :: t) = consHead NL (splitBlankRuns false t).
Proof. intros H. simpl. rewrite H. reflexivity. Qed.

Lemma splitBlankRuns_leave (next : str) :
  startsWith [NL] next = false ->
  splitBlankRuns true next = splitBlankRuns false next.
Proof.
  destruct next as [|c t]; [reflexivity|].
  rewrite startsWith_cons, startsWith_nil, andb_true_r. intros H.
  assert (Hc : c <> NL) by (intros ->; discriminate).
  rewrite !splitBlankRuns_other by assumption. reflexivity.
Qed.

Lemma splitBlankRuns_block (a next : str) :
  blockOk a -> startsWith [NL] next = false ->
  splitBlankRuns false (a ++ NL :: NL :: next)
  = a :: splitBlankRuns false next.
Proof.
  intros Ha Hnext. induction a as [|c a IH]; cbn [app].
  - simpl. rewrite splitBlankRuns_leave by assumption. reflexivity.
  - destruct Ha as [Hc Ha]. specialize (IH Ha).
    destruct (N.eq_dec c NL) as [->|Hne].
    + destruct (Hc eq_refl) as [Hs Hne]. destruct a as [|d a]; [congruence|].
      rewrite splitBlankRuns_lone by exact Hs. rewrite IH. reflexivity.
    + rewrite splitBlankRuns_other by assumption. rewrite IH. reflexivity.
Qed.

Lemma splitBlankRuns_last (a : str) :
  blockOk a -> splitBlankRuns false (a ++ [NL]) = [a ++ [NL]].
Proof.
  intros Ha. induction a as [|c a IH]; [reflexivity|]. cbn [app].
  destruct Ha as [Hc Ha]. specialize (IH Ha).
  destruct (N.eq_dec c NL) as [->|Hne].
  - destruct (Hc eq_refl) as [Hs Hne]. destruct a as [|d a]; [congruence|].
    rewrite splitBlankRuns_lone by exact Hs. rewrite IH. reflexivity.
  - rewrite splitBlankRuns_other by assumption. rewrite IH. reflexivity.
Qed.

Lemma lineOk_head (l rest : str) :
  lineOk l -> exists d t, l ++ rest = d :: t /\ d <> NL.
Proof.
  intros [Hne Hnl]. destruct l as [|d l]; [congruence|].
  exists d, (l ++ rest). split; [reflexivity|].
  intros ->. apply Hnl. left. reflexivity.
Qed.

Lemma join_head (l : str) (ls : list str) :
  lineOk l -> exists d t, join [NL] (l :: ls) = d :: t /\ d <> NL.
Proof.
  intros Hl. destruct ls as [|l' ls].
  - destruct (lineOk_head l [] Hl) as (d & t & E & Hd).
    rewrite app_nil_r in E. eauto.
  - rewrite join_cons by discriminate. apply lineOk_head, Hl.
Qed.

Lemma startsWith_newline_head (d : char) (t : str) :
  d <> NL -> startsWith [NL] (d :: t) = false.
Proof.
  intros H. rewrite startsWith_cons.
  assert (E : eqc NL d = false) by (apply eqc_false; congruence).
  rewrite E. reflexivity.
Qed.

Lemma blockOk_app (l rest : str) :
  ~ In NL l -> blockOk rest -> blockOk (l ++ rest).
Proof.
  induction l as [|c l IH]; intros H Hr; [exact Hr|]. cbn [app]. split.
  - intros ->. exfalso. apply H. left. reflexivity.
  - apply IH; [|exact Hr]. intros Hl. apply H. right. exact Hl.
Qed.

Lemma blockOk_join (lines : list str) :
  Forall lineOk lines -> blockOk (join [NL] lines).
Proof.
  induction lines as [|l lines IH]; intros H; [exact I|].
  inversion H as [|? ? Hl Hrest]; subst. specialize (IH Hrest).
  destruct lines as [|l' lines].
  - cbn [join]. rewrite <- (app_nil_r l). apply blockOk_app; [apply Hl|exact I].
  - rewrite join_cons by discriminate. apply blockOk_app; [apply Hl|].
    cbn [app]. split; [|exact IH]. intros _.
    inversion Hrest as [|? ? Hl' _]; subst.
    destruct (join_head l' lines Hl') as (d & t & E & Hd). rewrite E.
    split; [apply startsWith_newline_head, Hd|discriminate].
Qed.

Lemma blocksText_head (b : list str) (rest : list (list str)) :
  blockLinesOk b -> startsWith [NL] (blocksText (b :: rest)) = false.
Proof.
  intros [Hne Hb]. destruct b as [|l ls]; [congruence|].
  inversion Hb as [|? ? Hl _]; subst.
  destruct (join_head l ls Hl) as (d & t & E & Hd).
  destruct rest; cbn [blocksText]; rewrite E; cbn [app];
    apply startsWith_newline_head, Hd.
Qed.

Lemma splitBlocks_blocksText (blocks : list (list str)) :
  blocks <> [] -> Forall blockLinesOk blocks ->
  splitBlocks (blocksText blocks) = blockTexts blocks.
Proof.
  unfold splitBlocks.
  induction blocks as [|b blocks IH]; intros Hne H; [congruence|].
  inversion H as [|? ? Hb Hrest]; subst.
  destruct blocks as [|b' blocks].
  - cbn [blocksText blockTexts]. apply splitBlankRuns_last, blockOk_join, Hb.
  - change (blocksText (b :: b' :: blocks))
      with (join [NL] b ++ NL :: NL :: blocksText (b' :: blocks)).
    change (blockTexts (b :: b' :: blocks))
      with (join [NL] b :: blockTexts (b' :: blocks)).
    rewrite splitBlankRuns_block.
    + rewrite IH by (discriminate || assumption). reflexivity.
    + apply blockOk_join, Hb.
    + inversion Hrest; subst. apply blocksText_head. assumption.
Qed.

Lemma join_blocks (blocks : list (list str)) :
  Forall (fun b => b <> []) blocks ->
  join [NL] (concat (map (fun b => b ++ [[]]) blocks)) = blocksText blocks.
Proof.
  induction blocks as [|b blocks IH]; intros H; [reflexivity|].
  inversion H as [|? ? Hb Hrest]; subst. specialize (IH Hrest).
  cbn [map concat]. destruct blocks as [|b' blocks].
  - cbn [map concat blocksText]. rewrite app_nil_r.
    rewrite join_app by (assumption || discriminate). reflexivity.
  - rewrite <- app_assoc. rewrite join_app.
    + change ([[]] ++ concat (map (fun b0 => b0 ++ [[]]) (b' :: blocks)))
        with ([] :: concat (map (fun b0 => b0 ++ [[]]) (b' :: blocks))).
      rewrite join_cons.
      * rewrite IH. reflexivity.
      * cbn [map concat]. destruct b'; discriminate.
    + assumption.
    + discriminate.
Qed.

(** ** The generated text, block by block *)

Lemma entryLines_block (entry : TranslationEntry) :
  entryLines entry = entryBlock entry ++ [[]].
Proof.
  unfold entryLines, entryBlock. rewrite <- !app_assoc. reflexivity.
Qed.

Lemma join_nested (sep : str) (xs ys zs : list str) :
  xs <> [] -> ys <> [] -> zs <> [] ->
  join sep (xs ++ [join sep ys] ++ zs) = join sep (xs ++ ys ++ zs).
Proof.
  intros Hx Hy Hz.
  rewrite (join_app sep xs) by (assumption || discriminate).
  rewrite (join_app sep xs (ys ++ zs))
    by (assumption || (destruct ys; [congruence|discriminate])).
  rewrite (join_app sep ys zs) by assumption.
  change ([join sep ys] ++ zs) with (join sep ys :: zs).
  rewrite join_cons by assumption. reflexivity.
Qed.

Lemma flat_map_entryLines (es : list TranslationEntry) :
  flat_map entryLines es =
  concat (map (fun b => b ++ [[]]) (map entryBlock es)).
Proof.
  induction es as [|e es IH]; [reflexivity|]. cbn [flat_map map concat].
  rewrite IH, entryLines_block. reflexivity.
Qed.

Lemma entryBlock_nonempty (entry : TranslationEntry) : entryBlock entry <> [].
Proof.
  unfold entryBlock.
  destruct (truthyOpt (comments entry)), (truthyOpt (context entry));
    discriminate.
Qed.

Lemma generatePOFile_blocks (data : ParsedPO) :
  generatePOFile data =
  blocksText (headerBlock (headers data) :: map entryBlock (entries data)).
Proof.
  unfold generatePOFile, generateLines. rewrite flat_map_entryLines.
  rewrite <- join_blocks.
  - cbn [map concat]. unfold headerBlock.
    destruct (headers data) as [|kv hs] eqn:Eh.
    + cbn [map join truthy app]. reflexivity.
    + assert (Ht : truthy (join [NL] (map headerLine (kv :: hs))) = true).
      { cbn [map]. destruct (map headerLine hs); reflexivity. }
      cbv zeta. rewrite Ht.
      rewrite <- !app_assoc.
      apply join_nested; discriminate.
  - constructor; [discriminate|].
    apply Forall_forall. intros b Hb. apply in_map_iff in Hb as (e & <- & _).
    apply entryBlock_nonempty.
Qed.

Lemma replace1_absent (a : char) (rep s : str) :
  ~ In a s -> replace1 a rep s = s.
Proof.
  induction s as [|x s IH]; intros H; [reflexivity|]. simpl.
  assert (E : eqc x a = false).
  { apply eqc_false. intros ->. apply H. left. reflexivity. }
  rewrite E, IH; [reflexivity|]. intros Hs. apply H. right. exact Hs.
Qed.

Lemma normalizeNewlines_id (s : str) :
  ~ In CR s -> normalizeNewlines s = s.
Proof.
  intros H. unfold normalizeNewlines.
  rewrite replace2_absent by assumption. apply replace1_absent, H.
Qed.

Lemma In_blocksText (blocks : list (list str)) (x : char) :
  In x (blocksText blocks) ->
  x = NL \/ exists b l, In b blocks /\ In l b /\ In x l.
Proof.
  induction blocks as [|b blocks IH]; [intros []|].
  assert (Hb : forall y, In y (join [NL] b) ->
                 y = NL \/ exists b0 l, In b0 (b :: blocks) /\ In l b0
                                        /\ In y l).
  { intros y Hy. apply In_join in Hy as [[<-|[]]|(l & H1 & H2)];
      [left; reflexivity|].
    right. exists b, l. repeat split; [left; reflexivity|assumption..]. }
  destruct blocks as [|b' blocks].
  - cbn [blocksText]. intros H. apply in_app_or in H as [H|[<-|[]]];
      [apply Hb, H|left; reflexivity].
  - change (blocksText (b :: b' :: blocks))
      with (join [NL] b ++ NL :: NL :: blocksText (b' :: blocks)).
    intros H. apply in_app_or in H as [H|[<-|[<-|H]]];
      [apply Hb, H|left; reflexivity..|].
    destruct (IH H) as [->|(b0 & l & H1 & H2 & H3)]; [left; reflexivity|].
    right. exists b0, l. repeat split; [right; assumption|assumption..].
Qed.

(** ** Parsing the generated lines *)

Lemma parseLine_empty (st : BlockState) : parseLine st [] = st.
Proof. reflexivity. Qed.

Lemma parseLine_title (st : BlockState) : parseLine st kw_title = st.
Proof. reflexivity. Qed.

Lemma parseLine_msgid_empty (st : BlockState) :
  parseLine st (kw_msgid ++ [DQ; DQ]) =
  mkBlock [] (b_msgstr st) (b_context st) (b_comments st) (Some FMsgid).
Proof. reflexivity. Qed.

Lemma parseLine_msgstr_empty (st : BlockState) :
  parseLine st (kw_msgstr ++ [DQ; DQ]) =
  mkBlock (b_msgid st) [] (b_context st) (b_comments st) (Some FMsgstr).
Proof. reflexivity. Qed.

Lemma trim_keyword_line (c : char) (p y : str) :
  is_ws c = false ->
  trim ((c :: p) ++ escapeString y) = (c :: p) ++ escapeString y.
Proof.
  intros Hc. unfold escapeString.
  replace ((c :: p) ++ [DQ] ++ escapeBody y ++ [DQ])
    with (c :: (p ++ [DQ] ++ escapeBody y) ++ [DQ])
    by (cbn [app]; rewrite <- !app_assoc; reflexivity).
  apply trim_ends; [exact Hc|reflexivity].
Qed.

Lemma parseLine_msgctxt (st : BlockState) (y : str) :
  parseLine st (kw_msgctxt ++ escapeString y) =
  mkBlock (b_msgid st) (b_msgstr st) (Some (extractString (escapeString y)))
          (b_comments st) (Some FMsgctxt).
Proof.
  assert (E : trim (kw_msgctxt ++ escapeString y) = kw_msgctxt ++ escapeString y)
    by (apply (trim_keyword_line 109 _ y); reflexivity).
  unfold parseLine. cbv zeta. rewrite E. reflexivity.
Qed.

Lemma parseLine_msgid (st : BlockState) (y : str) :
  parseLine st (kw_msgid ++ escapeString y) =
  mkBlock (extractString (escapeString y)) (b_msgstr st) (b_context st)
          (b_comments st) (Some FMsgid).
Proof.
  assert (E : trim (kw_msgid ++ escapeString y) = kw_msgid ++ escapeString y)
    by (apply (trim_keyword_line 109 _ y); reflexivity).
  unfold parseLine. cbv zeta. rewrite E. reflexivity.
Qed.

Lemma parseLine_msgstr (st : BlockState) (y : str) :
  parseLine st (kw_msgstr ++ escapeString y) =
  mkBlock (b_msgid st) (extractString (escapeString y)) (b_context st)
          (b_comments st) (Some FMsgstr).
Proof.
  assert (E : trim (kw_msgstr ++ escapeString y) = kw_msgstr ++ escapeString y)
    by (apply (trim_keyword_line 109 _ y); reflexivity).
  unfold parseLine. cbv zeta. rewrite E. reflexivity.
Qed.

Lemma parseLine_comment (st : BlockState) (c : str) :
  trimmed c -> c <> [] ->
  parseLine st (kw_comment ++ c) =
  mkBlock (b_msgid st) (b_msgstr st) (b_context st)
          (b_comments st ++ c ++ [SP]) (b_currentField st).
Proof.
  intros Ht Hne. destruct (trimmed_snoc c Ht Hne) as (m & d & -> & Hd).
  assert (E : trim (kw_comment ++ m ++ [d]) = kw_comment ++ m ++ [d]).
  { change (kw_comment ++ m ++ [d]) with (HASH :: ([46%N; SP] ++ m) ++ [d]).
    apply trim_ends; [reflexivity|exact Hd]. }
  assert (P : parseLine st (kw_comment ++ m ++ [d])
              = addComment st (kw_comment ++ m ++ [d])).
  { unfold parseLine. cbv zeta. rewrite E. reflexivity. }
  rewrite P. unfold addComment.
  change (sliceFrom 2 (kw_comment ++ m ++ [d])) with (SP :: m ++ [d]).
  rewrite trim_space_trimmed by assumption. reflexivity.
Qed.

Lemma endsWith_snoc (d : char) (s : str) : endsWith [d] (s ++ [d]) = true.
Proof.
  unfold endsWith. rewrite rev_app_distr. cbn [rev app].
  rewrite startsWith_cons, eqc_refl, startsWith_nil. reflexivity.
Qed.

Lemma parseLine_quoted (st : BlockState) (body : str) :
  parseLine st (DQ :: body ++ [DQ]) =
  continueField st (extractString (DQ :: body ++ [DQ])).
Proof.
  unfold parseLine. cbv zeta. rewrite trim_ends by reflexivity.
  change (DQ :: body ++ [DQ]) with ((DQ :: body) ++ [DQ]).
  rewrite endsWith_snoc. reflexivity.
Qed.

Lemma parseLine_headerLine (st : BlockState) (kv : str * str) :
  headerSafe (fst kv) = true -> headerSafe (snd kv) = true ->
  ~ In NL (fst kv) -> ~ In NL (snd kv) ->
  b_currentField st = Some FMsgstr ->
  parseLine st (headerLine kv) =
  mkBlock (b_msgid st) (b_msgstr st ++ headerText kv ++ [NL]) (b_context st)
          (b_comments st) (Some FMsgstr).
Proof.
  intros H1 H2 H3 H4 Hf.
  rewrite <- (extractString_headerLine kv) by assumption.
  rewrite headerLine_text, parseLine_quoted.
  unfold continueField. rewrite Hf. reflexivity.
Qed.

(** ** Parsing the generated blocks *)

Lemma rawOf_join (b : list str) :
  blockLinesOk b -> rawOf (join [NL] b) = rawOfLines b.
Proof.
  intros [Hne Hb]. unfold rawOf, rawOfLines. rewrite split_join;
    [reflexivity|exact Hne|].
  eapply Forall_impl; [|exact Hb]. intros l [_ H]. exact H.
Qed.

Lemma rawOf_join_newline (b : list str) :
  blockLinesOk b -> rawOf (join [NL] b ++ [NL]) = rawOfLines b.
Proof.
  intros [Hne Hb]. unfold rawOf, rawOfLines.
  replace (join [NL] b ++ [NL]) with (join [NL] (b ++ [[]])).
  - rewrite split_join.
    + rewrite fold_left_app. cbn [fold_left]. rewrite parseLine_empty.
      reflexivity.
    + destruct b; discriminate.
    + apply Forall_app. split.
      * eapply Forall_impl; [|exact Hb]. intros l [_ H]. exact H.
      * constructor; [intros []|constructor].
  - rewrite join_app by (assumption || discriminate).
    cbn [join]. rewrite app_nil_r. reflexivity.
Qed.

Lemma nonBlank_cons (c : char) (s : str) :
  is_ws c = false -> nonBlank (c :: s) = true.
Proof. intros H. unfold nonBlank. rewrite trim_cons by exact H. reflexivity. Qed.

Lemma processBlock_processRaw (acc : ParsedPO) (block : str) :
  nonBlank block = true ->
  processBlock acc block = processRaw acc (rawOf block).
Proof.
  intros H. unfold processRaw. destruct (isHeaderRaw (rawOf block)) eqn:E.
  - apply processBlock_header; assumption.
  - apply processBlock_entry; assumption.
Qed.

Lemma join_first (c : char) (l : str) (ls : list str) :
  exists t, join [NL] ((c :: l) :: ls) = c :: t.
Proof.
  destruct ls as [|l' ls]; [exists l; reflexivity|].
  rewrite join_cons by discriminate. eexists. reflexivity.
Qed.

Lemma processBlock_join (acc : ParsedPO) (b : list str) :
  blockGood b ->
  processBlock acc (join [NL] b) = processRaw acc (rawOfLines b).
Proof.
  intros [Hok (c & l & ls & -> & Hc)].
  destruct (join_first c l ls) as [t Et].
  rewrite processBlock_processRaw by (rewrite Et; apply nonBlank_cons, Hc).
  rewrite rawOf_join by assumption. reflexivity.
Qed.

Lemma processBlock_join_newline (acc : ParsedPO) (b : list str) :
  blockGood b ->
  processBlock acc (join [NL] b ++ [NL]) = processRaw acc (rawOfLines b).
Proof.
  intros [Hok (c & l & ls & -> & Hc)].
  destruct (join_first c l ls) as [t Et].
  rewrite processBlock_processRaw
    by (rewrite Et; cbn [app]; apply nonBlank_cons, Hc).
  rewrite rawOf_join_newline by assumption. reflexivity.
Qed.

Lemma fold_blockTexts (blocks : list (list str)) (acc : ParsedPO) :
  Forall blockGood blocks ->
  fold_left processBlock (blockTexts blocks) acc =
  fold_left (fun a b => processRaw a (rawOfLines b)) blocks acc.
Proof.
  revert acc. induction blocks as [|b blocks IH]; intros acc H;
    [reflexivity|].
  inversion H as [|? ? Hb Hrest]; subst.
  destruct blocks as [|b' blocks].
  - cbn [blockTexts fold_left]. rewrite processBlock_join_newline by assumption.
    reflexivity.
  - change (blockTexts (b :: b' :: blocks))
      with (join [NL] b :: blockTexts (b' :: blocks)).
    cbn [fold_left]. rewrite processBlock_join by assumption.
    apply IH. assumption.
Qed.

(** ** The header block read back *)

Lemma indexOf_found (c : char) (p r : str) :
  ~ In c p -> indexOf c (p ++ c :: r) = Z.of_nat (length p).
Proof.
  induction p as [|x p IH]; intros H.
  - simpl. rewrite eqc_refl. reflexivity.
  - cbn [app indexOf].
    assert (E : eqc x c = false).
    { apply eqc_false. intros ->. apply H. left. reflexivity. }
    rewrite E, IH by (intros Hp; apply H; right; exact Hp).
    cbv zeta. destruct (Z.ltb_spec (Z.of_nat (length p)) 0); [lia|].
    cbn [length]. lia.
Qed.

Lemma parseHeaderLine_headerText (hs : Headers) (kv : str * str) :
  headerWf kv -> parseHeaderLine hs (headerText kv) = setPair hs kv.
Proof.
  intros W. destruct kv as [k v]. destruct W; cbn [fst snd] in *.
  unfold parseHeaderLine, headerText, setPair. cbn [fst snd app]. cbv zeta.
  rewrite indexOf_found by assumption.
  assert (L : (0 < length k)%nat) by (destruct k; [congruence|simpl; lia]).
  destruct (Z.gtb_spec (Z.of_nat (length k)) 0); [|lia].
  unfold sliceTo, sliceFrom. rewrite Nat2Z.id.
  replace (Z.to_nat (Z.of_nat (length k) + 1)) with (length k + 1)%nat by lia.
  rewrite firstn_app, Nat.sub_diag, firstn_all. cbn [firstn].
  rewrite app_nil_r, trim_trimmed by assumption.
  rewrite skipn_app. rewrite skipn_all2 by lia.
  replace (length k + 1 - length k)%nat with 1%nat by lia.
  cbn [skipn app]. rewrite trim_space_trimmed by assumption. reflexivity.
Qed.

Lemma headerText_newline (kv : str * str) :
  headerWf kv -> ~ In NL (headerText kv).
Proof.
  intros W H. unfold headerText in H.
  apply in_app_or in H as [H|[H|[H|H]]]; try discriminate.
  - exact (hw_key_newline _ W H).
  - exact (hw_value_newline _ W H).
Qed.

Lemma split_headersText (hs : Headers) :
  Forall headerWf hs ->
  split NL (headersText hs) = map headerText hs ++ [[]].
Proof.
  induction hs as [|kv hs IH]; intros H; [reflexivity|].
  inversion H as [|? ? W Hrest]; subst.
  unfold headersText. cbn [map concat]. rewrite <- app_assoc. cbn [app].
  rewrite split_line by (apply headerText_newline, W).
  fold (headersText hs). rewrite IH by assumption. reflexivity.
Qed.

Lemma parseHeaders_headersText (hs acc : Headers) :
  Forall headerWf hs ->
  parseHeaders (headersText hs) acc = fold_left setPair hs acc.
Proof.
  intros H. unfold parseHeaders. rewrite split_headersText by assumption.
  rewrite fold_left_app. cbn [fold_left].
  assert (E : forall a, fold_left parseHeaderLine (map headerText hs) a
                        = fold_left setPair hs a).
  { induction H as [|kv hs W Hrest IH]; intros a; [reflexivity|].
    cbn [map fold_left]. rewrite parseHeaderLine_headerText by assumption.
    apply IH. }
  rewrite E. reflexivity.
Qed.

Lemma fold_headerLines (hs : Headers) (acc : str) :
  Forall headerWf hs ->
  fold_left parseLine (map headerLine hs)
            (mkBlock [] acc None [] (Some FMsgstr))
  = mkBlock [] (acc ++ headersText hs) None [] (Some FMsgstr).
Proof.
  intros H. revert acc.
  induction H as [|kv hs W Hrest IH]; intros acc.
  - cbn [map fold_left]. unfold headersText. cbn [map concat].
    rewrite app_nil_r. reflexivity.
  - cbn [map fold_left]. destruct W.
    rewrite parseLine_headerLine by (assumption || reflexivity).
    cbn [b_msgid b_msgstr b_context b_comments]. rewrite IH.
    unfold headersText. cbn [map concat]. rewrite <- !app_assoc.
    reflexivity.
Qed.

Lemma rawOfLines_headerBlock (hs : Headers) :
  Forall headerWf hs ->
  rawOfLines (headerBlock hs) = mkRaw [] (headersText hs) None None.
Proof.
  intros H. unfold rawOfLines, headerBlock. rewrite fold_left_app.
  cbn [fold_left]. rewrite parseLine_title, parseLine_msgid_empty,
    parseLine_msgstr_empty.
  cbn [initBlock b_msgid b_msgstr b_context b_comments].
  rewrite fold_headerLines by assumption. reflexivity.
Qed.

(** ** The entry blocks read back *)

Lemma clean_app (a b : str) : clean a -> clean b -> clean (a ++ b).
Proof.
  intros Ha Hb x Hx. apply in_app_or in Hx as [Hx|Hx]; auto.
Qed.

Lemma clean_forallb (l : str) :
  forallb (fun x => negb (eqc x NL || eqc x CR)) l = true -> clean l.
Proof.
  rewrite forallb_forall. intros H x Hx. specialize (H x Hx).
  apply negb_true_iff, orb_false_iff in H as [H1 H2].
  apply eqc_false in H1, H2. auto.
Qed.

Lemma clean_notTerminator (l : str) :
  forallb notTerminator l = true -> clean l.
Proof.
  rewrite forallb_forall. intros H x Hx. specialize (H x Hx).
  unfold notTerminator, is_line_terminator in H.
  apply negb_true_iff in H.
  apply orb_false_iff in H as [H _]. apply orb_false_iff in H as [H _].
  apply orb_false_iff in H as [H1 H2]. apply eqc_false in H1, H2. auto.
Qed.

Lemma clean_escapeString (y : str) :
  noLineSep y = true -> clean (escapeString y).
Proof.
  intros H. unfold escapeString.
  apply clean_app; [apply clean_forallb; reflexivity|].
  apply clean_app; [|apply clean_forallb; reflexivity].
  apply clean_notTerminator, escapeBody_notTerminator, H.
Qed.

Lemma clean_not_newline (l : str) : clean l -> ~ In NL l.
Proof. intros H Hx. destruct (H _ Hx) as [E _]. congruence. Qed.

Lemma clean_not_return (l : str) : clean l -> ~ In CR l.
Proof. intros H Hx. destruct (H _ Hx) as [_ E]. congruence. Qed.

Lemma lineFine_ok (l : str) : lineFine l -> lineOk l.
Proof. intros [H1 H2]. split; [exact H1|apply clean_not_newline, H2]. Qed.

Lemma lineFine_keyword (kw y : str) :
  kw <> [] -> clean kw -> noLineSep y = true ->
  lineFine (kw ++ escapeString y).
Proof.
  intros Hne Hkw Hy. split.
  - destruct kw; [congruence|discriminate].
  - apply clean_app; [exact Hkw|apply clean_escapeString, Hy].
Qed.

Lemma clean_headerLine (kv : str * str) :
  headerWf kv -> lineFine (headerLine kv).
Proof.
  intros W. split; [discriminate|]. unfold headerLine.
  assert (Hk : clean (fst kv)).
  { intros x Hx. split.
    - intros ->. exact (hw_key_newline _ W Hx).
    - destruct (headerSafe_spec _ x (hw_key_safe _ W) Hx) as (H & _).
      exact H. }
  assert (Hv : clean (snd kv)).
  { intros x Hx. split.
    - intros ->. exact (hw_value_newline _ W Hx).
    - destruct (headerSafe_spec _ x (hw_value_safe _ W) Hx) as (H & _).
      exact H. }
  repeat apply clean_app; try assumption; apply clean_forallb; reflexivity.
Qed.

Lemma truthy_nonempty (s : str) : s <> [] -> truthy s = true.
Proof. destruct s; [congruence|reflexivity]. Qed.

Lemma finishComments_line (c : str) :
  trimmed c -> c <> [] -> finishComments (c ++ [SP]) = Some c.
Proof.
  intros Ht Hne. unfold finishComments. cbv zeta.
  rewrite trim_trimmed_space by assumption.
  rewrite truthy_nonempty by assumption. reflexivity.
Qed.

Lemma rawOfLines_entryBlock (e : TranslationEntry) :
  entryWf e ->
  rawOfLines (entryBlock e) =
  mkRaw (msgid e) (msgstr e) (context e) (comments e).
Proof.
  intros W. destruct W as [_ _ _ Hc Hx [Hi1 Hi2] [Hs1 Hs2] [Hx1 Hx2]].
  unfold rawOfLines, entryBlock.
  destruct (comments e) as [c|] eqn:Ec; destruct (context e) as [x|] eqn:Ex;
    cbn [truthyOpt orEmpty] in *.
  - destruct (Hc c eq_refl) as (Hne & Ht & _).
    assert (Hxne : x <> []) by (intros ->; apply Hx; reflexivity).
    rewrite !truthy_nonempty by assumption. cbn [app fold_left].
    rewrite parseLine_comment by assumption.
    rewrite parseLine_msgctxt, parseLine_msgid, parseLine_msgstr.
    rewrite !extractString_escapeString by assumption.
    unfold finishBlock. cbn [b_msgid b_msgstr b_context b_comments initBlock].
    cbn [app]. rewrite finishComments_line by assumption. reflexivity.
  - destruct (Hc c eq_refl) as (Hne & Ht & _).
    rewrite !truthy_nonempty by assumption. cbn [app fold_left].
    rewrite parseLine_comment by assumption.
    rewrite parseLine_msgid, parseLine_msgstr.
    rewrite !extractString_escapeString by assumption.
    unfold finishBlock. cbn [b_msgid b_msgstr b_context b_comments initBlock].
    cbn [app]. rewrite finishComments_line by assumption. reflexivity.
  - assert (Hxne : x <> []) by (intros ->; apply Hx; reflexivity).
    rewrite !truthy_nonempty by assumption. cbn [app fold_left].
    rewrite parseLine_msgctxt, parseLine_msgid, parseLine_msgstr.
    rewrite !extractString_escapeString by assumption.
    reflexivity.
  - cbn [app fold_left].
    rewrite parseLine_msgid, parseLine_msgstr.
    rewrite !extractString_escapeString by assumption.
    reflexivity.
Qed.

Lemma processRaw_entry (acc : ParsedPO) (e : TranslationEntry) :
  entryWf e ->
  processRaw acc (rawOfLines (entryBlock e)) =
  mkPO (headers acc) (entries acc ++ [e]).
Proof.
  intros W. rewrite rawOfLines_entryBlock by assumption.
  unfold processRaw, isHeaderRaw. cbn [r_msgid].
  rewrite (proj2 (eqs_false _ _) (ew_msgid _ W)).
  unfold entryOfRaw. cbn [r_msgid r_msgstr r_context r_comments].
  rewrite <- (ew_id _ W), <- (ew_status _ W). destruct e; reflexivity.
Qed.

Lemma fold_entryBlocks (es : list TranslationEntry) (acc : ParsedPO) :
  Forall entryWf es ->
  fold_left (fun a b => processRaw a (rawOfLines b)) (map entryBlock es) acc
  = mkPO (headers acc) (entries acc ++ es).
Proof.
  intros H. revert acc. induction H as [|e es W Hrest IH]; intros acc.
  - cbn [map fold_left]. rewrite app_nil_r. destruct acc; reflexivity.
  - cbn [map fold_left]. rewrite processRaw_entry by assumption.
    rewrite IH. cbn [headers entries]. rewrite <- app_assoc. reflexivity.
Qed.

Lemma headerBlock_fine (hs : Headers) :
  Forall headerWf hs -> Forall lineFine (headerBlock hs).
Proof.
  intros H. unfold headerBlock. apply Forall_app. split.
  - repeat (apply Forall_cons;
            [split; [discriminate|apply clean_forallb; reflexivity]|]).
    apply Forall_nil.
  - apply Forall_forall. intros l Hl. apply in_map_iff in Hl as (kv & <- & Hk).
    apply clean_headerLine. rewrite Forall_forall in H. apply H, Hk.
Qed.

Lemma entryBlock_fine (e : TranslationEntry) :
  entryWf e -> Forall lineFine (entryBlock e).
Proof.
  intros W. destruct W as [_ _ _ Hc Hx [Hi1 Hi2] [Hs1 Hs2] [Hx1 Hx2]].
  unfold entryBlock. apply Forall_app. split; [|apply Forall_app; split].
  - destruct (comments e) as [c|]; cbn [truthyOpt orEmpty];
      [|constructor].
    destruct (truthy c); constructor; [|constructor].
    destruct (Hc c eq_refl) as (_ & _ & Hcl). split; [discriminate|].
    apply clean_app; [apply clean_forallb; reflexivity|exact Hcl].
  - destruct (truthyOpt (context e)); constructor; [|constructor].
    apply lineFine_keyword; [discriminate|apply clean_forallb; reflexivity|].
    assumption.
  - constructor; [|constructor; [|constructor]];
      (apply lineFine_keyword;
       [discriminate|apply clean_forallb; reflexivity|assumption]).
Qed.

Lemma blockGood_fine (b : list str) (c : char) (l : str) (ls : list str) :
  Forall lineFine b -> b = (c :: l) :: ls -> is_ws c = false -> blockGood b.
Proof.
  intros H E Hc. split.
  - split; [rewrite E; discriminate|].
    eapply Forall_impl; [|exact H]. apply lineFine_ok.
  - exists c, l, ls. split; assumption.
Qed.

Lemma headerBlock_good (hs : Headers) :
  Forall headerWf hs -> blockGood (headerBlock hs).
Proof.
  intros H. eapply blockGood_fine; [apply headerBlock_fine, H| |];
    reflexivity.
Qed.

Lemma entryBlock_good (e : TranslationEntry) :
  entryWf e -> blockGood (entryBlock e).
Proof.
  intros W. pose proof (entryBlock_fine e W) as F. revert F.
  unfold entryBlock.
  destruct (truthyOpt (comments e)), (truthyOpt (context e)); intros F;
    (eapply blockGood_fine; [exact F|reflexivity|reflexivity]).
Qed.

(** ** Round trip of a well-formed catalog *)

Lemma generatePOFile_no_return (data : ParsedPO) :
  Forall headerWf (headers data) -> Forall entryWf (entries data) ->
  ~ In CR (generatePOFile data).
Proof.
  intros Hh He H. rewrite generatePOFile_blocks in H.
  apply In_blocksText in H as [H|(b & l & Hb & Hl & Hx)]; [discriminate|].
  assert (F : Forall lineFine b).
  { destruct Hb as [<-|Hb]; [apply headerBlock_fine, Hh|].
    apply in_map_iff in Hb as (e & <- & Hin). apply entryBlock_fine.
    rewrite Forall_forall in He. apply He, Hin. }
  rewrite Forall_forall in F. destruct (F l Hl) as [_ Hc].
  exact (clean_not_return l Hc Hx).
Qed.

Lemma generated_blocks_good (data : ParsedPO) :
  Forall headerWf (headers data) -> Forall entryWf (entries data) ->
  Forall blockGood (headerBlock (headers data)
                    :: map entryBlock (entries data)).
Proof.
  intros Hh He. constructor; [apply headerBlock_good, Hh|].
  apply Forall_forall. intros b Hb. apply in_map_iff in Hb as (e & <- & Hin).
  apply entryBlock_good. rewrite Forall_forall in He. apply He, Hin.
Qed.

Theorem roundtrip_wellformed (data : ParsedPO) :
  Forall headerWf (headers data) -> canonical (headers data) ->
  Forall entryWf (entries data) ->
  parsePOFile (generatePOFile data) = data.
Proof.
  intros Hh Hc He. unfold parsePOFile.
  rewrite normalizeNewlines_id by (apply generatePOFile_no_return; assumption).
  pose proof (generated_blocks_good data Hh He) as G.
  rewrite generatePOFile_blocks, splitBlocks_blocksText.
  - rewrite fold_blockTexts by assumption. cbn [fold_left].
    rewrite rawOfLines_headerBlock by assumption.
    unfold processRaw at 2. cbn [isHeaderRaw r_msgid eqs r_msgstr].
    rewrite parseHeaders_headersText by assumption.
    rewrite fold_entryBlocks by assumption.
    cbn [headers entries emptyPO app]. rewrite Hc. destruct data; reflexivity.
  - discriminate.
  - eapply Forall_impl; [|exact G]. intros b [H _]. exact H.
Qed.

(** ** Array indices *)

Lemma digitsValue_snoc (s : str) (c : char) :
  digitsValue (s ++ [c]) = (10 * digitsValue s + (c - 48))%N.
Proof. unfold digitsValue. rewrite fold_left_app. reflexivity. Qed.

Lemma is_digit_range (c : char) :
  is_digit c = true -> (48 <= c /\ c <= 57)%N.
Proof.
  unfold is_digit. intros H. apply andb_true_iff in H as [H1 H2].
  apply N.leb_le in H1, H2. auto.
Qed.

Lemma numeral_prefix (s : str) (c : char) :
  numeral (s ++ [c]) -> numeral s /\ is_digit c = true.
Proof.
  intros [H1 H2]. rewrite forallb_app in H1.
  apply andb_true_iff in H1 as [H1 H3]. split; [split|].
  - exact H1.
  - intros d t ->. apply (H2 d (t ++ [c])). reflexivity.
  - simpl in H3. rewrite andb_true_r in H3. exact H3.
Qed.

Lemma fold_digitStep_ge (s : str) (a : N) :
  (a <= fold_left digitStep s a)%N.
Proof.
  revert a. induction s as [|c s IH]; intros a; simpl; [lia|].
  specialize (IH (digitStep a c)). unfold digitStep in *. lia.
Qed.

Lemma numeral_positive (s : str) :
  numeral s -> s <> [] -> (0 < digitsValue s)%N.
Proof.
  intros [H1 H2] Hne. destruct s as [|c t]; [congruence|].
  specialize (H2 c t eq_refl). simpl in H1.
  apply andb_true_iff in H1 as [Hc _]. apply is_digit_range in Hc.
  unfold digitsValue. cbn [fold_left].
  pose proof (fold_digitStep_ge t (digitStep 0 c)) as G.
  assert (P : (1 <= digitStep 0 c)%N) by (unfold digitStep; lia).
  lia.
Qed.

Lemma numeral_inj (s1 s2 : str) :
  numeral s1 -> numeral s2 -> digitsValue s1 = digitsValue s2 -> s1 = s2.
Proof.
  revert s2. induction s1 as [|c1 s1 IH] using rev_ind; intros s2 N1 N2 E.
  - destruct s2 as [|c t]; [reflexivity|].
    pose proof (numeral_positive (c :: t) N2 ltac:(discriminate)) as P.
    rewrite <- E in P. exfalso. revert P. cbv. discriminate.
  - destruct s2 as [|c2 s2 _] using rev_ind.
    + pose proof (numeral_positive (s1 ++ [c1]) N1
                    ltac:(destruct s1; discriminate)) as P.
      rewrite E in P. exfalso. revert P. cbv. discriminate.
    + apply numeral_prefix in N1 as [N1 D1].
      apply numeral_prefix in N2 as [N2 D2].
      apply is_digit_range in D1, D2.
      rewrite !digitsValue_snoc in E.
      assert (E1 : digitsValue s1 = digitsValue s2) by lia.
      assert (E2 : c1 = c2) by lia.
      rewrite (IH s2 N1 N2 E1), E2. reflexivity.
Qed.

Lemma arrayIndex_canonical (k : str) (n : N) :
  arrayIndex k = Some n ->
  n = digitsValue k /\ (numeral k /\ k <> [] \/ k = [48%N]).
Proof.
  unfold arrayIndex. destruct k as [|c t]; [discriminate|].
  destruct (forallb is_digit (c :: t)) eqn:Hd; [|discriminate].
  cbn [andb].
  destruct (negb (eqc c 48) || match t with [] => true | _ => false end)
    eqn:Hz; [|discriminate].
  cbn [andb]. destruct (digitsValue (c :: t) <=? 4294967294)%N; [|discriminate].
  intros H. injection H as <-. split; [reflexivity|].
  destruct (eqc c 48) eqn:Hc.
  - apply eqc_true in Hc. subst c. cbn [negb orb] in Hz.
    destruct t; [right; reflexivity|discriminate].
  - left. split; [|discriminate]. split; [exact Hd|].
    intros d u E. injection E as <- _. apply eqc_false. exact Hc.
Qed.

(** Two keys that are the same array index are the same string. *)
Lemma arrayIndex_inj (k1 k2 : str) (n : N) :
  arrayIndex k1 = Some n -> arrayIndex k2 = Some n -> k1 = k2.
Proof.
  intros H1 H2.
  apply arrayIndex_canonical in H1 as [E1 C1].
  apply arrayIndex_canonical in H2 as [E2 C2].
  destruct C1 as [[N1 Z1]| ->], C2 as [[N2 Z2]| ->].
  - apply numeral_inj; congruence.
  - pose proof (numeral_positive k1 N1 Z1) as P. rewrite <- E1, E2 in P.
    exfalso. revert P. cbv. discriminate.
  - pose proof (numeral_positive k2 N2 Z2) as P. rewrite <- E2, E1 in P.
    exfalso. revert P. cbv. discriminate.
  - reflexivity.
Qed.

(** ** The order of the properties of an object *)

Lemma objGet_None (k : str) (o : Headers) :
  objGet k o = None <-> ~ In k (keys o).
Proof.
  induction o as [|[k1 v1] o IH]; simpl; [tauto|].
  destruct (eqs_reflect k1 k).
  - split; [discriminate|]. intros H. exfalso. apply H. left. exact e.
  - rewrite IH. tauto.
Qed.

Lemma keys_objUpdate (k v : str) (o : Headers) :
  keys (objUpdate k v o) = keys o.
Proof.
  induction o as [|[k1 v1] o IH]; simpl; [reflexivity|].
  destruct (eqs k1 k); simpl; [reflexivity|]. rewrite IH. reflexivity.
Qed.

Lemma In_keys_insert (n : N) (k v k' : str) (o : Headers) :
  In k' (keys (objInsertIndex n k v o)) <-> k' = k \/ In k' (keys o).
Proof.
  induction o as [|[k1 v1] o IH]; simpl; [intuition congruence|].
  destruct (arrayIndex k1) as [a|]; [destruct (a <? n)%N|]; simpl;
    try rewrite IH; intuition congruence.
Qed.

Lemma NoDup_insert (n : N) (k v : str) (o : Headers) :
  ~ In k (keys o) -> NoDup (keys o) ->
  NoDup (keys (objInsertIndex n k v o)).
Proof.
  induction o as [|[k1 v1] o IH]; simpl; intros Hk Hn.
  - constructor; [tauto|constructor].
  - inversion Hn as [|? ? H1 H2]; subst.
    assert (G : NoDup (k :: k1 :: keys o)) by (constructor; assumption).
    destruct (arrayIndex k1) as [a|]; [destruct (a <? n)%N|]; simpl;
      try exact G.
    constructor.
    + rewrite In_keys_insert. intros [->|H]; tauto.
    + apply IH; tauto.
Qed.

Lemma keyLt_plain (k0 k : str) : arrayIndex k = None -> keyLt k0 k.
Proof. unfold keyLt. intros ->. destruct (arrayIndex k0); exact I. Qed.

Lemma keysOrdered_insert (n : N) (k v : str) (o : Headers) :
  arrayIndex k = Some n -> ~ In k (keys o) -> keysOrdered (keys o) ->
  keysOrdered (keys (objInsertIndex n k v o)).
Proof.
  intros Hn. induction o as [|[k1 v1] o IH]; simpl; intros Hk Ho.
  - split; [intros k' []|exact I].
  - destruct Ho as [H1 H2].
    destruct (arrayIndex k1) as [a|] eqn:E1.
    + destruct (N.ltb_spec a n) as [L|L]; simpl.
      * split.
        -- intros k' Hk'. apply In_keys_insert in Hk' as [->|Hk'].
           ++ unfold keyLt. rewrite E1, Hn. exact L.
           ++ apply H1, Hk'.
        -- apply IH; tauto.
      * assert (L' : (n < a)%N).
        { destruct (N.eq_dec a n) as [->|Hne]; [|lia].
          exfalso. apply Hk. left. exact (arrayIndex_inj _ _ _ E1 Hn). }
        split; [|split; assumption].
        intros k' [<-|Hk'].
        -- unfold keyLt. rewrite Hn, E1. exact L'.
        -- specialize (H1 k' Hk'). unfold keyLt in *.
           rewrite Hn. rewrite E1 in H1.
           destruct (arrayIndex k'); [lia|exact I].
    + simpl. split; [|split; assumption].
      intros k' [<-|Hk'].
      * unfold keyLt. rewrite Hn, E1. exact I.
      * specialize (H1 k' Hk'). unfold keyLt in *.
        rewrite Hn. rewrite E1 in H1.
        destruct (arrayIndex k'); [contradiction|exact I].
Qed.

Lemma keysOrdered_snoc (ks : list str) (k : str) :
  arrayIndex k = None -> keysOrdered ks -> keysOrdered (ks ++ [k]).
Proof.
  intros Hk. induction ks as [|k0 ks IH]; simpl.
  - intros _. split; [intros k' []|exact I].
  - intros [H1 H2]. split; [|apply IH, H2].
    intros k' Hk'. apply in_app_or in Hk' as [Hk'|[<-|[]]].
    + apply H1, Hk'.
    + apply keyLt_plain, Hk.
Qed.

Lemma NoDup_snoc (ks : list str) (k : str) :
  ~ In k ks -> NoDup ks -> NoDup (ks ++ [k]).
Proof.
  intros Hk Hn. induction Hn as [|k0 ks H0 Hn IH]; simpl.
  - constructor; [tauto|constructor].
  - constructor.
    + intros H. apply in_app_or in H as [H|[H|[]]]; [tauto|].
      apply Hk. left. symmetry. exact H.
    + apply IH. intros H. apply Hk. right. exact H.
Qed.

Lemma objInv_nil : objInv [].
Proof. split; [constructor|split; [tauto|exact I]]. Qed.

Lemma objInv_objSet (k v : str) (o : Headers) :
  objInv o -> objInv (objSet k v o).
Proof.
  intros (Hn & Hp & Hs). unfold objSet.
  destruct (eqs_reflect k kw_proto) as [->|Hk]; [repeat split; assumption|].
  destruct (objGet k o) as [v0|] eqn:Hg.
  - unfold objInv. rewrite keys_objUpdate. repeat split; assumption.
  - apply objGet_None in Hg.
    destruct (arrayIndex k) as [n|] eqn:Hi.
    + split; [apply NoDup_insert; assumption|]. split.
      * rewrite In_keys_insert. intros [H|H]; [congruence|tauto].
      * apply keysOrdered_insert; assumption.
    + unfold objInv, keys. rewrite map_app. cbn [map fst].
      split; [apply NoDup_snoc; assumption|]. split.
      * intros H. apply in_app_or in H as [H|[H|[]]]; [tauto|congruence].
      * apply keysOrdered_snoc; assumption.
Qed.

Lemma objInsertIndex_last (n : N) (k v : str) (p : Headers) :
  (forall k1, In k1 (keys p) ->
              exists a, arrayIndex k1 = Some a /\ (a < n)%N) ->
  objInsertIndex n k v p = p ++ [(k, v)].
Proof.
  induction p as [|[k1 v1] p IH]; intros H; [reflexivity|]. simpl.
  destruct (H k1 (or_introl eq_refl)) as (a & -> & L).
  apply N.ltb_lt in L. rewrite L. rewrite IH; [reflexivity|].
  intros k2 H2. apply H. right. exact H2.
Qed.

Lemma keysOrdered_middle (ks1 ks2 : list str) (k k1 : str) :
  keysOrdered (ks1 ++ k :: ks2) -> In k1 ks1 -> keyLt k1 k.
Proof.
  induction ks1 as [|k0 ks1 IH]; simpl; [tauto|].
  intros [H1 H2] [->|Hin].
  - apply H1. apply in_or_app. right. left. reflexivity.
  - apply IH; assumption.
Qed.

Lemma rebuild_object (p s : Headers) :
  objInv (p ++ s) -> fold_left setPair s p = p ++ s.
Proof.
  revert p. induction s as [|[k v] s IH]; intros p H.
  - rewrite app_nil_r. reflexivity.
  - cbn [fold_left]. unfold setPair at 2. cbn [fst snd].
    assert (E : objSet k v p = p ++ [(k, v)]).
    { destruct H as (Hn & Hp & Hs). unfold keys in *.
      rewrite map_app in *. cbn [map fst] in *.
      unfold objSet.
      destruct (eqs_reflect k kw_proto) as [->|Hk].
      { exfalso. apply Hp. apply in_or_app. right. left. reflexivity. }
      assert (Hg : objGet k p = None).
      { apply objGet_None. intros Hin.
        apply NoDup_remove_2 in Hn. apply Hn. apply in_or_app. left. exact Hin. }
      rewrite Hg. destruct (arrayIndex k) as [n|] eqn:Hi; [|reflexivity].
      apply objInsertIndex_last. intros k1 H1.
      pose proof (keysOrdered_middle _ _ _ _ Hs H1) as L.
      unfold keyLt in L. rewrite Hi in L.
      destruct (arrayIndex k1) as [a|]; [|contradiction].
      exists a. split; [reflexivity|exact L]. }
    rewrite E. rewrite IH.
    + rewrite <- app_assoc. reflexivity.
    + rewrite <- app_assoc. exact H.
Qed.

Lemma objInv_canonical (o : Headers) : objInv o -> canonical o.
Proof. intros H. exact (rebuild_object [] o H). Qed.

Lemma In_objUpdate (k v : str) (o : Headers) (kv : str * str) :
  In kv (objUpdate k v o) -> kv = (k, v) \/ In kv o.
Proof.
  induction o as [|[k1 v1] o IH]; simpl; [tauto|].
  destruct (eqs_reflect k1 k); simpl.
  - subst. intuition.
  - intros [H|H]; [auto|]. destruct (IH H); auto.
Qed.

Lemma In_objInsertIndex (n : N) (k v : str) (o : Headers) (kv : str * str) :
  In kv (objInsertIndex n k v o) -> kv = (k, v) \/ In kv o.
Proof.
  induction o as [|[k1 v1] o IH]; simpl; [intuition|].
  destruct (arrayIndex k1) as [a|]; [destruct (a <? n)%N|]; simpl;
    intuition.
Qed.

(** An assignment adds at most the assigned pair. *)
Lemma In_objSet (k v : str) (o : Headers) (kv : str * str) :
  In kv (objSet k v o) -> kv = (k, v) \/ In kv o.
Proof.
  unfold objSet. destruct (eqs k kw_proto); [auto|].
  destruct (objGet k o); [apply In_objUpdate|].
  destruct (arrayIndex k); [apply In_objInsertIndex|].
  intros H. apply in_app_or in H as [H|[H|[]]]; auto.
Qed.

(** ** What every parsed catalog satisfies *)

Lemma In_firstn (n : nat) (s : str) (x : char) : In x (firstn n s) -> In x s.
Proof.
  revert n. induction s as [|c s IH]; intros [|n]; simpl; try tauto.
  intros [H|H]; [auto|right; apply (IH n), H].
Qed.

Lemma In_skipn (n : nat) (s : str) (x : char) : In x (skipn n s) -> In x s.
Proof.
  revert n. induction s as [|c s IH]; intros [|n]; simpl; try tauto.
  intros H. right. apply (IH n), H.
Qed.

Lemma indexOf_firstn (c : char) (s : str) :
  ~ In c (firstn (Z.to_nat (indexOf c s)) s).
Proof.
  induction s as [|x s IH]; [simpl; tauto|]. cbn [indexOf].
  destruct (eqc x c) eqn:E; [simpl; tauto|]. cbv zeta.
  destruct (Z.ltb_spec (indexOf c s) 0) as [L|L]; [simpl; tauto|].
  replace (Z.to_nat (indexOf c s + 1)) with (S (Z.to_nat (indexOf c s)))
    by lia.
  cbn [firstn]. intros [H|H]; [|exact (IH H)].
  apply eqc_false in E. congruence.
Qed.

Lemma headersInv_parseHeaderLine (hs : Headers) (line : str) :
  ~ In NL line -> headersInv hs -> headersInv (parseHeaderLine hs line).
Proof.
  intros Hl [Ho Hf]. unfold parseHeaderLine. cbv zeta.
  destruct (indexOf COLON line >? 0)%Z; [|split; assumption].
  split; [apply objInv_objSet, Ho|].
  apply Forall_forall. intros kv Hkv. apply In_objSet in Hkv as [->|Hkv].
  - unfold headerShape, sliceTo, sliceFrom. cbn [fst snd].
    split; [apply trimmed_trim|]. split; [apply trimmed_trim|].
    split; [|split].
    + intros H. apply In_trim in H. exact (indexOf_firstn _ _ H).
    + intros H. apply In_trim, In_firstn in H. exact (Hl H).
    + intros H. apply In_trim, In_skipn in H. exact (Hl H).
  - rewrite Forall_forall in Hf. apply Hf, Hkv.
Qed.

Lemma headersInv_parseHeaders (headerStr : str) (hs : Headers) :
  headersInv hs -> headersInv (parseHeaders headerStr hs).
Proof.
  unfold parseHeaders. pose proof (split_pieces NL headerStr) as P.
  revert hs. induction P as [|l ls [Hl _] _ IH]; intros hs H; [exact H|].
  cbn [fold_left]. apply IH, headersInv_parseHeaderLine; assumption.
Qed.

Lemma headersInv_parsePOFile (content : str) :
  headersInv (headers (parsePOFile content)).
Proof.
  rewrite parsePOFile_headers.
  assert (G : forall raws hs, headersInv hs ->
                headersInv (fold_left feedHeaders raws hs)).
  { induction raws as [|r raws IH]; intros hs H; [exact H|].
    cbn [fold_left]. apply IH. apply headersInv_parseHeaders, H. }
  apply G. split; [apply objInv_nil|constructor].
Qed.

Lemma In_consHead (c : char) (l : list str) (b : str) (x : char) :
  In b (consHead c l) -> In x b ->
  x = c \/ exists b', In b' l /\ In x b'.
Proof.
  destruct l as [|p ps]; simpl.
  - intros [<-|[]] [<-|[]]. left. reflexivity.
  - intros [<-|Hb] Hx.
    + destruct Hx as [<-|Hx]; [left; reflexivity|].
      right. exists p. split; [left; reflexivity|exact Hx].
    + right. exists b. split; [right; exact Hb|exact Hx].
Qed.

Lemma In_splitBlankRuns (inrun : bool) (s b : str) (x : char) :
  In b (splitBlankRuns inrun s) -> In x b -> In x s.
Proof.
  revert inrun b. induction s as [|c s IH]; intros inrun b Hb Hx.
  - simpl in Hb. destruct Hb as [<-|[]]. exact Hx.
  - assert (G : In b (consHead c (splitBlankRuns false s)) ->
                In x (c :: s)).
    { intros H. destruct (In_consHead _ _ _ _ H Hx) as [->|(b' & H1 & H2)].
      - left. reflexivity.
      - right. exact (IH false b' H1 H2). }
    simpl in Hb. destruct inrun.
    + destruct (eqc c 10); [right; exact (IH true b Hb Hx)|exact (G Hb)].
    + destruct (eqc c 10 && startsWith [10%N] s); [|exact (G Hb)].
      destruct Hb as [<-|Hb]; [destruct Hx|].
      right. exact (IH true b Hb Hx).
Qed.

Lemma In_replace1 (a : char) (rep s : str) (x : char) :
  In x (replace1 a rep s) -> In x rep \/ (In x s /\ x <> a).
Proof.
  induction s as [|c s IH]; simpl; [tauto|].
  destruct (eqc c a) eqn:E.
  - intros H. apply in_app_or in H as [H|H]; [auto|].
    destruct (IH H) as [H'|[H1 H2]]; [auto|right; tauto].
  - apply eqc_false in E. intros [<-|H]; [right; tauto|].
    destruct (IH H) as [H'|[H1 H2]]; [auto|right; tauto].
Qed.

Lemma normalizeNewlines_no_return (content : str) :
  ~ In CR (normalizeNewlines content).
Proof.
  unfold normalizeNewlines. intros H.
  apply In_replace1 in H as [[H|[]]|[_ H]]; [discriminate|congruence].
Qed.

Lemma In_commentBuffer (payloads : list str) (x : char) :
  In x (commentBuffer payloads) ->
  x = SP \/ exists p, In p payloads /\ In x p.
Proof.
  unfold commentBuffer. induction payloads as [|p ps IH]; simpl; [tauto|].
  intros H. apply in_app_or in H as [H|H].
  - apply in_app_or in H as [H|[<-|[]]]; [|left; reflexivity].
    right. exists p. split; [left; reflexivity|exact H].
  - destruct (IH H) as [->|(q & H1 & H2)]; [left; reflexivity|].
    right. exists q. split; [right; exact H1|exact H2].
Qed.

Lemma rawOf_comments (block : str) :
  r_comments (rawOf block) =
  finishComments (commentBuffer (commentPayloads (split NL block))).
Proof.
  unfold rawOf, finishBlock. cbn [r_comments].
  rewrite fold_parseLine_comments. reflexivity.
Qed.

(** The comments of a block of a normalized text. *)
Lemma rawOf_comments_shape (block c : str) :
  ~ In CR block -> r_comments (rawOf block) = Some c ->
  c <> [] /\ trimmed c /\ clean c.
Proof.
  intros Hcr. rewrite rawOf_comments. unfold finishComments. cbv zeta.
  destruct (truthy (trim _)) eqn:Ht; [|discriminate].
  intros H. injection H as <-. split; [apply truthy_true, Ht|].
  split; [apply trimmed_trim|].
  intros x Hx. apply In_trim, In_commentBuffer in Hx
    as [->|(p & Hp & Hx)]; [split; discriminate|].
  unfold commentPayloads in Hp. apply in_flat_map in Hp as (line & Hl & Hp).
  unfold linePayload in Hp. cbv zeta in Hp.
  destruct (startsWith kw_hashdot (trim line)
            || startsWith kw_hashcolon (trim line)); [|destruct Hp].
  destruct Hp as [<-|[]].
  apply In_trim in Hx. unfold sliceFrom in Hx.
  apply In_skipn, In_trim in Hx.
  pose proof (split_pieces NL block) as P. rewrite Forall_forall in P.
  destruct (P line Hl) as [Hnl Hin]. split.
  - intros ->. exact (Hnl Hx).
  - intros ->. exact (Hcr (Hin _ Hx)).
Qed.

Lemma rawBlocks_no_return (content : str) (raw : RawEntry) :
  In raw (rawBlocks content) ->
  exists block, raw = rawOf block /\ ~ In CR block.
Proof.
  unfold rawBlocks. intros H. apply in_map_iff in H as (block & <- & H).
  apply filter_In in H as [H _]. exists block. split; [reflexivity|].
  intros Hx. apply (normalizeNewlines_no_return content).
  exact (In_splitBlankRuns _ _ _ _ H Hx).
Qed.

Lemma entryShape_parsePOFile (content : str) :
  Forall entryShape (entries (parsePOFile content)).
Proof.
  apply Forall_forall. intros e He.
  apply in_entries_raw in He as (raw & Hraw & Hne & ->).
  apply rawBlocks_no_return in Hraw as (block & -> & Hcr).
  unfold entryShape, entryOfRaw. cbn [id msgid msgstr context comments status].
  split; [reflexivity|]. split; [reflexivity|]. split; [exact Hne|].
  intros c H. exact (rawOf_comments_shape block c Hcr H).
Qed.

(** ** Round trip of a parsed catalog *)

Lemma textSafe_spec (s : str) :
  textSafe s = true -> escapeSafe s = true /\ noLineSep s = true.
Proof. unfold textSafe. apply andb_true_iff. Qed.

Lemma headerWf_of_shape (kv : str * str) :
  headerShape kv -> headerPairSafe kv = true -> headerWf kv.
Proof.
  intros (H1 & H2 & H3 & H4 & H5) S. unfold headerPairSafe in S.
  apply andb_true_iff in S as [S S3]. apply andb_true_iff in S as [S1 S2].
  constructor; try assumption. apply truthy_true, S1.
Qed.

Lemma entryWf_of_shape (e : TranslationEntry) :
  entryShape e -> entrySafe e = true -> entryWf e.
Proof.
  intros (H1 & H2 & H3 & H4) S. unfold entrySafe in S.
  apply andb_true_iff in S as [S S4]. apply andb_true_iff in S as [S S3].
  apply andb_true_iff in S as [S1 S2]. apply negb_true_iff in S1.
  constructor; try assumption; try (apply textSafe_spec; assumption).
  intros E. unfold emptyContext in S1. rewrite E in S1. discriminate.
Qed.

Lemma Forall_and_forallb (A : Type) (P Q : A -> Prop) (f : A -> bool)
      (l : list A) :
  (forall x, P x -> f x = true -> Q x) ->
  Forall P l -> forallb f l = true -> Forall Q l.
Proof.
  intros H HP Hf. rewrite forallb_forall in Hf. rewrite Forall_forall in *.
  intros x Hx. apply H; auto.
Qed.

(** C1 (amended): generating a parsed catalog and parsing the text again
    gives the same catalog (same headers in the same order, same entries
    in the same order) whenever the catalog is [roundtripSafe]. *)
Theorem parse_generate_roundtrip (content : str) :
  roundtripSafe (parsePOFile content) = true ->
  parsePOFile (generatePOFile (parsePOFile content)) = parsePOFile content.
Proof.
  intros S. unfold roundtripSafe in S. apply andb_true_iff in S as [Sh Se].
  destruct (headersInv_parsePOFile content) as [Ho Hs].
  apply roundtrip_wellformed.
  - exact (Forall_and_forallb _ _ _ _ _ headerWf_of_shape Hs Sh).
  - apply objInv_canonical, Ho.
  - exact (Forall_and_forallb _ _ _ _ _ entryWf_of_shape
             (entryShape_parsePOFile content) Se).
Qed.

Example sampleCatalog_shape :
  headers (parsePOFile sampleCatalog)
  = [(lit "Language", lit "es");
     (lit "Content-Type", lit "text/plain; charset=UTF-8");
     (lit "X-Source", lit "C:\po\dir")]
  /\ map msgid (entries (parsePOFile sampleCatalog))
     = [lit "He said " ++ [DQ] ++ lit "hi" ++ [DQ; NL] ++ lit "Bye"
        ++ [TAB] ++ lit "now \ then";
        lit "Save"; lit "unquoted"]
  /\ map comments (entries (parsePOFile sampleCatalog))
     = [Some (lit "Greeting shown on login src/login.c:10"); None; None]
  /\ map context (entries (parsePOFile sampleCatalog))
     = [Some (lit "menu"); None; None].
Proof. vm_compute. repeat split. Qed.

Lemma parse_generate_roundtrip_witness :
  roundtripSafe (parsePOFile sampleCatalog) = true
  /\ parsePOFile (generatePOFile (parsePOFile sampleCatalog))
     = parsePOFile sampleCatalog.
Proof.
  assert (H : roundtripSafe (parsePOFile sampleCatalog) = true)
    by (vm_compute; reflexivity).
  split; [exact H|]. exact (parse_generate_roundtrip sampleCatalog H).
Defined.

(** C1 as stated fails: a context that is present and empty is parsed,
    is not written by the generator, and is absent after the second
    parse. *)
Lemma roundtrip_loses_empty_context :
  context_of_first (parsePOFile emptyCtxSave) = Some (Some [])
  /\ context_of_first
       (parsePOFile (generatePOFile (parsePOFile emptyCtxSave)))
     = Some None
  /\ parsePOFile (generatePOFile (parsePOFile emptyCtxSave))
     <> parsePOFile emptyCtxSave.
Proof.
  split; [vm_compute; reflexivity|]. split; [vm_compute; reflexivity|].
  vm_compute. discriminate.
Qed.

(** ** Catalogs outside [roundtripSafe]

    Each condition of [roundtripSafe] excludes catalogs that the parser
    does return and on which the round trip fails. *)

(** A header with an empty key is written as a line that starts with a
    colon, which [parseHeaders] ignores. *)
Example roundtrip_loses_empty_key :
  let content := lit "msgstr " ++ [DQ] ++ lit " : x" ++ [DQ] in
  headers (parsePOFile content) = [([], lit "x")]
  /\ headers (parsePOFile (generatePOFile (parsePOFile content))) = [].
Proof. vm_compute. split; reflexivity. Qed.

(** A header value with a backslash before t comes back with a tab. *)
Example roundtrip_changes_header_backslash :
  let content := lit "msgstr X: a\tb" in
  headers (parsePOFile content) = [(lit "X", lit "a\tb")]
  /\ headers (parsePOFile (generatePOFile (parsePOFile content)))
     = [(lit "X", lit "a" ++ [TAB] ++ lit "b")].
Proof. vm_compute. split; reflexivity. Qed.

(** A header value with a carriage return is written on a line that the
    second parse cuts in two. *)
Example roundtrip_loses_header_return :
  let content := lit "msgstr " ++ [DQ] ++ lit "X: a\rb" ++ [DQ] in
  headers (parsePOFile content) = [(lit "X", lit "a" ++ [CR] ++ lit "b")]
  /\ headers (parsePOFile (generatePOFile (parsePOFile content))) = [].
Proof. vm_compute. split; reflexivity. Qed.

(** A [msgid] that ends with a backslash and goes on, in a continuation
    line, with the letter n: the text [C:\new] comes back with a newline. *)
Example roundtrip_changes_backslash_letter :
  let content := lit "msgid " ++ [DQ] ++ lit "C:\\" ++ [DQ; NL]
                 ++ [DQ] ++ lit "new" ++ [DQ] in
  map msgid (entries (parsePOFile content)) = [lit "C:\new"]
  /\ map msgid (entries (parsePOFile (generatePOFile (parsePOFile content))))
     = [lit "C:\" ++ [NL] ++ lit "ew"].
Proof. vm_compute. split; reflexivity. Qed.

(** A quoted [msgid] with a line separator does not match the pattern of
    [extractString] and keeps its quotes, at every parse one pair more. *)
Example roundtrip_changes_line_separator :
  let content := lit "msgid " ++ [DQ] ++ lit "a" ++ [LS] ++ lit "b" ++ [DQ] in
  map msgid (entries (parsePOFile content))
  = [[DQ] ++ lit "a" ++ [LS] ++ lit "b" ++ [DQ]]
  /\ map msgid (entries (parsePOFile (generatePOFile (parsePOFile content))))
     = [[DQ] ++ lit "\" ++ [DQ] ++ lit "a" ++ [LS] ++ lit "b\" ++ [DQ; DQ]].
Proof. vm_compute. split; reflexivity. Qed.

(** Keys that are array indices are listed first, in ascending order, and
    survive the round trip in that order. *)
Example roundtrip_keeps_index_keys :
  let content := lit "msgstr " ++ [DQ] ++ lit "b: 1\n10: x\n9: y\n" ++ [DQ] in
  headers (parsePOFile content)
  = [(lit "9", lit "y"); (lit "10", lit "x"); (lit "b", lit "1")]
  /\ parsePOFile (generatePOFile (parsePOFile content)) = parsePOFile content.
Proof. vm_compute. split; reflexivity. Qed.

(** * Further properties of the parser and the generator *)

(** ** Line ends *)

Lemma replace2_second_absent (a b : char) (rep s : str) :
  ~ In b s -> replace2 a b rep s = s.
Proof.
  induction s as [|x s IH]; intros H; [reflexivity|].
  destruct s as [|y s]; [reflexivity|].
  rewrite replace2_skip_second
    by (intros ->; apply H; right; left; reflexivity).
  rewrite IH; [reflexivity|]. intros Hs. apply H. right. exact Hs.
Qed.

Lemma normalizeNewlines_toCRLF (s : str) :
  ~ In CR s -> normalizeNewlines (toCRLF s) = s.
Proof.
  intros H. unfold normalizeNewlines, toCRLF.
  assert (E : replace2 CR NL [NL] (replace1 NL [CR; NL] s) = s).
  { induction s as [|c s IH]; [reflexivity|]. cbn [replace1].
    assert (Hs : ~ In CR s) by (intros Hs; apply H; right; exact Hs).
    destruct (eqc c 10) eqn:Ec.
    - apply eqc_true in Ec. subst c. cbn [app].
      rewrite replace2_hit, IH by assumption. reflexivity.
    - rewrite replace2_skip_head
        by (intros ->; apply H; left; reflexivity).
      rewrite IH by assumption. reflexivity. }
  rewrite E. apply replace1_absent, H.
Qed.

Lemma In_replace1_rep (a : char) (rep s : str) (x : char) :
  ~ In x rep -> In x (replace1 a rep s) -> In x s.
Proof.
  intros Hrep H. apply In_replace1 in H as [H|[H _]]; tauto.
Qed.

Lemma normalizeNewlines_toCR (s : str) :
  ~ In CR s -> normalizeNewlines (toCR s) = s.
Proof.
  intros H. unfold normalizeNewlines, toCR.
  rewrite replace2_second_absent.
  - induction s as [|c s IH]; [reflexivity|]. cbn [replace1].
    assert (Hs : ~ In CR s) by (intros Hs; apply H; right; exact Hs).
    destruct (eqc c 10) eqn:Ec.
    + apply eqc_true in Ec. subst c. cbn [app replace1].
      rewrite IH by assumption. reflexivity.
    + cbn [replace1].
      assert (E : eqc c 13 = false).
      { apply eqc_false. intros ->. apply H. left. reflexivity. }
      rewrite E, IH by assumption. reflexivity.
  - intros Hx. apply In_replace1 in Hx as [[Hx|[]]|[_ Hx]];
      [discriminate|congruence].
Qed.

Lemma absent_forallb (c : char) (s : str) :
  forallb (fun x => negb (eqc x c)) s = true -> ~ In c s.
Proof.
  rewrite forallb_forall. intros H Hc. specialize (H c Hc).
  rewrite eqc_refl in H. discriminate.
Qed.

(** X1: a text without carriage returns is parsed to the same catalog
    when its line ends are written as carriage return and newline, or as
    carriage return alone. *)
Theorem parsePOFile_line_ends (content : str) :
  ~ In CR content ->
  parsePOFile (toCRLF content) = parsePOFile content
  /\ parsePOFile (toCR content) = parsePOFile content.
Proof.
  intros H. unfold parsePOFile.
  rewrite normalizeNewlines_toCRLF, normalizeNewlines_toCR,
    normalizeNewlines_id by assumption.
  split; reflexivity.
Qed.

Lemma parsePOFile_line_ends_witness :
  ~ In CR scenario2
  /\ toCRLF scenario2 <> scenario2
  /\ parsePOFile (toCRLF scenario2) = parsePOFile scenario2.
Proof.
  assert (H : ~ In CR scenario2).
  { apply absent_forallb. vm_compute. reflexivity. }
  split; [exact H|]. split; [vm_compute; discriminate|].
  exact (proj1 (parsePOFile_line_ends scenario2 H)).
Defined.

(** ** Blank lines between blocks *)

Lemma replace2_after_second (a b : char) (rep x z : str) :
  a <> b ->
  replace2 a b rep (x ++ b :: z)
  = replace2 a b rep (x ++ [b]) ++ replace2 a b rep z.
Proof.
  intros Hab.
  assert (G : forall x, (replace2 a b rep (x ++ b :: z)
                         = replace2 a b rep (x ++ [b]) ++ replace2 a b rep z)
                        /\ forall c,
                          replace2 a b rep ((c :: x) ++ b :: z)
                          = replace2 a b rep ((c :: x) ++ [b])
                            ++ replace2 a b rep z).
  { clear x. induction x as [|d x [IH1 IH2]].
    - split.
      + cbn [app]. rewrite replace2_skip_head by congruence. reflexivity.
      + intros c. cbn [app]. destruct (N.eq_dec c a) as [->|Hc].
        * rewrite !replace2_hit. change (replace2 a b rep []) with (@nil char).
          rewrite app_nil_r. reflexivity.
        * rewrite !(replace2_skip_head a b c) by assumption.
          rewrite !(replace2_skip_head a b b) by congruence. reflexivity.
    - split; [apply IH2|]. intros c. cbn [app].
      destruct (N.eq_dec c a) as [->|Hc].
      + destruct (N.eq_dec d b) as [->|Hd].
        * rewrite !replace2_hit, IH1, app_assoc. reflexivity.
        * rewrite !(replace2_skip_second a b a d) by assumption.
          cbn [app] in IH2. rewrite (IH2 d). reflexivity.
      + rewrite !(replace2_skip_head a b c) by assumption.
        cbn [app] in IH2. rewrite (IH2 d). reflexivity. }
  apply G.
Qed.

Lemma replace1_app (a : char) (rep x y : str) :
  replace1 a rep (x ++ y) = replace1 a rep x ++ replace1 a rep y.
Proof. rewrite !replace1_flat_map. apply flat_map_app. Qed.

Lemma splitBlankRuns_run (inrun : bool) (s1 s2 : str) :
  splitBlankRuns inrun (s1 ++ NL :: NL :: NL :: s2)
  = splitBlankRuns inrun (s1 ++ NL :: NL :: s2).
Proof.
  revert inrun. induction s1 as [|c s1 IH]; intros inrun.
  - destruct inrun; reflexivity.
  - cbn [app splitBlankRuns].
    assert (E : startsWith [NL] (s1 ++ NL :: NL :: NL :: s2)
                = startsWith [NL] (s1 ++ NL :: NL :: s2))
      by (destruct s1; reflexivity).
    rewrite E, !IH. reflexivity.
Qed.

Lemma normalizeNewlines_newline (s1 rest : str) :
  normalizeNewlines (s1 ++ NL :: rest)
  = normalizeNewlines (s1 ++ [NL]) ++ normalizeNewlines rest.
Proof.
  unfold normalizeNewlines.
  rewrite replace2_after_second by discriminate. apply replace1_app.
Qed.

Lemma normalizeNewlines_cons_newline (rest : str) :
  normalizeNewlines (NL :: rest) = NL :: normalizeNewlines rest.
Proof. exact (normalizeNewlines_newline [] rest). Qed.

Lemma normalizeNewlines_snoc_newline (s1 : str) :
  exists s, normalizeNewlines (s1 ++ [NL]) = s ++ [NL].
Proof.
  unfold normalizeNewlines.
  assert (G : forall x, exists s,
               replace2 CR NL [NL] (x ++ [NL]) = s ++ [NL]).
  { intros x.
    assert (G' : forall x, (exists s, replace2 CR NL [NL] (x ++ [NL])
                                      = s ++ [NL])
                           /\ forall c, exists s,
                               replace2 CR NL [NL] ((c :: x) ++ [NL])
                               = s ++ [NL]).
    { clear x. induction x as [|d x [IH1 IH2]].
      - split; [exists []; reflexivity|]. intros c. cbn [app].
        destruct (N.eq_dec c CR) as [->|Hc].
        + exists []. reflexivity.
        + rewrite replace2_skip_head by assumption. exists [c].
          reflexivity.
      - split; [apply IH2|]. intros c. cbn [app].
        destruct (N.eq_dec c CR) as [->|Hc].
        + destruct (N.eq_dec d NL) as [->|Hd].
          * rewrite replace2_hit. destruct IH1 as [s Es].
            exists (NL :: s). cbn [app]. f_equal. exact Es.
          * rewrite replace2_skip_second by assumption.
            destruct (IH2 d) as [s Es].
            exists (CR :: s). cbn [app]. f_equal. exact Es.
        + rewrite replace2_skip_head by assumption.
          destruct (IH2 d) as [s Es].
          exists (c :: s). cbn [app]. f_equal. exact Es. }
    apply G'. }
  destruct (G s1) as [s Es]. exists (replace1 CR [NL] s).
  transitivity (replace1 CR [NL] (s ++ [NL])); [f_equal; exact Es|].
  apply replace1_app.
Qed.

(** X2: one more empty line between two parts of a text does not change
    the catalog: a run of three newlines separates blocks as a run of two
    does. *)
Theorem parsePOFile_extra_blank_line (s1 s2 : str) :
  parsePOFile (s1 ++ [NL; NL; NL] ++ s2) = parsePOFile (s1 ++ [NL; NL] ++ s2).
Proof.
  unfold parsePOFile, splitBlocks. cbn [app].
  rewrite (normalizeNewlines_newline s1 (NL :: NL :: s2)).
  rewrite (normalizeNewlines_newline s1 (NL :: s2)).
  rewrite !normalizeNewlines_cons_newline.
  destruct (normalizeNewlines_snoc_newline s1) as [s Es]. rewrite Es.
  rewrite <- !app_assoc. cbn [app].
  rewrite splitBlankRuns_run. reflexivity.
Qed.

(** ** White space around a line *)

Lemma dropWhile_prefix (w s : str) :
  allSpace w = true -> dropWhile is_ws (w ++ s) = dropWhile is_ws s.
Proof.
  unfold allSpace. induction w as [|c w IH]; [reflexivity|]. cbn [forallb].
  intros H. apply andb_true_iff in H as [Hc Hw]. cbn [app dropWhile].
  rewrite Hc. apply IH, Hw.
Qed.

Lemma allSpace_rev (w : str) : allSpace (rev w) = allSpace w.
Proof. apply forallb_rev. Qed.

Lemma trimEnd_suffix (s w : str) :
  allSpace w = true -> trimEnd (s ++ w) = trimEnd s.
Proof.
  intros H. unfold trimEnd. rewrite rev_app_distr.
  rewrite dropWhile_prefix by (rewrite allSpace_rev; exact H). reflexivity.
Qed.

Lemma dropWhile_all (w : str) : allSpace w = true -> dropWhile is_ws w = [].
Proof.
  intros H. rewrite <- (app_nil_r w). rewrite dropWhile_prefix by exact H.
  reflexivity.
Qed.

Lemma dropWhile_nil_all (s : str) : dropWhile is_ws s = [] -> allSpace s = true.
Proof.
  unfold allSpace. induction s as [|c s IH]; [reflexivity|]. cbn [dropWhile].
  destruct (is_ws c) eqn:Hc; [|discriminate]. intros H. cbn [forallb].
  rewrite Hc. apply IH, H.
Qed.

Lemma allSpace_app (a b : str) :
  allSpace a = true -> allSpace b = true -> allSpace (a ++ b) = true.
Proof.
  unfold allSpace. intros Ha Hb. rewrite forallb_app, Ha, Hb. reflexivity.
Qed.

Lemma trim_padded (w1 s w2 : str) :
  allSpace w1 = true -> allSpace w2 = true ->
  trim (w1 ++ s ++ w2) = trim s.
Proof.
  intros H1 H2. unfold trim, trimStart. rewrite dropWhile_prefix by exact H1.
  destruct (dropWhile_shape is_ws s) as [E|(c & r & E & Hc)].
  - rewrite E. apply dropWhile_nil_all in E.
    rewrite dropWhile_all by (apply allSpace_app; assumption). reflexivity.
  - assert (Es : exists p, s = p ++ c :: r /\ allSpace p = true).
    { clear H1 H2. revert E. induction s as [|x s IH]; [discriminate|].
      cbn [dropWhile]. destruct (is_ws x) eqn:Hx.
      - intros E. destruct (IH E) as (p & -> & Hp). exists (x :: p).
        split; [reflexivity|]. unfold allSpace in *. cbn [forallb].
        rewrite Hx, Hp. reflexivity.
      - intros E. injection E as -> ->. exists []. split; reflexivity. }
    destruct Es as (p & -> & Hp). rewrite <- app_assoc.
    rewrite (dropWhile_prefix p ((c :: r) ++ w2) Hp).
    rewrite (dropWhile_prefix p (c :: r) Hp). cbn [app dropWhile].
    rewrite Hc. change (c :: r ++ w2) with ((c :: r) ++ w2).
    apply trimEnd_suffix, H2.
Qed.

(** X3: white space before and after a line does not change what the
    line does to a block: indented lines and lines with trailing blanks
    are read as the lines without them. *)
Theorem parseLine_padded (st : BlockState) (w1 line w2 : str) :
  allSpace w1 = true -> allSpace w2 = true ->
  parseLine st (w1 ++ line ++ w2) = parseLine st line.
Proof.
  intros H1 H2. unfold parseLine. rewrite trim_padded by assumption.
  reflexivity.
Qed.

Lemma parseLine_padded_witness :
  allSpace [TAB; SP] = true
  /\ allSpace [SP; CR] = true
  /\ parseLine initBlock ([TAB; SP] ++ lit "msgid x" ++ [SP; CR])
     = mkBlock (lit "x") [] None [] (Some FMsgid).
Proof.
  split; [reflexivity|]. split; [reflexivity|].
  exact (eq_trans
           (parseLine_padded initBlock [TAB; SP] (lit "msgid x") [SP; CR]
                             eq_refl eq_refl)
           eq_refl).
Defined.

(** ** Blocks without a [msgid] line *)

Lemma parseLine_commentOrBlank (st : BlockState) (line : str) :
  commentOrBlank line = true ->
  parseLine st line =
  mkBlock (b_msgid st) (b_msgstr st) (b_context st)
          (b_comments (parseLine st line)) (b_currentField st).
Proof.
  unfold commentOrBlank, parseLine. cbv zeta.
  destruct (negb (truthy (trim line))); [destruct st; reflexivity|].
  cbn [orb]. intros ->.
  destruct (startsWith kw_hashdot (trim line)); [reflexivity|].
  destruct (startsWith kw_hashcolon (trim line)); [reflexivity|].
  destruct st; reflexivity.
Qed.

Lemma fold_parseLine_comment_lines (lines : list str) (st : BlockState) :
  forallb commentOrBlank lines = true ->
  let st' := fold_left parseLine lines st in
  b_msgid st' = b_msgid st /\ b_msgstr st' = b_msgstr st
  /\ b_context st' = b_context st.
Proof.
  revert st. induction lines as [|l lines IH]; intros st H; [repeat split|].
  cbn [forallb] in H. apply andb_true_iff in H as [Hl Hrest].
  cbn [fold_left]. destruct (IH (parseLine st l) Hrest) as (A & B & C).
  cbv zeta. rewrite A, B, C. rewrite (parseLine_commentOrBlank st l Hl).
  repeat split.
Qed.

Lemma parseHeaders_nil (hs : Headers) : parseHeaders [] hs = hs.
Proof. reflexivity. Qed.

(** X4: a block in which every line is blank or starts with a hash, such
    as a block of translator comments or of obsolete entries, changes
    neither the headers nor the entries. *)
Theorem processBlock_comment_block (acc : ParsedPO) (block : str) :
  forallb commentOrBlank (split NL block) = true ->
  processBlock acc block = acc.
Proof.
  intros H. destruct (nonBlank block) eqn:Hb;
    [|apply processBlock_blank, Hb].
  destruct (fold_parseLine_comment_lines _ initBlock H) as (A & B & _).
  rewrite processBlock_header.
  - unfold rawOf, finishBlock. cbn [r_msgstr]. rewrite B.
    cbn [initBlock b_msgstr]. rewrite parseHeaders_nil. destruct acc;
      reflexivity.
  - exact Hb.
  - unfold isHeaderRaw, rawOf, finishBlock. cbn [r_msgid]. rewrite A.
    reflexivity.
Qed.

Lemma processBlock_comment_block_witness :
  forallb commentOrBlank (split NL obsoleteBlock) = true
  /\ processBlock (parsePOFile scenario1) obsoleteBlock = parsePOFile scenario1.
Proof.
  assert (H : forallb commentOrBlank (split NL obsoleteBlock) = true)
    by (vm_compute; reflexivity).
  split; [exact H|]. exact (processBlock_comment_block _ _ H).
Defined.

Lemma parseLine_notMsgid (st : BlockState) (line : str) :
  notMsgidLine line = true ->
  b_msgid st = [] -> b_currentField st <> Some FMsgid ->
  b_msgid (parseLine st line) = []
  /\ b_currentField (parseLine st line) <> Some FMsgid.
Proof.
  unfold notMsgidLine. intros H Hm Hf. apply negb_true_iff in H.
  unfold parseLine. cbv zeta. rewrite H.
  repeat destr_if; cbn [b_msgid b_currentField addComment];
    try (split; [assumption|first [assumption|discriminate]]).
  unfold continueField.
  destruct (b_currentField st) as [[]|] eqn:Ef;
    cbn [b_msgid b_currentField];
    first [exfalso; apply Hf; reflexivity
          |split; [assumption|congruence]].
Qed.

(** X5: a block without a line that starts with the keyword [msgid] and
    a space never becomes an entry. *)
Theorem processBlock_without_msgid (acc : ParsedPO) (block : str) :
  forallb notMsgidLine (split NL block) = true ->
  entries (processBlock acc block) = entries acc.
Proof.
  intros H. destruct (nonBlank block) eqn:Hb;
    [|rewrite processBlock_blank by exact Hb; reflexivity].
  rewrite processBlock_header; [reflexivity|exact Hb|].
  unfold isHeaderRaw, rawOf, finishBlock. cbn [r_msgid].
  assert (G : forall lines st,
             forallb notMsgidLine lines = true ->
             b_msgid st = [] -> b_currentField st <> Some FMsgid ->
             b_msgid (fold_left parseLine lines st) = []).
  { induction lines as [|l lines IH]; intros st Hl Hm Hf; [exact Hm|].
    cbn [forallb] in Hl. apply andb_true_iff in Hl as [Hl Hrest].
    cbn [fold_left].
    destruct (parseLine_notMsgid st l Hl Hm Hf) as [A B].
    apply IH; assumption. }
  rewrite G; [reflexivity|exact H|reflexivity|discriminate].
Qed.

Lemma processBlock_without_msgid_witness :
  forallb notMsgidLine (split NL orphanBlock) = true
  /\ entries (processBlock emptyPO orphanBlock) = [].
Proof.
  assert (H : forallb notMsgidLine (split NL orphanBlock) = true)
    by (vm_compute; reflexivity).
  split; [exact H|]. exact (processBlock_without_msgid emptyPO _ H).
Defined.

(** ** What unescaping leaves *)

Lemma replace2_unfold (a b x y : char) (rep t : str) :
  replace2 a b rep (x :: y :: t)
  = if eqc x a && eqc y b then rep ++ replace2 a b rep t
    else x :: replace2 a b rep (y :: t).
Proof. reflexivity. Qed.

Lemma replace2_head (a b r : char) (s : str) :
  match replace2 a b [r] s with
  | [] => s = []
  | h :: _ => h = r \/ exists t, s = h :: t
  end.
Proof.
  destruct s as [|x [|y t]]; [reflexivity|right; eauto|].
  rewrite replace2_unfold. destruct (eqc x a && eqc y b); cbn [app].
  - left. reflexivity.
  - right. eauto.
Qed.

Lemma noPair_cons_intro (a b x : char) (s : str) :
  noPair a b s = true ->
  (x = a -> forall h t, s = h :: t -> h <> b) ->
  noPair a b (x :: s) = true.
Proof.
  intros Hs Hx. cbn [noPair]. rewrite Hs, andb_true_r.
  destruct (eqc x a) eqn:Ex; [|reflexivity]. apply eqc_true in Ex.
  destruct s as [|h t]; [reflexivity|]. cbn [andb].
  apply negb_true_iff, eqc_false. exact (Hx Ex h t eq_refl).
Qed.

Lemma noPair_cons_elim (a b x : char) (s : str) :
  noPair a b (x :: s) = true ->
  noPair a b s = true /\ (x = a -> forall h t, s = h :: t -> h <> b).
Proof.
  cbn [noPair]. intros H. apply andb_true_iff in H as [H1 H2].
  split; [exact H2|]. intros -> h t ->. rewrite eqc_refl in H1.
  cbn [andb] in H1. apply negb_true_iff, eqc_false in H1. exact H1.
Qed.

(** A pass that writes [r] for a pair creates no pair [a], [b] when [r]
    is not [b] and, if [r] is [a], the pair it removes ends with [a]. *)
Lemma noPair_replace2 (a b a' b' r : char) (s : str) :
  r <> b -> (r = a -> b' = a) ->
  noPair a b s = true -> noPair a b (replace2 a' b' [r] s) = true.
Proof.
  intros Hrb Hra.
  assert (G : forall s,
             (noPair a b s = true ->
              noPair a b (replace2 a' b' [r] s) = true)
             /\ forall x, noPair a b (x :: s) = true ->
                          noPair a b (replace2 a' b' [r] (x :: s)) = true).
  { clear s. induction s as [|y t [IH1 IH2]].
    - split; [reflexivity|]. intros x H. exact H.
    - split; [apply IH2|]. intros x H. rewrite replace2_unfold.
      apply noPair_cons_elim in H as [Hyt Hx].
      destruct (eqc x a' && eqc y b') eqn:Hit; cbn [app].
      + apply andb_true_iff in Hit as [_ Ey]. apply eqc_true in Ey.
        apply noPair_cons_elim in Hyt as [Ht Hy].
        apply noPair_cons_intro; [apply IH1, Ht|].
        intros Er h u Eu. pose proof (replace2_head a' b' r t) as Hh.
        rewrite Eu in Hh. destruct Hh as [->|[t' ->]]; [exact Hrb|].
        apply (Hy (eq_trans Ey (Hra Er)) h t'). reflexivity.
      + apply noPair_cons_intro; [apply IH2, Hyt|].
        intros Ex h u Eu. pose proof (replace2_head a' b' r (y :: t)) as Hh.
        rewrite Eu in Hh. destruct Hh as [->|[t' E']]; [exact Hrb|].
        injection E' as <- _. apply (Hx Ex y t). reflexivity. }
  apply G.
Qed.

(** A pass leaves none of the pairs that it replaces. *)
Lemma noPair_replace2_self (a b r : char) (s : str) :
  a <> b -> r <> a -> r <> b -> noPair a b (replace2 a b [r] s) = true.
Proof.
  intros Hab Hra Hrb.
  assert (G : forall s,
             noPair a b (replace2 a b [r] s) = true
             /\ forall x, noPair a b (replace2 a b [r] (x :: s)) = true).
  { clear s. induction s as [|y t [IH1 IH2]].
    - split; [reflexivity|]. intros x. rewrite replace2_single.
      cbn [noPair]. rewrite andb_false_r. reflexivity.
    - split; [apply IH2|]. intros x. rewrite replace2_unfold.
      destruct (eqc x a && eqc y b) eqn:Hit; cbn [app].
      + apply noPair_cons_intro; [exact IH1|]. intros E. contradiction.
      + apply noPair_cons_intro; [apply IH2|].
        intros -> h u Eu. pose proof (replace2_head a b r (y :: t)) as Hh.
        rewrite Eu in Hh. destruct Hh as [->|[t' E']]; [exact Hrb|].
        injection E' as <- _. rewrite eqc_refl in Hit. cbn [andb] in Hit.
        apply eqc_false in Hit. exact Hit. }
  apply G.
Qed.

Lemma escapeSafe_noPair (s : str) :
  noPair BS 110 s = true -> noPair BS 116 s = true ->
  noPair BS 114 s = true -> escapeSafe s = true.
Proof.
  induction s as [|x s IH]; [reflexivity|]. intros Hn Ht Hr.
  apply noPair_cons_elim in Hn as [Hn Hn'].
  apply noPair_cons_elim in Ht as [Ht Ht'].
  apply noPair_cons_elim in Hr as [Hr Hr'].
  cbn [escapeSafe]. rewrite (IH Hn Ht Hr), andb_true_r.
  destruct (eqc x BS) eqn:Ex; [|reflexivity]. apply eqc_true in Ex.
  destruct s as [|h t]; [reflexivity|]. cbn [andb].
  apply negb_true_iff.
  assert (E1 : eqc h 110 = false) by (apply eqc_false; eapply Hn'; eauto).
  assert (E2 : eqc h 116 = false) by (apply eqc_false; eapply Ht'; eauto).
  assert (E3 : eqc h 114 = false) by (apply eqc_false; eapply Hr'; eauto).
  rewrite E1, E2, E3. reflexivity.
Qed.

Lemma escapeSafe_unescapeBody (s : str) : escapeSafe (unescapeBody s) = true.
Proof.
  unfold unescapeBody. apply escapeSafe_noPair.
  - do 4 (apply noPair_replace2; [discriminate|try discriminate; auto|]).
    apply noPair_replace2_self; discriminate.
  - do 3 (apply noPair_replace2; [discriminate|try discriminate; auto|]).
    apply noPair_replace2_self; discriminate.
  - do 2 (apply noPair_replace2; [discriminate|try discriminate; auto|]).
    apply noPair_replace2_self; discriminate.
Qed.

Lemma In_replace2 (a b r : char) (s : str) (x : char) :
  In x (replace2 a b [r] s) -> x = r \/ In x s.
Proof.
  assert (G : forall s,
             (In x (replace2 a b [r] s) -> x = r \/ In x s)
             /\ forall c, In x (replace2 a b [r] (c :: s)) ->
                          x = r \/ In x (c :: s)).
  { clear s. induction s as [|y t [IH1 IH2]].
    - split; [intros []|]. intros c H. right. exact H.
    - split; [apply IH2|]. intros c. rewrite replace2_unfold.
      destruct (eqc c a && eqc y b); cbn [app].
      + intros [<-|H]; [left; reflexivity|].
        destruct (IH1 H) as [->|Ht]; [left; reflexivity|].
        right. right. right. exact Ht.
      + intros [<-|H]; [right; left; reflexivity|].
        destruct (IH2 y H) as [->|Ht]; [left; reflexivity|].
        right. right. exact Ht. }
  apply G.
Qed.

Lemma noLineSep_unescapeBody (s : str) :
  noLineSep s = true -> noLineSep (unescapeBody s) = true.
Proof.
  unfold noLineSep. rewrite !forallb_forall. intros H x Hx.
  unfold unescapeBody in Hx.
  repeat (apply In_replace2 in Hx as [->|Hx]; [reflexivity|]).
  apply H, Hx.
Qed.

Lemma notTerminator_noLineSep (s : str) :
  forallb notTerminator s = true -> noLineSep s = true.
Proof.
  unfold noLineSep. rewrite !forallb_forall. intros H x Hx.
  specialize (H x Hx). unfold notTerminator, is_line_terminator in H.
  apply negb_true_iff in H. apply orb_false_iff in H as [H H4].
  apply orb_false_iff in H as [_ H3]. rewrite H3, H4. reflexivity.
Qed.

(** X6: the value that [extractString] reads from a string in double
    quotes has no backslash before n, t or r and no line separator, so
    writing it with [escapeString] and reading it again gives the same
    value. *)
Theorem extractString_value_stable (body : str) :
  forallb notTerminator body = true ->
  let value := extractString (DQ :: body ++ [DQ]) in
  textSafe value = true
  /\ extractString (escapeString value) = value.
Proof.
  intros H value.
  assert (E : value = unescapeBody body).
  { unfold value, extractString. rewrite matchQuoted_quoted by exact H.
    reflexivity. }
  assert (S1 : escapeSafe value = true)
    by (rewrite E; apply escapeSafe_unescapeBody).
  assert (S2 : noLineSep value = true).
  { rewrite E. apply noLineSep_unescapeBody, notTerminator_noLineSep, H. }
  split.
  - unfold textSafe. rewrite S1, S2. reflexivity.
  - apply extractString_escapeString; assumption.
Qed.

Lemma extractString_value_stable_witness :
  forallb notTerminator trickyBody = true
  /\ extractString (DQ :: trickyBody ++ [DQ]) = lit "a\" ++ [NL] ++ lit "b"
                                                 ++ [TAB] ++ lit "c"
  /\ extractString (escapeString (extractString (DQ :: trickyBody ++ [DQ])))
     = extractString (DQ :: trickyBody ++ [DQ]).
Proof.
  split; [reflexivity|]. split; [vm_compute; reflexivity|].
  exact (proj2 (extractString_value_stable trickyBody eq_refl)).
Defined.

(** ** Strings that are not quoted *)

Lemma matchQuoted_inv (q body : str) :
  matchQuoted q = Some body ->
  q = DQ :: body ++ [DQ] /\ forallb notTerminator body = true.
Proof.
  unfold matchQuoted. destruct q as [|c rest]; [discriminate|].
  destruct (eqc c DQ) eqn:Ec; [|discriminate]. apply eqc_true in Ec.
  subst c. destruct (rev rest) as [|d m] eqn:Er; [discriminate|].
  destruct (eqc d DQ) eqn:Ed; [|discriminate]. apply eqc_true in Ed.
  subst d. cbn [andb].
  change (fun x => negb (is_line_terminator x)) with notTerminator.
  destruct (forallb notTerminator m) eqn:Em; [|discriminate].
  intros H. injection H as <-. split.
  - f_equal. rewrite <- (rev_involutive rest), Er. reflexivity.
  - rewrite forallb_rev. exact Em.
Qed.

(** X7: [extractString] returns its argument as it is when the argument
    is not a text between two double quotes, and also when a line
    terminator stands between the quotes. *)
Theorem extractString_fallback (q : str) :
  ((forall body, q <> DQ :: body ++ [DQ]) -> extractString q = q)
  /\ (forall body x,
        q = DQ :: body ++ [DQ] -> In x body ->
        is_line_terminator x = true -> extractString q = q).
Proof.
  split.
  - intros H. unfold extractString.
    destruct (matchQuoted q) as [body|] eqn:E; [|reflexivity].
    apply matchQuoted_inv in E as [E _]. exfalso. exact (H body E).
  - intros body x Hq Hx Ht. unfold extractString.
    destruct (matchQuoted q) as [body'|] eqn:E; [|reflexivity].
    apply matchQuoted_inv in E as [E Hall]. exfalso.
    rewrite Hq in E. injection E as E. apply app_inv_tail in E. subst body'.
    rewrite forallb_forall in Hall. specialize (Hall x Hx).
    unfold notTerminator in Hall. rewrite Ht in Hall. discriminate.
Qed.

Lemma extractString_fallback_witness :
  (forall body, lit "hello" <> DQ :: body ++ [DQ])
  /\ extractString (lit "hello") = lit "hello"
  /\ extractString ([DQ] ++ lit "a" ++ [LS] ++ lit "b" ++ [DQ])
     = [DQ] ++ lit "a" ++ [LS] ++ lit "b" ++ [DQ].
Proof.
  assert (H : forall body, lit "hello" <> DQ :: body ++ [DQ])
    by (intros body E; discriminate E).
  split; [exact H|]. split.
  - exact (proj1 (extractString_fallback (lit "hello")) H).
  - apply (proj2 (extractString_fallback _) (lit "a" ++ [LS] ++ lit "b") LS).
    + reflexivity.
    + right. left. reflexivity.
    + reflexivity.
Defined.

Lemma replace2_length (a b r : char) (s : str) :
  (length (replace2 a b [r] s) <= length s)%nat.
Proof.
  assert (G : forall s,
             (length (replace2 a b [r] s) <= length s)%nat
             /\ forall c, (length (replace2 a b [r] (c :: s))
                           <= length (c :: s))%nat).
  { clear s. induction s as [|y t [IH1 IH2]].
    - split; [reflexivity|]. intros c. reflexivity.
    - split; [apply IH2|]. intros c. rewrite replace2_unfold.
      destruct (eqc c a && eqc y b); cbn [app length].
      + lia.
      + specialize (IH2 y). cbn [length] in IH2. lia. }
  apply G.
Qed.

(** X8: [extractString] never returns a longer text than it is given. *)
Theorem extractString_length (q : str) :
  (length (extractString q) <= length q)%nat.
Proof.
  unfold extractString. destruct (matchQuoted q) as [body|] eqn:E;
    [|reflexivity].
  apply matchQuoted_inv in E as [-> _]. unfold unescapeBody.
  cbn [length]. rewrite length_app. cbn [length].
  repeat (etransitivity; [apply replace2_length|]). lia.
Qed.

(** ** What escaping writes *)

Lemma tok0_shape (c : char) :
  (exists k, tok 0 c = [BS; k] /\ k <> NL /\ k <> TAB /\ k <> CR)
  \/ (tok 0 c = [c] /\ c <> NL /\ c <> TAB /\ c <> CR).
Proof.
  unfold tok.
  case_char c 92%N; [left; exists BS; repeat split; discriminate|].
  case_char c 34%N; [left; exists DQ; repeat split; discriminate|].
  case_char c 13%N; [left; exists 114%N; repeat split; discriminate|].
  case_char c 9%N; [left; exists 116%N; repeat split; discriminate|].
  case_char c 10%N; [left; exists 110%N; repeat split; discriminate|].
  right. repeat split; assumption.
Qed.

Lemma readTokens_tok (c : char) (r : str) :
  readTokens (tok 0 c ++ r) = c :: readTokens r.
Proof.
  unfold tok.
  case_char c 92%N; [reflexivity|].
  case_char c 34%N; [reflexivity|].
  case_char c 13%N; [reflexivity|].
  case_char c 9%N; [reflexivity|].
  case_char c 10%N; [reflexivity|].
  cbn [Nat.ltb Nat.leb app readTokens].
  apply eqc_false in E. rewrite E. reflexivity.
Qed.

Lemma readTokens_escapeBody (s : str) : readTokens (escapeBody s) = s.
Proof.
  rewrite escapeBody_tok. induction s as [|c s IH]; [reflexivity|].
  cbn [flat_map]. rewrite readTokens_tok, IH. reflexivity.
Qed.

(** X9: what [escapeString] writes starts and ends with a double quote,
    has no newline, tab or carriage return in it, and is at least two
    and at most twice plus two characters longer than the text. *)
Theorem escapeString_shape (s : str) :
  startsWith [DQ] (escapeString s) = true
  /\ endsWith [DQ] (escapeString s) = true
  /\ (forall x, In x (escapeString s) -> x <> NL /\ x <> TAB /\ x <> CR)
  /\ (length s + 2 <= length (escapeString s) <= 2 * length s + 2)%nat.
Proof.
  unfold escapeString. split; [|split; [|split]].
  - cbn [app]. rewrite startsWith_cons, eqc_refl. reflexivity.
  - unfold endsWith. rewrite !rev_app_distr. cbn [rev app].
    rewrite startsWith_cons, eqc_refl. reflexivity.
  - intros x Hx. cbn [app] in Hx. destruct Hx as [<-|Hx];
      [repeat split; discriminate|].
    apply in_app_or in Hx as [Hx|[<-|[]]];
      [|repeat split; discriminate].
    rewrite escapeBody_tok in Hx. apply in_flat_map in Hx as (c & _ & Hx).
    destruct (tok0_shape c) as [(k & E & H1 & H2 & H3)|(E & H1 & H2 & H3)];
      rewrite E in Hx.
    + destruct Hx as [<-|[<-|[]]]; repeat split; try discriminate;
        assumption.
    + destruct Hx as [<-|[]]. repeat split; assumption.
  - cbn [app length]. rewrite length_app. cbn [length].
    assert (L : (length s <= length (escapeBody s) <= 2 * length s)%nat).
    { rewrite escapeBody_tok. induction s as [|c s IH]; [simpl; lia|].
      cbn [flat_map]. rewrite length_app. cbn [length].
      destruct (tok0_shape c) as [(k & E & _)|(E & _)]; rewrite E;
        cbn [length]; lia. }
    lia.
Qed.

(** X10: [escapeString] writes different texts differently. *)
Theorem escapeString_injective (s1 s2 : str) :
  s1 <> s2 -> escapeString s1 <> escapeString s2.
Proof.
  intros Hne E. apply Hne. unfold escapeString in E. cbn [app] in E.
  injection E as E. apply app_inv_tail in E.
  rewrite <- (readTokens_escapeBody s1), <- (readTokens_escapeBody s2), E.
  reflexivity.
Qed.

Lemma escapeString_injective_witness :
  [NL] <> backslash_n /\ escapeString [NL] <> escapeString backslash_n.
Proof.
  assert (H : [NL] <> backslash_n) by discriminate.
  split; [exact H|]. exact (escapeString_injective [NL] backslash_n H).
Defined.

(** ** Header lines *)

Lemma indexOf_absent (c : char) (s : str) :
  ~ In c s -> indexOf c s = (-1)%Z.
Proof.
  induction s as [|x s IH]; intros H; [reflexivity|]. cbn [indexOf].
  destruct (eqc x c) eqn:E.
  - apply eqc_true in E. exfalso. apply H. left. exact E.
  - cbv zeta. rewrite IH by (intros H'; apply H; right; exact H').
    reflexivity.
Qed.

(** X11: [parseHeaderLine] cuts a line at its first colon and assigns the
    trimmed text after it to the trimmed text before it, provided that
    the colon is not the first character. *)
Theorem parseHeaderLine_first_colon (hs : Headers) (k rest : str) :
  k <> [] -> ~ In COLON k ->
  parseHeaderLine hs (k ++ COLON :: rest) = objSet (trim k) (trim rest) hs.
Proof.
  intros Hk Hc. unfold parseHeaderLine. cbv zeta.
  rewrite indexOf_found by assumption.
  assert (L : (0 < length k)%nat) by (destruct k; [congruence|simpl; lia]).
  destruct (Z.gtb_spec (Z.of_nat (length k)) 0); [|lia].
  unfold sliceTo, sliceFrom. rewrite Nat2Z.id.
  replace (Z.to_nat (Z.of_nat (length k) + 1)) with (length k + 1)%nat by lia.
  rewrite firstn_app, Nat.sub_diag, firstn_all. cbn [firstn].
  rewrite app_nil_r.
  rewrite skipn_app, skipn_all2 by lia.
  replace (length k + 1 - length k)%nat with 1%nat by lia.
  reflexivity.
Qed.

Lemma parseHeaderLine_first_colon_witness :
  parseHeaderLine [] (lit " Plural-Forms : nplurals=2; plural=n != 1 ? 1 : 0; ")
  = [(lit "Plural-Forms", lit "nplurals=2; plural=n != 1 ? 1 : 0;")].
Proof.
  refine (eq_trans
            (parseHeaderLine_first_colon []
               (lit " Plural-Forms ")
               (lit " nplurals=2; plural=n != 1 ? 1 : 0; ") _ _) _).
  - discriminate.
  - vm_compute. intros H. repeat destruct H as [H|H]; try discriminate H.
    exact H.
  - vm_compute. reflexivity.
Defined.

(** X12: [parseHeaderLine] leaves the headers as they are when the line
    has no colon and when the line begins with a colon. *)
Theorem parseHeaderLine_ignored (hs : Headers) (line : str) :
  ~ In COLON line \/ startsWith [COLON] line = true ->
  parseHeaderLine hs line = hs.
Proof.
  intros [H|H]; unfold parseHeaderLine; cbv zeta.
  - rewrite indexOf_absent by assumption. reflexivity.
  - destruct line as [|c rest]; [reflexivity|].
    rewrite startsWith_cons in H. apply andb_true_iff in H as [H _].
    apply eqc_true in H. subst c. cbn [indexOf]. rewrite eqc_refl.
    reflexivity.
Qed.

Lemma parseHeaderLine_ignored_witness :
  parseHeaderLine [(lit "Language", lit "es")] (lit ": orphan value")
  = [(lit "Language", lit "es")]
  /\ parseHeaderLine [(lit "Language", lit "es")] (lit "no colon here")
     = [(lit "Language", lit "es")].
Proof.
  split.
  - apply (parseHeaderLine_ignored _ (lit ": orphan value")).
    right. reflexivity.
  - apply (parseHeaderLine_ignored _ (lit "no colon here")).
    left. vm_compute. intros H. repeat destruct H as [H|H];
      try discriminate H. exact H.
Defined.

(** ** The shape of a parsed catalog *)

(** X13: in the headers of a parsed catalog no key occurs twice and no
    key is [__proto__]; keys and values have no white space at their
    ends and no newline, and keys have no colon. *)
Theorem parsePOFile_headers_shape (content : str) :
  NoDup (keys (headers (parsePOFile content)))
  /\ ~ In kw_proto (keys (headers (parsePOFile content)))
  /\ forall k v, In (k, v) (headers (parsePOFile content)) ->
                 trim k = k /\ trim v = v
                 /\ ~ In COLON k /\ ~ In NL k /\ ~ In NL v.
Proof.
  destruct (headersInv_parsePOFile content) as [(Hn & Hp & _) Hf].
  split; [exact Hn|]. split; [exact Hp|].
  intros k v Hkv. rewrite Forall_forall in Hf.
  destruct (Hf _ Hkv) as (H1 & H2 & H3 & H4 & H5). cbn [fst snd] in *.
  repeat split; try assumption; apply trim_trimmed; assumption.
Qed.

(** X14: every entry of a parsed catalog has a [msgid] that is not empty,
    and its comments, when present, are not empty, have no white space
    at their ends and no newline or carriage return. *)
Theorem parsePOFile_entry_shape (content : str) (e : TranslationEntry) :
  In e (entries (parsePOFile content)) ->
  msgid e <> []
  /\ forall c, comments e = Some c ->
               c <> [] /\ trim c = c /\ ~ In NL c /\ ~ In CR c.
Proof.
  intros He. pose proof (entryShape_parsePOFile content) as H.
  rewrite Forall_forall in H. destruct (H e He) as (_ & _ & Hm & Hc).
  split; [exact Hm|]. intros c Ec. destruct (Hc c Ec) as (H1 & H2 & H3).
  split; [exact H1|]. split; [apply trim_trimmed, H2|].
  split; intros Hx; destruct (H3 _ Hx) as [N1 N2]; congruence.
Qed.

Lemma parsePOFile_entry_shape_witness :
  exists e, In e (entries (parsePOFile scenario2))
            /\ msgid e = lit "Welcome"
            /\ comments e = Some (lit "Greeting shown on login")
            /\ (forall c, comments e = Some c ->
                          c <> [] /\ trim c = c /\ ~ In NL c /\ ~ In CR c).
Proof.
  exists (mkEntry (lit "_Welcome") (lit "Welcome") []
                  None (Some (lit "Greeting shown on login")) Pending).
  assert (H : In (mkEntry (lit "_Welcome") (lit "Welcome") []
                          None (Some (lit "Greeting shown on login")) Pending)
                 (entries (parsePOFile scenario2)))
    by (vm_compute; left; reflexivity).
  split; [exact H|]. split; [reflexivity|]. split; [reflexivity|].
  exact (proj2 (parsePOFile_entry_shape scenario2 _ H)).
Defined.

(** ** The frame of the generated text *)

Lemma blocksText_tail (b : list str) (rest : list (list str)) :
  exists r,
    blocksText (b :: rest) = join [NL] b ++ NL :: r
    /\ (r = [] \/ exists r', r = r' ++ [NL]).
Proof.
  revert b. induction rest as [|b' rest IH]; intros b.
  - exists []. split; [reflexivity|left; reflexivity].
  - destruct (IH b') as (r & E & Hr).
    exists (NL :: join [NL] b' ++ NL :: r).
    change (blocksText (b :: b' :: rest))
      with (join [NL] b ++ [NL; NL] ++ blocksText (b' :: rest)).
    rewrite E. split; [reflexivity|]. right.
    destruct Hr as [->|[r' ->]].
    + exists (NL :: join [NL] b'). reflexivity.
    + exists (NL :: join [NL] b' ++ NL :: r').
      cbn [app]. rewrite <- app_assoc. reflexivity.
Qed.

Lemma endsWith_newline_tail (x r : str) :
  r = [] \/ (exists r', r = r' ++ [NL]) -> endsWith [NL] (x ++ NL :: r) = true.
Proof.
  intros [->|[r' ->]].
  - apply endsWith_snoc.
  - replace (x ++ NL :: r' ++ [NL]) with ((x ++ NL :: r') ++ [NL])
      by (rewrite <- app_assoc; reflexivity).
    apply endsWith_snoc.
Qed.

(** X15: the generated text begins with the title line, the line of the
    empty [msgid] and the line of the empty [msgstr], each ended by a
    newline, and the text ends with a newline. *)
Theorem generatePOFile_frame (data : ParsedPO) :
  (exists rest,
      generatePOFile data
      = kw_title ++ [NL] ++ kw_msgid ++ [DQ; DQ] ++ [NL]
        ++ kw_msgstr ++ [DQ; DQ] ++ [NL] ++ rest)
  /\ firstn 3 (split NL (generatePOFile data))
     = [kw_title; kw_msgid ++ [DQ; DQ]; kw_msgstr ++ [DQ; DQ]]
  /\ endsWith [NL] (generatePOFile data) = true.
Proof.
  assert (G : exists rest,
             generatePOFile data
             = kw_title ++ [NL] ++ kw_msgid ++ [DQ; DQ] ++ [NL]
               ++ kw_msgstr ++ [DQ; DQ] ++ [NL] ++ rest
             /\ (rest = [] \/ exists r', rest = r' ++ [NL])).
  { rewrite generatePOFile_blocks.
    destruct (blocksText_tail (headerBlock (headers data))
                              (map entryBlock (entries data)))
      as (r & E & Hr).
    rewrite E. unfold headerBlock.
    destruct (map headerLine (headers data)) as [|h hl] eqn:Eh.
    - exists r. split; [reflexivity|exact Hr].
    - exists (join [NL] (h :: hl) ++ NL :: r).
      rewrite join_app by discriminate. split.
      + rewrite <- !app_assoc. reflexivity.
      + right. destruct Hr as [->|[r' ->]].
        * exists (join [NL] (h :: hl)). reflexivity.
        * exists (join [NL] (h :: hl) ++ NL :: r').
          rewrite <- app_assoc. reflexivity. }
  destruct G as (rest & E & Hr). split; [exists rest; exact E|]. split.
  - rewrite E.
    replace (kw_title ++ [NL] ++ kw_msgid ++ [DQ; DQ] ++ [NL]
             ++ kw_msgstr ++ [DQ; DQ] ++ [NL] ++ rest)
      with (kw_title ++ NL :: (kw_msgid ++ [DQ; DQ])
            ++ NL :: (kw_msgstr ++ [DQ; DQ]) ++ NL :: rest)
      by (rewrite <- !app_assoc; reflexivity).
    rewrite (split_line NL kw_title)
      by (vm_compute; intros H; repeat destruct H as [H|H];
          try discriminate H; exact H).
    rewrite (split_line NL (kw_msgid ++ [DQ; DQ]))
      by (vm_compute; intros H; repeat destruct H as [H|H];
          try discriminate H; exact H).
    rewrite (split_line NL (kw_msgstr ++ [DQ; DQ]))
      by (vm_compute; intros H; repeat destruct H as [H|H];
          try discriminate H; exact H).
    reflexivity.
  - rewrite E.
    replace (kw_title ++ [NL] ++ kw_msgid ++ [DQ; DQ] ++ [NL]
             ++ kw_msgstr ++ [DQ; DQ] ++ [NL] ++ rest)
      with ((kw_title ++ [NL] ++ kw_msgid ++ [DQ; DQ] ++ [NL]
             ++ kw_msgstr ++ [DQ; DQ]) ++ NL :: rest)
      by (rewrite <- !app_assoc; reflexivity).
    apply endsWith_newline_tail, Hr.
Qed.

(** * Further properties of the suggestions *)

Lemma stripNumbering_nodigit (c : char) (t : str) :
  is_digit c = false -> stripNumbering (c :: t) = c :: t.
Proof.
  intros H. unfold stripNumbering. cbn [takeWhile dropWhile]. rewrite H.
  reflexivity.
Qed.

Lemma stripBullet_nobullet (c : char) (t : str) :
  eqc c 45 || eqc c 8226 || eqc c 42 = false ->
  stripBullet (c :: t) = c :: t.
Proof. intros H. unfold stripBullet. rewrite H. reflexivity. Qed.

Lemma trim_nonspace_ends (c d : char) (t m : str) :
  rev (c :: t) = d :: m -> is_ws c = false -> is_ws d = false ->
  trim (c :: t) = c :: t.
Proof.
  intros E Hc Hd.
  assert (E' : c :: t = rev m ++ [d]).
  { rewrite <- (rev_involutive (c :: t)), E. reflexivity. }
  unfold trim, trimStart. cbn [dropWhile]. rewrite Hc, E'.
  apply trimEnd_snoc, Hd.
Qed.

Lemma plainLine_spec (l : str) :
  plainLine l = true ->
  exists c t d m,
    l = c :: t /\ rev l = d :: m /\ is_ws c = false /\ isMarker c = false
    /\ is_ws d = false /\ ~ In NL l.
Proof.
  unfold plainLine. intros H. apply andb_true_iff in H as [H Hn].
  destruct l as [|c t]; [discriminate|].
  destruct (rev (c :: t)) as [|d m] eqn:Er; [discriminate|].
  apply andb_true_iff in H as [H H3]. apply andb_true_iff in H as [H1 H2].
  apply negb_true_iff in H1, H2, H3.
  exists c, t, d, m. repeat split; try assumption.
  intros Hin. rewrite forallb_forall in Hn. specialize (Hn _ Hin).
  rewrite eqc_refl in Hn. discriminate.
Qed.

Lemma isMarker_false (c : char) :
  isMarker c = false ->
  is_digit c = false /\ eqc c 45 || eqc c 8226 || eqc c 42 = false
  /\ c <> DQ /\ c <> SQ.
Proof.
  unfold isMarker. intros H.
  apply orb_false_iff in H as [H H6]. apply orb_false_iff in H as [H H5].
  apply orb_false_iff in H as [H H4]. apply orb_false_iff in H as [H H3].
  apply orb_false_iff in H as [H1 H2].
  rewrite H2, H3, H4. apply eqc_false in H5, H6.
  repeat split; assumption.
Qed.

Lemma startsWith_other (q c : char) (t : str) :
  c <> q -> startsWith [q] (c :: t) = false.
Proof.
  intros H. rewrite startsWith_cons.
  assert (E : eqc q c = false) by (apply eqc_false; congruence).
  rewrite E. reflexivity.
Qed.

Lemma unquoted_plain (l : str) :
  plainLine l = true ->
  (startsWith [DQ] l && endsWith [DQ] l)
  || (startsWith [SQ] l && endsWith [SQ] l) = false.
Proof.
  intros H. apply plainLine_spec in H
    as (c & t & d & m & -> & _ & _ & Hm & _ & _).
  apply isMarker_false in Hm as (_ & _ & H1 & H2).
  rewrite !startsWith_other by assumption. reflexivity.
Qed.

Lemma trim_plain (l : str) : plainLine l = true -> trim l = l.
Proof.
  intros H. apply plainLine_spec in H
    as (c & t & d & m & -> & Er & Hc & _ & Hd & _).
  exact (trim_nonspace_ends c d t m Er Hc Hd).
Qed.

Lemma stripBullet_plain (l : str) :
  plainLine l = true -> stripBullet l = l.
Proof.
  intros H. apply plainLine_spec in H
    as (c & t & d & m & -> & _ & _ & Hm & _ & _).
  apply isMarker_false in Hm as (_ & H2 & _ & _).
  apply stripBullet_nobullet, H2.
Qed.

Lemma cleanLine_plain (l : str) : plainLine l = true -> cleanLine l = l.
Proof.
  intros H. pose proof (trim_plain l H) as Et.
  pose proof (unquoted_plain l H) as Eq.
  apply plainLine_spec in H as (c & t & d & m & -> & _ & _ & Hm & _ & _).
  apply isMarker_false in Hm as (H1 & H2 & _ & _).
  unfold cleanLine. cbv zeta.
  rewrite stripNumbering_nodigit, stripBullet_nobullet, Et, Eq
    by assumption.
  reflexivity.
Qed.

Lemma dropWhile_plain (l : str) :
  plainLine l = true -> dropWhile is_ws l = l.
Proof.
  intros H. apply plainLine_spec in H
    as (c & t & d & m & -> & _ & Hc & _ & _ & _).
  cbn [dropWhile]. rewrite Hc. reflexivity.
Qed.

Lemma bareLine_spec (l : str) :
  bareLine l = true ->
  (exists c t d m,
      l = c :: t /\ rev l = d :: m /\ is_ws c = false /\ is_ws d = false)
  /\ ~ In NL l /\ hasNumbering l = false /\ hasBullet l = false
  /\ surrounded DQ l = false /\ surrounded SQ l = false.
Proof.
  unfold bareLine. intros H.
  apply andb_true_iff in H as [H H6]. apply andb_true_iff in H as [H H5].
  apply andb_true_iff in H as [H H4]. apply andb_true_iff in H as [H H3].
  apply andb_true_iff in H as [H1 H2].
  apply negb_true_iff in H3, H4, H5, H6.
  split; [|split; [apply absent_forallb, H2|repeat split; assumption]].
  destruct l as [|c t]; [discriminate|].
  destruct (rev (c :: t)) as [|d m] eqn:Er; [discriminate|].
  apply andb_true_iff in H1 as [Hc Hd]. apply negb_true_iff in Hc, Hd.
  exists c, t, d, m. repeat split; assumption.
Qed.

Lemma stripNumbering_unnumbered (l : str) :
  hasNumbering l = false -> stripNumbering l = l.
Proof.
  unfold hasNumbering, stripNumbering.
  destruct (takeWhile is_digit l); [destruct (dropWhile is_digit l); auto|].
  destruct (dropWhile is_digit l); [auto|]. intros ->. reflexivity.
Qed.

Lemma stripBullet_unbulleted (l : str) :
  hasBullet l = false -> stripBullet l = l.
Proof.
  unfold hasBullet, stripBullet. destruct l; [auto|]. intros ->.
  reflexivity.
Qed.

Lemma cleanLine_bare (l : str) : bareLine l = true -> cleanLine l = l.
Proof.
  intros H. apply bareLine_spec in H
    as ((c & t & d & m & -> & Er & Hc & Hd) & _ & H1 & H2 & H3 & H4).
  unfold cleanLine. cbv zeta.
  rewrite (stripNumbering_unnumbered _ H1), (stripBullet_unbulleted _ H2).
  rewrite (trim_nonspace_ends c d t m Er Hc Hd).
  change ((if surrounded DQ (c :: t) || surrounded SQ (c :: t)
           then slice1m1 (c :: t) else c :: t) = c :: t).
  rewrite H3, H4. reflexivity.
Qed.

(** X16: of lines that are not empty and have no numbering, no bullet, no
    surrounding quotes and no white space at their ends,
    [parseTranslations] returns the first three as they are. *)
Theorem parseTranslations_bare_lines (lines : list str) :
  lines <> [] -> forallb bareLine lines = true ->
  parseTranslations (join [NL] lines) = firstn 3 lines.
Proof.
  intros Hne H. unfold parseTranslations.
  rewrite forallb_forall in H.
  rewrite split_join.
  - f_equal.
    assert (G : forall ls, (forall l, In l ls -> bareLine l = true) ->
                filter (fun line => (0 <? length line)%nat)
                       (map cleanLine ls) = ls).
    { induction ls as [|l ls IH]; intros Hl; [reflexivity|].
      cbn [map filter]. rewrite cleanLine_bare by (apply Hl; left; auto).
      destruct (bareLine_spec l (Hl l (or_introl eq_refl)))
        as ((c & t & _ & _ & -> & _) & _).
      cbn [length Nat.ltb Nat.leb]. f_equal. apply IH.
      intros l' Hl'. apply Hl. right. exact Hl'. }
    apply G, H.
  - exact Hne.
  - apply Forall_forall. intros l Hl.
    destruct (bareLine_spec l (H l Hl)) as (_ & Hn & _). exact Hn.
Qed.

Lemma parseTranslations_bare_lines_witness :
  parseTranslations (join [NL] bareLines)
  = [lit "3 apples"; [DQ] ++ lit "unterminated"; lit "Hola mundo"].
Proof.
  refine (eq_trans (parseTranslations_bare_lines bareLines _ _) _).
  - discriminate.
  - vm_compute. reflexivity.
  - reflexivity.
Defined.

Lemma takeWhile_digits (ds : str) (sep : char) (rest : str) :
  forallb is_digit ds = true -> is_digit sep = false ->
  takeWhile is_digit (ds ++ sep :: rest) = ds
  /\ dropWhile is_digit (ds ++ sep :: rest) = sep :: rest.
Proof.
  intros Hd Hs. induction ds as [|c ds IH].
  - cbn [app takeWhile dropWhile]. rewrite Hs. split; reflexivity.
  - cbn [forallb] in Hd. apply andb_true_iff in Hd as [Hc Hd].
    destruct (IH Hd) as [E1 E2].
    cbn [app takeWhile dropWhile]. rewrite Hc, E1, E2. split; reflexivity.
Qed.

Lemma stripNumbering_numbered (ds : str) (sep : char) (rest : str) :
  ds <> [] -> forallb is_digit ds = true -> sep = 46%N \/ sep = 41%N ->
  stripNumbering (ds ++ sep :: rest) = dropWhile is_ws rest.
Proof.
  intros Hne Hd Hs.
  assert (Hn : is_digit sep = false) by (destruct Hs; subst; reflexivity).
  destruct (takeWhile_digits ds sep rest Hd Hn) as [E1 E2].
  unfold stripNumbering. rewrite E1, E2.
  destruct ds as [|c ds]; [congruence|].
  destruct Hs; subst; reflexivity.
Qed.

(** X17: [cleanLine] removes a numbering (digits, then a dot or a closing
    parenthesis) or a bullet (hyphen, bullet sign or asterisk), with the
    white space after it, from the front of a plain line. *)
Theorem cleanLine_strips_marker (ds ws l : str) (sep bullet : char) :
  plainLine l = true -> allSpace ws = true ->
  ds <> [] -> forallb is_digit ds = true ->
  sep = 46%N \/ sep = 41%N ->
  bullet = 45%N \/ bullet = 8226%N \/ bullet = 42%N ->
  cleanLine (ds ++ sep :: ws ++ l) = l
  /\ cleanLine (bullet :: ws ++ l) = l.
Proof.
  intros Hl Hw Hne Hd Hs Hb.
  pose proof (trim_plain l Hl) as Et.
  pose proof (unquoted_plain l Hl) as Eq.
  pose proof (stripBullet_plain l Hl) as Eb.
  assert (Ew : dropWhile is_ws (ws ++ l) = l).
  { rewrite dropWhile_prefix by exact Hw. apply dropWhile_plain, Hl. }
  split.
  - unfold cleanLine. cbv zeta.
    rewrite stripNumbering_numbered, Ew, Eb, Et, Eq by assumption.
    reflexivity.
  - unfold cleanLine. cbv zeta.
    assert (Hn : is_digit bullet = false)
      by (destruct Hb as [->|[->| ->]]; reflexivity).
    rewrite stripNumbering_nodigit by exact Hn.
    assert (Es : stripBullet (bullet :: ws ++ l) = dropWhile is_ws (ws ++ l))
      by (destruct Hb as [->|[->| ->]]; reflexivity).
    rewrite Es, Ew, Et, Eq. reflexivity.
Qed.

Lemma cleanLine_strips_marker_witness :
  cleanLine (lit "12)  Hola mundo") = lit "Hola mundo"
  /\ cleanLine (lit "* Hola mundo") = lit "Hola mundo".
Proof.
  apply (cleanLine_strips_marker (lit "12") (lit "  ") (lit "Hola mundo")
                                 41%N 42%N).
  - reflexivity.
  - reflexivity.
  - discriminate.
  - reflexivity.
  - right. reflexivity.
  - right. right. reflexivity.
Defined.

Lemma slice1m1_quoted (q : char) (l : str) : slice1m1 (q :: l ++ [q]) = l.
Proof.
  unfold slice1m1. cbn [length skipn]. rewrite length_app. cbn [length].
  replace (S (length l + 1) - 2)%nat with (length l + 0)%nat by lia.
  rewrite firstn_app_2. cbn [firstn]. apply app_nil_r.
Qed.

Lemma endsWith_quoted (q c : char) (l : str) :
  endsWith [q] (c :: l ++ [q]) = true.
Proof.
  unfold endsWith. cbn [rev]. rewrite rev_app_distr. cbn [rev app].
  rewrite startsWith_cons, eqc_refl. reflexivity.
Qed.

(** X18: [cleanLine] takes a text out of its double or single quotes,
    whatever the text between them is. *)
Theorem cleanLine_unquotes (l : str) :
  cleanLine (DQ :: l ++ [DQ]) = l /\ cleanLine (SQ :: l ++ [SQ]) = l.
Proof.
  split; unfold cleanLine; cbv zeta.
  - rewrite stripNumbering_nodigit, stripBullet_nobullet by reflexivity.
    rewrite trim_ends by reflexivity.
    rewrite startsWith_cons, eqc_refl, endsWith_quoted. cbn [andb orb].
    apply slice1m1_quoted.
  - rewrite stripNumbering_nodigit, stripBullet_nobullet by reflexivity.
    rewrite trim_ends by reflexivity.
    rewrite (startsWith_other DQ SQ) by discriminate.
    rewrite startsWith_cons, eqc_refl, endsWith_quoted. cbn [andb orb].
    apply slice1m1_quoted.
Qed.

Lemma In_stripNumbering (l : str) (x : char) :
  In x (stripNumbering l) -> In x l.
Proof.
  unfold stripNumbering.
  destruct (takeWhile is_digit l) as [|d ds];
    [destruct (dropWhile is_digit l); auto|].
  destruct (dropWhile is_digit l) as [|c rest] eqn:E; [auto|].
  destruct (eqc c 46 || eqc c 41); [|auto].
  intros H. apply In_dropWhile in H.
  apply (In_dropWhile is_digit). rewrite E. right. exact H.
Qed.

Lemma In_stripBullet (l : str) (x : char) : In x (stripBullet l) -> In x l.
Proof.
  unfold stripBullet. destruct l as [|c rest]; [auto|].
  destruct (eqc c 45 || eqc c 8226 || eqc c 42); [|auto].
  intros H. right. exact (In_dropWhile _ _ _ H).
Qed.

Lemma In_cleanLine (l : str) (x : char) : In x (cleanLine l) -> In x l.
Proof.
  unfold cleanLine. cbv zeta. intros H.
  apply In_stripNumbering, In_stripBullet, In_trim.
  destruct (_ || _); [|exact H].
  unfold slice1m1 in H. apply In_firstn, In_skipn in H. exact H.
Qed.

Lemma In_parseTranslations (content s : str) :
  In s (parseTranslations content) ->
  exists l, In l (split NL content) /\ s = cleanLine l.
Proof.
  unfold parseTranslations. intros H.
  assert (H' : In s (filter (fun line => (0 <? length line)%nat)
                            (map cleanLine (split NL content)))).
  { revert H. generalize (filter (fun line => (0 <? length line)%nat)
                                 (map cleanLine (split NL content))).
    intros ls. generalize 3%nat. intros n. revert n.
    induction ls as [|a ls IH]; intros [|n]; simpl; try tauto.
    intros [E|Hs]; [auto|right; exact (IH n Hs)]. }
  apply filter_In in H' as [H' _]. apply in_map_iff in H' as (l & E & Hl).
  exists l. split; [exact Hl|symmetry; exact E].
Qed.



(** * Further properties of the application *)

(** ** The suggestions of a provider *)

(** X20: [getAISuggestions] fails without calling a provider exactly
    when the key that [handleAISuggest] checks is empty; otherwise it
    calls the selected provider with that key and parses the answer. *)
Theorem getAISuggestions_by_key (respond : Respond) (text targetLanguage : str)
        (settings : AISettings) (context : option str) :
  getAISuggestions respond text targetLanguage settings context
  = if truthy (hasKey settings)
    then match respond (provider settings)
                       (buildPrompt text targetLanguage context)
                       (hasKey settings) with
         | Failed message => Throw message
         | Content content => Return (parseTranslations content)
         end
    else Throw (if isOpenAI (provider settings) then kw_noOpenAIKey
                else kw_noGeminiKey).
Proof.
  unfold getAISuggestions, hasKey, callOpenAI, callGemini.
  destruct settings as [[|] ok gk]; cbn [provider openaiKey geminiKey
    isOpenAI isGemini andb].
  - destruct (truthy ok); reflexivity.
  - destruct (truthy gk); reflexivity.
Qed.

Lemma getAISuggestions_Return (respond : Respond) (text targetLanguage : str)
      (settings : AISettings) (context : option str) (l : list str) :
  getAISuggestions respond text targetLanguage settings context = Return l ->
  exists content, l = parseTranslations content.
Proof.
  unfold getAISuggestions, callOpenAI, callGemini. cbv zeta.
  repeat match goal with
         | |- context [if ?b then _ else _] => destruct b
         | |- context [match respond ?p ?q ?k with _ => _ end] =>
             destruct (respond p q k)
         end; try discriminate;
    intros H; injection H as <-; eauto.
Qed.

Lemma parseTranslations_small (content : str) :
  (length (parseTranslations content) <= 3)%nat
  /\ Forall (fun s => s <> []) (parseTranslations content).
Proof.
  unfold parseTranslations. split.
  - apply firstn_le_length.
  - apply Forall_firstn, filter_nonempty.
Qed.

(** X21: whatever the provider answers, the list that [getAISuggestions]
    returns has at most three suggestions, none of them empty and none
    with a newline. *)
Theorem getAISuggestions_return_bounded (respond : Respond)
        (text targetLanguage : str) (settings : AISettings)
        (context : option str) (l : list str) :
  getAISuggestions respond text targetLanguage settings context = Return l ->
  (length l <= 3)%nat
  /\ forall s, In s l -> s <> [] /\ ~ In NL s.
Proof.
  intros H. apply getAISuggestions_Return in H as [content ->].
  destruct (parseTranslations_small content) as [H1 H2].
  split; [exact H1|]. intros s Hs. split.
  - rewrite Forall_forall in H2. exact (H2 s Hs).
  - apply In_parseTranslations in Hs as (line & Hl & ->).
    pose proof (split_pieces NL content) as P. rewrite Forall_forall in P.
    destruct (P line Hl) as [Hn _]. intros Hx. apply Hn.
    exact (In_cleanLine _ _ Hx).
Qed.

Lemma getAISuggestions_return_bounded_witness :
  getAISuggestions fiveLines (lit "one") (lit "Spanish") geminiWithKey None
  = Return [lit "uno"; lit "dos"; lit "tres"]
  /\ (length [lit "uno"; lit "dos"; lit "tres"] <= 3)%nat.
Proof.
  assert (H : getAISuggestions fiveLines (lit "one") (lit "Spanish")
                               geminiWithKey None
              = Return [lit "uno"; lit "dos"; lit "tres"])
    by (vm_compute; reflexivity).
  split; [exact H|].
  exact (proj1 (getAISuggestions_return_bounded _ _ _ _ _ _ H)).
Defined.

(** ** Counts and filters *)

Lemma filter_length_mono (A : Type) (p q : A -> bool) (l : list A) :
  (forall x, p x = true -> q x = true) ->
  (length (filter p l) <= length (filter q l))%nat.
Proof.
  intros H. induction l as [|x l IH]; [reflexivity|]. cbn [filter].
  destruct (p x) eqn:Ep.
  - rewrite (H x Ep). cbn [length]. lia.
  - destruct (q x); cbn [length]; lia.
Qed.

Lemma filter_all (A : Type) (l : list A) : filter (fun _ => true) l = l.
Proof. induction l as [|x l IH]; [reflexivity|]. cbn [filter]. now rewrite IH. Qed.

Lemma matchesFilter_translated (e : TranslationEntry) :
  matchesFilter FTranslated e = negb (isPending (status e)).
Proof. unfold matchesFilter, isPending. destruct (status e); reflexivity. Qed.

(** X22: the three counts add up, the list under a filter is never longer
    than the count on the button of the filter, and with an empty search
    text it is exactly as long. *)
Theorem filteredEntries_badge (lower : str -> str) (ui : UiState) :
  total (stats ui) = (translated (stats ui) + pending (stats ui))%nat
  /\ (length (filteredEntries lower ui) <= badge (filterType ui) ui)%nat
  /\ length (filteredEntries lower (setSearchQuery [] ui))
     = badge (filterType ui) ui.
Proof.
  unfold filteredEntries, badge, stats, setSearchQuery.
  cbn [uiCore filterType searchQuery].
  destruct (poData (uiCore ui)) as [po|];
    [|destruct (filterType ui); repeat split; reflexivity].
  split; [|split].
  - cbn [total translated pending]. symmetry.
    apply (filter_partition_length _ (fun e => isPending (status e))).
  - destruct (filterType ui); cbn [total translated pending].
    + rewrite <- (filter_all _ (entries po)) at 2.
      apply filter_length_mono. reflexivity.
    + apply filter_length_mono. intros e H.
      apply andb_true_iff in H as [H _]. exact H.
    + apply filter_length_mono. intros e H.
      apply andb_true_iff in H as [H _].
      rewrite matchesFilter_translated in H. exact H.
  - unfold matchesSearch. cbn [truthy negb orb].
    destruct (filterType ui); cbn [total translated pending].
    + f_equal. apply filter_all.
    + f_equal. apply filter_ext. intros e. apply andb_true_r.
    + f_equal. apply filter_ext. intros e.
      rewrite matchesFilter_translated. apply andb_true_r.
Qed.

(** ** Edits *)

Lemma id_withMsgstr (e : TranslationEntry) (s : str) :
  id (withMsgstr e s) = id e.
Proof. reflexivity. Qed.

Lemma withMsgstr_twice (e : TranslationEntry) (s1 s2 : str) :
  withMsgstr (withMsgstr e s1) s2 = withMsgstr e s2.
Proof. reflexivity. Qed.

(** X23: of two edits of the same entry the later one decides: the state
    is as if the earlier one had not been made. *)
Theorem updateTranslation_last_wins (i s1 s2 : str) (st : AppState) :
  updateTranslation i s2 (updateTranslation i s1 st)
  = updateTranslation i s2 st.
Proof.
  unfold updateTranslation. destruct (poData st) as [po|] eqn:Ep.
  - cbn [poData selectedEntry headers entries]. f_equal.
    + f_equal. f_equal. unfold updateEntries. rewrite map_map.
      apply map_ext. intros e. destruct (eqs (id e) i) eqn:E.
      * rewrite id_withMsgstr, E. apply withMsgstr_twice.
      * rewrite E. reflexivity.
    + destruct (selectedEntry st) as [sel|]; [|reflexivity].
      destruct (eqs (id sel) i) eqn:E.
      * rewrite id_withMsgstr, E. reflexivity.
      * rewrite E. reflexivity.
  - rewrite Ep. reflexivity.
Qed.

(** X24: edits of entries with different ids can be made in either
    order. *)
Theorem updateTranslation_commute (i j a b : str) (st : AppState) :
  i <> j ->
  updateTranslation i a (updateTranslation j b st)
  = updateTranslation j b (updateTranslation i a st).
Proof.
  intros Hij. unfold updateTranslation.
  destruct (poData st) as [po|] eqn:Ep.
  - cbn [poData selectedEntry headers entries]. f_equal.
    + f_equal. f_equal. unfold updateEntries. rewrite !map_map.
      apply map_ext. intros e.
      destruct (eqs_reflect (id e) i) as [Ei|Ei];
        destruct (eqs_reflect (id e) j) as [Ej|Ej];
        try congruence; rewrite ?id_withMsgstr;
        repeat match goal with
               | |- context [eqs (id e) ?k] =>
                   destruct (eqs_reflect (id e) k); try congruence
               end.
    + destruct (selectedEntry st) as [sel|]; [|reflexivity].
      destruct (eqs_reflect (id sel) i) as [Ei|Ei];
        destruct (eqs_reflect (id sel) j) as [Ej|Ej];
        try congruence; rewrite ?id_withMsgstr;
        repeat match goal with
               | |- context [eqs (id sel) ?k] =>
                   destruct (eqs_reflect (id sel) k); try congruence
               end.
  - rewrite Ep. reflexivity.
Qed.

Lemma updateTranslation_commute_witness :
  updateTranslation (lit "_Hello") (lit "Buenas")
    (updateTranslation (lit "_Bye") (lit "Adi" ++ [243%N] ++ lit "s")
                       twoEntryState)
  = updateTranslation (lit "_Bye") (lit "Adi" ++ [243%N] ++ lit "s")
      (updateTranslation (lit "_Hello") (lit "Buenas") twoEntryState).
Proof.
  apply (updateTranslation_commute (lit "_Hello") (lit "_Bye")).
  discriminate.
Defined.

Lemma withSuggestion_withMsgstr (e : TranslationEntry) (s : str) :
  s <> [] -> withSuggestion e s = withMsgstr e s.
Proof.
  intros H. unfold withSuggestion, withMsgstr.
  rewrite statusOf_translated by exact H. reflexivity.
Qed.

(** X25: applying a suggestion that is not empty changes the catalog and
    the selected entry as typing the suggestion into the text area does,
    and it clears the list of suggestions. *)
Theorem applySuggestion_as_edit (suggestion : str) (ui : UiState)
        (sel : TranslationEntry) (po : ParsedPO) :
  selectedEntry (uiCore ui) = Some sel -> poData (uiCore ui) = Some po ->
  suggestion <> [] ->
  uiCore (applySuggestion suggestion ui)
  = uiCore (editTranslation (id sel) suggestion ui)
  /\ aiSuggestions (applySuggestion suggestion ui) = [].
Proof.
  intros Es Ep Hne. unfold applySuggestion, editTranslation, setCore,
    updateTranslation. rewrite Es, Ep. cbn [uiCore aiSuggestions].
  split; [|reflexivity]. rewrite eqs_refl. f_equal.
  - f_equal. f_equal. unfold updateEntries. apply map_ext. intros e.
    rewrite withSuggestion_withMsgstr by exact Hne. reflexivity.
  - rewrite withSuggestion_withMsgstr by exact Hne. reflexivity.
Qed.

Lemma applySuggestion_as_edit_witness :
  uiCore (applySuggestion (lit "Chao") sessionSuggested)
  = uiCore (editTranslation (lit "_Bye") (lit "Chao") sessionSuggested)
  /\ aiSuggestions (applySuggestion (lit "Chao") sessionSuggested) = [].
Proof.
  apply (applySuggestion_as_edit
           (lit "Chao") sessionSuggested
           (mkEntry (lit "_Bye") (lit "Bye") [] None None Pending)
           (parsePOFile helloBye)).
  - reflexivity.
  - reflexivity.
  - discriminate.
Defined.

(** ** The states that can be reached *)

Lemma entryShape_withMsgstr (e : TranslationEntry) (s : str) :
  entryShape e -> entryShape (withMsgstr e s).
Proof.
  intros (H1 & _ & H3 & H4). unfold entryShape, withMsgstr.
  cbn [id msgid msgstr context comments status].
  split; [exact H1|]. split; [reflexivity|]. split; [exact H3|exact H4].
Qed.

Lemma uiInv_loadFile (name content : str) (ui : UiState) :
  uiInv (loadFile name content ui).
Proof.
  unfold uiInv, loadFile. cbn [uiCore poData selectedEntry aiSuggestions].
  split; [|split; [|split]].
  - intros po E. injection E as <-.
    split; [apply headersInv_parsePOFile|apply entryShape_parsePOFile].
  - discriminate.
  - cbn [length]. lia.
  - constructor.
Qed.

Lemma uiInv_retranslate (s : str) (ui : UiState) (sel : TranslationEntry)
      (po : ParsedPO) (suggestions : list str) :
  uiInv ui ->
  selectedEntry (uiCore ui) = Some sel -> poData (uiCore ui) = Some po ->
  (length suggestions <= 3)%nat -> Forall (fun x => x <> []) suggestions ->
  uiInv (mkUi (mkApp (Some (mkPO (headers po)
                                 (updateEntries (id sel) s (entries po))))
                     (Some (withMsgstr sel s)))
              (fileName ui) (filterType ui) (searchQuery ui) (isLoading ui)
              suggestions (showSettings ui) (aiSettings ui)
              (errorMessage ui)).
Proof.
  intros (Hp & Hs & _) Es Ep Hl Hn. unfold uiInv.
  cbn [uiCore poData selectedEntry aiSuggestions].
  destruct (Hp po Ep) as [Hh He].
  split; [|split; [|split]]; try assumption.
  - intros po' E. injection E as <-. cbn [headers entries].
    split; [exact Hh|]. unfold updateEntries.
    apply Forall_forall. intros e' H'. apply in_map_iff in H' as (e & <- & Hin).
    rewrite Forall_forall in He.
    destruct (eqs (id e) (id sel)); [apply entryShape_withMsgstr|]; auto.
  - intros sel' E. injection E as <-. eexists. split; [reflexivity|].
    cbn [entries]. destruct (Hs sel Es) as (po0 & Ep0 & Hin).
    rewrite Ep in Ep0. injection Ep0 as <-. unfold updateEntries.
    apply in_map_iff. exists sel. rewrite eqs_refl. auto.
Qed.

Lemma uiInv_same_core (ui ui' : UiState) :
  uiCore ui' = uiCore ui ->
  (length (aiSuggestions ui') <= 3)%nat ->
  Forall (fun s => s <> []) (aiSuggestions ui') ->
  uiInv ui -> uiInv ui'.
Proof.
  intros Ec Hl Hn (Hp & Hs & _). unfold uiInv. rewrite Ec.
  repeat split; try assumption; apply Hp; assumption.
Qed.

Lemma reachable_uiInv (lower : str -> str) (ui : UiState) :
  reachable lower ui -> uiInv ui.
Proof.
  induction 1 as [settings|file ui _ IH|file ui _ IH|entry ui _ IH Hin
                  |sel s ui _ IH Es|sel ui _ IH Es Hl
                  |respond text lang settings ctx ui _ IH
                  |s ui _ IH Hs|f ui _ IH|q ui _ IH|b ui _ IH|st ui _ IH].
  - unfold uiInv, initialUi. cbn [uiCore poData selectedEntry aiSuggestions].
    repeat split; try discriminate; [cbn [length]; lia|constructor].
  - destruct file as [[name content]|]; [apply uiInv_loadFile|exact IH].
  - destruct file as [[name content]|]; [|exact IH]. cbn [handleDrop].
    destruct (endsWith kw_dotpo name); [apply uiInv_loadFile|exact IH].
  - destruct IH as (Hp & _ & _). unfold uiInv, handleSelectEntry.
    cbn [uiCore poData selectedEntry aiSuggestions].
    split; [exact Hp|]. split; [|split; [cbn [length]; lia|constructor]].
    intros sel E. injection E as <-. unfold filteredEntries in Hin.
    destruct (poData (uiCore ui)) as [po|]; [|destruct Hin].
    exists po. split; [reflexivity|]. apply filter_In in Hin as [Hin _].
    exact Hin.
  - pose proof IH as (Hp & Hsel & Hl & Hn).
    destruct (Hsel sel Es) as (po & Ep & Hin).
    unfold editTranslation, setCore, updateTranslation. rewrite Ep, Es.
    rewrite eqs_refl. apply (uiInv_retranslate s ui sel po); assumption.
  - pose proof IH as (_ & _ & Hn1 & Hn2). unfold suggestStart.
    destruct (negb (truthy (hasKey (aiSettings ui)))).
    + apply (uiInv_same_core ui); [reflexivity|exact Hn1|exact Hn2|exact IH].
    + apply (uiInv_same_core ui);
        [reflexivity|cbn [aiSuggestions length]; lia|constructor|exact IH].
  - destruct (getAISuggestions respond text lang settings ctx) as [l|m] eqn:E.
    + apply getAISuggestions_Return in E as [content ->].
      destruct (parseTranslations_small content) as [H1 H2].
      apply (uiInv_same_core ui); [reflexivity|exact H1|exact H2|exact IH].
    + pose proof IH as (_ & _ & Hn1 & Hn2).
      apply (uiInv_same_core ui); [reflexivity|exact Hn1|exact Hn2|exact IH].
  - pose proof IH as (Hp & Hsel & Hl & Hn). unfold applySuggestion.
    destruct (selectedEntry (uiCore ui)) as [sel|] eqn:Es; [|exact IH].
    destruct (poData (uiCore ui)) as [po|] eqn:Ep; [|exact IH].
    assert (Hne : s <> []) by (rewrite Forall_forall in Hn; exact (Hn s Hs)).
    rewrite withSuggestion_withMsgstr by exact Hne.
    replace (map _ (entries po))
      with (updateEntries (id sel) s (entries po)).
    + apply (uiInv_retranslate s ui sel po); try assumption;
        [cbn [length]; lia|constructor].
    + unfold updateEntries. apply map_ext. intros e.
      rewrite withSuggestion_withMsgstr by exact Hne. reflexivity.
  - pose proof IH as (_ & _ & Hn1 & Hn2).
    apply (uiInv_same_core ui); [reflexivity|exact Hn1|exact Hn2|exact IH].
  - pose proof IH as (_ & _ & Hn1 & Hn2).
    apply (uiInv_same_core ui); [reflexivity|exact Hn1|exact Hn2|exact IH].
  - pose proof IH as (_ & _ & Hn1 & Hn2).
    apply (uiInv_same_core ui); [reflexivity|exact Hn1|exact Hn2|exact IH].
  - pose proof IH as (_ & _ & Hn1 & Hn2).
    apply (uiInv_same_core ui); [reflexivity|exact Hn1|exact Hn2|exact IH].
Qed.

Lemma sessionEdited_reachable (lower : str -> str) :
  reachable lower sessionEdited.
Proof.
  unfold sessionEdited.
  apply (r_edit lower entryBye); [|reflexivity].
  apply r_select; [apply r_upload, r_initial|].
  unfold filteredEntries, sessionLoaded, matchesSearch.
  cbn [handleFileUpload loadFile initialUi uiCore poData filterType
       searchQuery truthy negb orb matchesFilter andb].
  apply filter_In. split; [|reflexivity].
  vm_compute. right. left. reflexivity.
Qed.

(** X26: in every state that the view can reach, the status of an entry
    is pending exactly when its [msgstr] is empty and is never
    ai-suggested, every entry has the id derived from its context and
    [msgid], the selected entry is one of the entries of the catalog, and
    at most three suggestions, none of them empty, are shown. *)
Theorem reachable_invariant (lower : str -> str) (ui : UiState) :
  reachable lower ui ->
  (forall po e,
      poData (uiCore ui) = Some po -> In e (entries po) ->
      (status e = Pending <-> msgstr e = [])
      /\ status e <> AiSuggested
      /\ id e = entryId (context e) (msgid e))
  /\ (forall sel,
         selectedEntry (uiCore ui) = Some sel ->
         exists po, poData (uiCore ui) = Some po /\ In sel (entries po))
  /\ (length (aiSuggestions ui) <= 3)%nat
  /\ (forall s, In s (aiSuggestions ui) -> s <> []).
Proof.
  intros H. apply reachable_uiInv in H as (Hp & Hs & Hl & Hn).
  split; [|split; [exact Hs|split; [exact Hl|]]].
  - intros po e Ep He. destruct (Hp po Ep) as [_ Hf].
    rewrite Forall_forall in Hf. destruct (Hf e He) as (H1 & H2 & _).
    rewrite H2. split; [apply statusOf_pending|].
    split; [apply statusOf_not_suggested|exact H1].
  - rewrite Forall_forall in Hn. exact Hn.
Qed.

Lemma reachable_invariant_witness :
  selectedEntry (uiCore sessionEdited)
  = Some (mkEntry (lit "_Bye") (lit "Bye") (lit "Adi" ++ [243%N] ++ lit "s")
                  None None Translated)
  /\ exists po, poData (uiCore sessionEdited) = Some po
                /\ In (mkEntry (lit "_Bye") (lit "Bye")
                               (lit "Adi" ++ [243%N] ++ lit "s")
                               None None Translated)
                      (entries po).
Proof.
  assert (E : selectedEntry (uiCore sessionEdited)
              = Some (mkEntry (lit "_Bye") (lit "Bye")
                              (lit "Adi" ++ [243%N] ++ lit "s")
                              None None Translated))
    by (vm_compute; reflexivity).
  split; [exact E|].
  exact (proj1 (proj2 (reachable_invariant (fun s => s) sessionEdited
                         (sessionEdited_reachable (fun s => s)))) _ E).
Defined.

(** ** Export *)

(** X27: when the catalog of a state that can be reached is
    [roundtripSafe], parsing the text that [handleExport] offers gives
    the catalog back, with the edits made so far. *)
Theorem reachable_export_reimport (lower : str -> str) (ui : UiState)
        (po : ParsedPO) (name content : str) :
  reachable lower ui ->
  poData (uiCore ui) = Some po -> roundtripSafe po = true ->
  handleExport lower ui = Some (name, content) ->
  parsePOFile content = po.
Proof.
  intros H Ep S Ex. apply reachable_uiInv in H as (Hp & _).
  destruct (Hp po Ep) as [[Ho Hs] He].
  unfold handleExport in Ex. rewrite Ep in Ex. cbv zeta in Ex.
  injection Ex as _ <-.
  unfold roundtripSafe in S. apply andb_true_iff in S as [Sh Se].
  apply roundtrip_wellformed.
  - exact (Forall_and_forallb _ _ _ _ _ headerWf_of_shape Hs Sh).
  - apply objInv_canonical, Ho.
  - exact (Forall_and_forallb _ _ _ _ _ entryWf_of_shape He Se).
Qed.

Lemma reachable_export_reimport_witness :
  handleExport (fun s => s) sessionEdited
  = Some (lit "es.po", generatePOFile editedCatalog)
  /\ parsePOFile (generatePOFile editedCatalog) = editedCatalog.
Proof.
  assert (E : handleExport (fun s => s) sessionEdited
              = Some (lit "es.po", generatePOFile editedCatalog))
    by (vm_compute; reflexivity).
  split; [exact E|].
  apply (reachable_export_reimport (fun s => s) sessionEdited editedCatalog
                                   (lit "es.po") _
                                   (sessionEdited_reachable (fun s => s))).
  - vm_compute. reflexivity.
  - vm_compute. reflexivity.
  - exact E.
Defined.

Lemma endsWith_app (p s : str) : endsWith p (s ++ p) = true.
Proof.
  unfold endsWith. rewrite rev_app_distr.
  induction (rev p) as [|c r IH]; [apply startsWith_nil|].
  cbn [app]. rewrite startsWith_cons, eqc_refl, IH. reflexivity.
Qed.

(** X28: [handleExport] offers nothing when no catalog is loaded;
    otherwise it offers the generated text under a name that is not
    empty and that is the name of the loaded file or ends with [.po]. *)
Theorem handleExport_name (lower : str -> str) (ui : UiState) :
  match handleExport lower ui with
  | None => poData (uiCore ui) = None
  | Some (name, content) =>
      (exists po, poData (uiCore ui) = Some po
                  /\ content = generatePOFile po)
      /\ name <> []
      /\ (name = fileName ui \/ endsWith kw_dotpo name = true)
  end.
Proof.
  unfold handleExport. destruct (poData (uiCore ui)) as [po|];
    [|reflexivity].
  cbv zeta. split; [eauto|].
  destruct (fileName ui) as [|c t] eqn:En; cbn [truthy].
  - destruct (negb (endsWith kw_dotpo (lower kw_defaultName))).
    + split; [|right; apply endsWith_app].
      intros E. apply app_eq_nil in E as [_ E]. discriminate E.
    + split; [discriminate|right; reflexivity].
  - destruct (negb (endsWith kw_dotpo (lower (c :: t)))).
    + split; [|right; apply endsWith_app].
      intros E. apply app_eq_nil in E as [_ E]. discriminate E.
    + split; [discriminate|left; reflexivity].
Qed.

Lemma isExtension_no_dot (t : str) : isExtension t = true -> ~ In 46%N t.
Proof.
  unfold isExtension. intros H. apply andb_true_iff in H as [_ H].
  rewrite forallb_forall in H. intros Hin. specialize (H _ Hin).
  rewrite eqc_refl, orb_true_r in H. discriminate.
Qed.

Lemma isExtension_app_dot (a b : str) : isExtension (a ++ 46%N :: b) = false.
Proof.
  destruct (isExtension (a ++ 46%N :: b)) eqn:E; [|reflexivity].
  exfalso. apply (isExtension_no_dot _ E). apply in_or_app. right. left.
  reflexivity.
Qed.

(** X29: the pattern of [handleExport] removes the last dot of a name
    and what follows it, when one or more characters follow and none of
    them is a slash; a name without a dot stays as it is. *)
Theorem stripExtension_last (base ext name : str) :
  (isExtension ext = true -> stripExtension (base ++ 46%N :: ext) = base)
  /\ (~ In 46%N name -> stripExtension name = name).
Proof.
  split.
  - intros H. induction base as [|c base IH].
    + cbn [app stripExtension]. rewrite eqc_refl, H. reflexivity.
    + cbn [app stripExtension]. rewrite isExtension_app_dot, andb_false_r.
      rewrite IH. reflexivity.
  - induction name as [|c name IH]; intros H; [reflexivity|].
    cbn [stripExtension].
    assert (E : eqc c 46 = false).
    { apply eqc_false. intros ->. apply H. left. reflexivity. }
    rewrite E. cbn [andb]. rewrite IH; [reflexivity|].
    intros Hin. apply H. right. exact Hin.
Qed.

Lemma stripExtension_last_witness :
  stripExtension (lit "messages.es.txt") = lit "messages.es"
  /\ stripExtension (lit "catalog") = lit "catalog".
Proof.
  split.
  - apply (proj1 (stripExtension_last (lit "messages.es") (lit "txt") [])).
    reflexivity.
  - apply (proj2 (stripExtension_last [] [] (lit "catalog"))).
    vm_compute. intros H. repeat destruct H as [H|H]; try discriminate H.
    exact H.
Defined.

(** * Degradation on malformed input *)

(** ** Pieces that differ by a newline at an end *)

Lemma splitBlankRuns_nonempty (inrun : bool) (s : str) :
  splitBlankRuns inrun s <> [].
Proof.
  revert inrun. induction s as [|c s IH]; intros inrun; [discriminate|].
  cbn [splitBlankRuns]. destruct inrun.
  - destruct (eqc c 10); [apply IH|].
    destruct (splitBlankRuns false s); discriminate.
  - destruct (eqc c 10 && startsWith [10%N] s); [discriminate|].
    destruct (splitBlankRuns false s); discriminate.
Qed.

Lemma split_snoc_sep (s : str) : split NL (s ++ [NL]) = split NL s ++ [[]].
Proof.
  induction s as [|c s IH]; [reflexivity|]. cbn [app].
  destruct (N.eq_dec c NL) as [->|Hc].
  - rewrite !split_cons_sep, IH. reflexivity.
  - rewrite !split_cons_other by assumption. rewrite IH.
    destruct (split NL s) eqn:E; [|reflexivity].
    exfalso. exact (split_nonempty _ _ E).
Qed.

Lemma rawOf_snoc_newline (s : str) : rawOf (s ++ [NL]) = rawOf s.
Proof.
  unfold rawOf. rewrite split_snoc_sep, fold_left_app. cbn [fold_left].
  rewrite parseLine_empty. reflexivity.
Qed.

Lemma rawOf_cons_newline (s : str) : rawOf (NL :: s) = rawOf s.
Proof.
  unfold rawOf. rewrite split_cons_sep. cbn [fold_left].
  rewrite parseLine_empty. reflexivity.
Qed.

Lemma nonBlank_snoc_newline (s : str) : nonBlank (s ++ [NL]) = nonBlank s.
Proof.
  unfold nonBlank. f_equal. exact (trim_padded [] s [NL] eq_refl eq_refl).
Qed.

Lemma nonBlank_cons_newline (s : str) : nonBlank (NL :: s) = nonBlank s.
Proof.
  unfold nonBlank. f_equal.
Qed.

Lemma recordsOf_cons (x y : str) (Xs : list str) :
  nonBlank x = nonBlank y -> rawOf x = rawOf y ->
  recordsOf (x :: Xs) = recordsOf (y :: Xs).
Proof.
  intros H1 H2. unfold recordsOf. cbn [filter]. rewrite H1.
  destruct (nonBlank y); cbn [map]; rewrite ?H2; reflexivity.
Qed.

Lemma recordsOf_blank (Xs : list str) : recordsOf ([] :: Xs) = recordsOf Xs.
Proof. reflexivity. Qed.

Lemma edgeEq_same (x y : str) :
  edgeEq x y -> nonBlank x = nonBlank y /\ rawOf x = rawOf y.
Proof.
  intros [->|[->| ->]].
  - split; reflexivity.
  - rewrite nonBlank_snoc_newline, rawOf_snoc_newline. split; reflexivity.
  - rewrite nonBlank_snoc_newline, rawOf_snoc_newline. split; reflexivity.
Qed.

Lemma edgeEq_cons (c : char) (x y : str) :
  edgeEq x y -> edgeEq (c :: x) (c :: y).
Proof.
  intros [->|[->| ->]]; [left|right; left|right; right]; reflexivity.
Qed.

Lemma piecesRel_consHead (T : list RawEntry) (c : char) (X Y : list str) :
  piecesRel T X Y -> piecesRel T (consHead c X) (consHead c Y).
Proof.
  intros [(x & y & Xs & -> & -> & He & Hr)|(y & Xs & Ys & -> & -> & Hr)].
  - left. exists (c :: x), (c :: y), Xs.
    repeat split; [apply edgeEq_cons, He|exact Hr].
  - right. exists (c :: y), Xs, Ys. repeat split. exact Hr.
Qed.

Lemma piecesRel_records (T : list RawEntry) (X Y : list str) :
  piecesRel T X Y -> recordsOf X = recordsOf Y ++ T.
Proof.
  intros [(x & y & Xs & -> & -> & He & Hr)|(y & Xs & Ys & -> & -> & Hr)].
  - destruct (edgeEq_same x y He) as [H1 H2].
    rewrite (recordsOf_cons x y Xs H1 H2). unfold recordsOf in *.
    cbn [filter]. destruct (nonBlank y); cbn [map app]; rewrite Hr;
      reflexivity.
  - unfold recordsOf in *. cbn [filter].
    destruct (nonBlank y); cbn [map app]; rewrite Hr; reflexivity.
Qed.

(** Inside a run of newlines and at the start of a text the scan finds
    the same records. *)
Lemma recordsOf_inrun (s : str) :
  recordsOf (splitBlankRuns true s) = recordsOf (splitBlankRuns false s).
Proof.
  destruct s as [|c t]; [reflexivity|].
  destruct (N.eq_dec c NL) as [->|Hc].
  - change (splitBlankRuns true (NL :: t)) with (splitBlankRuns true t).
    destruct (startsWith [NL] t) eqn:Hs.
    + cbn [splitBlankRuns]. rewrite Hs. reflexivity.
    + rewrite splitBlankRuns_lone, splitBlankRuns_leave by exact Hs.
      destruct (splitBlankRuns false t) as [|p ps] eqn:E;
        [exfalso; exact (splitBlankRuns_nonempty _ _ E)|].
      cbn [consHead]. symmetry. apply recordsOf_cons.
      * apply nonBlank_cons_newline.
      * apply rawOf_cons_newline.
  - rewrite !splitBlankRuns_other by exact Hc. reflexivity.
Qed.

(** ** The records of a text followed by a suffix *)

Lemma splitBlankRuns_hit (t : str) :
  startsWith [NL] t = true ->
  splitBlankRuns false (NL :: t) = [] :: splitBlankRuns true t.
Proof. intros H. simpl. rewrite H. reflexivity. Qed.

Section SplitSuffix.

Variables (z : str) (T : list RawEntry).

Hypothesis suffix_alone : piecesRel T (splitBlankRuns false z) [[]].
Hypothesis suffix_inrun : recordsOf (splitBlankRuns true z) = T.
Hypothesis suffix_after_newline :
  piecesRel T (splitBlankRuns false (NL :: z)) [[NL]].

Lemma splitBlankRuns_suffix (t : str) :
  piecesRel T (splitBlankRuns false (t ++ z)) (splitBlankRuns false t)
  /\ recordsOf (splitBlankRuns true (t ++ z))
     = recordsOf (splitBlankRuns true t) ++ T.
Proof.
  induction t as [|c t [IHf IHt]].
  - split; [exact suffix_alone|exact suffix_inrun].
  - cbn [app]. destruct (N.eq_dec c NL) as [->|Hc].
    + split.
      * destruct t as [|d t'].
        { exact suffix_after_newline. }
        assert (Es : startsWith [NL] ((d :: t') ++ z)
                     = startsWith [NL] (d :: t')) by reflexivity.
        destruct (startsWith [NL] (d :: t')) eqn:Hs.
        { rewrite !splitBlankRuns_hit by assumption.
          right. eexists _, _, _. repeat split. exact IHt. }
        { rewrite !splitBlankRuns_lone by assumption.
          apply piecesRel_consHead, IHf. }
      * change (splitBlankRuns true (NL :: t ++ z))
          with (splitBlankRuns true (t ++ z)).
        change (splitBlankRuns true (NL :: t)) with (splitBlankRuns true t).
        exact IHt.
    + rewrite !(splitBlankRuns_other _ c) by exact Hc. split.
      * apply piecesRel_consHead, IHf.
      * apply piecesRel_records, piecesRel_consHead, IHf.
Qed.

Lemma recordsOf_suffix (t : str) :
  recordsOf (splitBlankRuns false (t ++ z))
  = recordsOf (splitBlankRuns false t) ++ T.
Proof. apply piecesRel_records, splitBlankRuns_suffix. Qed.

End SplitSuffix.

Lemma recordsOf_blank_run (t next : str) :
  recordsOf (splitBlankRuns false (t ++ NL :: NL :: next))
  = recordsOf (splitBlankRuns false t)
    ++ recordsOf (splitBlankRuns false next).
Proof.
  apply recordsOf_suffix.
  - left. exists [], [], (splitBlankRuns true next).
    repeat split; [left; reflexivity|apply recordsOf_inrun].
  - change (splitBlankRuns true (NL :: NL :: next))
      with (splitBlankRuns true next).
    apply recordsOf_inrun.
  - left. exists [], [NL], (splitBlankRuns true next).
    repeat split; [right; left; reflexivity|apply recordsOf_inrun].
Qed.

Lemma recordsOf_final_newline (t : str) :
  recordsOf (splitBlankRuns false (t ++ [NL]))
  = recordsOf (splitBlankRuns false t).
Proof.
  rewrite <- (app_nil_r (recordsOf (splitBlankRuns false t))).
  apply recordsOf_suffix.
  - left. exists [NL], [], []. repeat split. right. right. reflexivity.
  - reflexivity.
  - left. exists [], [NL], [[]]. repeat split. right. left. reflexivity.
Qed.

(** ** Line ends at the seam *)

Lemma replace2_snoc_second (x : str) :
  exists v,
    replace2 CR NL [NL] (x ++ [NL]) = v ++ [NL]
    /\ (replace2 CR NL [NL] x = v \/ replace2 CR NL [NL] x = v ++ [CR]).
Proof.
  assert (G : forall x,
             (exists v,
                 replace2 CR NL [NL] (x ++ [NL]) = v ++ [NL]
                 /\ (replace2 CR NL [NL] x = v
                     \/ replace2 CR NL [NL] x = v ++ [CR]))
             /\ forall c, exists v,
                 replace2 CR NL [NL] ((c :: x) ++ [NL]) = v ++ [NL]
                 /\ (replace2 CR NL [NL] (c :: x) = v
                     \/ replace2 CR NL [NL] (c :: x) = v ++ [CR])).
  { clear x. induction x as [|d x [IH1 IH2]].
    - split; [exists []; split; [reflexivity|left; reflexivity]|].
      intros c. cbn [app]. destruct (N.eq_dec c CR) as [->|Hc].
      + exists []. split; [reflexivity|right; reflexivity].
      + rewrite replace2_skip_head by assumption. exists [c].
        split; [reflexivity|left; reflexivity].
    - split; [apply IH2|]. intros c. cbn [app].
      destruct (N.eq_dec c CR) as [->|Hc].
      + destruct (N.eq_dec d NL) as [->|Hd].
        * rewrite !replace2_hit. destruct IH1 as (v & E1 & E2).
          exists (NL :: v). cbn [app]. split; [f_equal; exact E1|].
          destruct E2 as [E2|E2]; [left|right]; f_equal; exact E2.
        * rewrite !(replace2_skip_second CR NL CR d) by assumption.
          destruct (IH2 d) as (v & E1 & E2).
          exists (CR :: v). cbn [app]. split; [f_equal; exact E1|].
          destruct E2 as [E2|E2]; [left|right]; f_equal; exact E2.
      + rewrite !(replace2_skip_head CR NL c) by assumption.
        destruct (IH2 d) as (v & E1 & E2).
        exists (c :: v). cbn [app]. split; [f_equal; exact E1|].
        destruct E2 as [E2|E2]; [left|right]; f_equal; exact E2. }
  apply G.
Qed.

Lemma normalizeNewlines_snoc_cases (s1 : str) :
  exists u,
    normalizeNewlines (s1 ++ [NL]) = u ++ [NL]
    /\ (normalizeNewlines s1 = u \/ normalizeNewlines s1 = u ++ [NL]).
Proof.
  unfold normalizeNewlines.
  destruct (replace2_snoc_second s1) as (v & E1 & E2).
  exists (replace1 CR [NL] v). split.
  - transitivity (replace1 CR [NL] (v ++ [NL])); [f_equal; exact E1|].
    apply replace1_app.
  - destruct E2 as [E2|E2]; [left; f_equal; exact E2|right].
    transitivity (replace1 CR [NL] (v ++ [CR])); [f_equal; exact E2|].
    apply replace1_app.
Qed.

(** ** Texts separated by an empty line *)

Lemma rawBlocks_app (s1 s2 : str) :
  rawBlocks (s1 ++ [NL; NL] ++ s2) = rawBlocks s1 ++ rawBlocks s2.
Proof.
  unfold rawBlocks, splitBlocks. fold (recordsOf).
  change (map rawOf (filter nonBlank ?X)) with (recordsOf X).
  cbn [app].
  rewrite (normalizeNewlines_newline s1 (NL :: s2)).
  rewrite normalizeNewlines_cons_newline.
  destruct (normalizeNewlines_snoc_cases s1) as (u & E1 & E2).
  rewrite E1, <- app_assoc. cbn [app].
  rewrite recordsOf_blank_run. f_equal.
  destruct E2 as [->| ->]; [reflexivity|].
  symmetry. apply recordsOf_final_newline.
Qed.

Lemma overlays_feedHeaders (raws : list RawEntry) :
  overlays (fun hs => fold_left feedHeaders raws hs).
Proof.
  induction raws as [|r raws IH]; cbn [fold_left].
  - apply overlays_id.
  - exact (overlays_compose (fun hs => feedHeaders hs r) _
             (overlays_parseHeaders (r_msgstr r)) IH).
Qed.

Lemma parsePOFile_app (s1 s2 : str) :
  entries (parsePOFile (s1 ++ [NL; NL] ++ s2))
  = entries (parsePOFile s1) ++ entries (parsePOFile s2)
  /\ forall k,
       objGet k (headers (parsePOFile (s1 ++ [NL; NL] ++ s2)))
       = match objGet k (headers (parsePOFile s2)) with
         | Some v => Some v
         | None => objGet k (headers (parsePOFile s1))
         end.
Proof.
  split.
  - rewrite !parsePOFile_entries, rawBlocks_app, filter_app, map_app.
    reflexivity.
  - intros k. rewrite !parsePOFile_headers, rawBlocks_app, filter_app.
    rewrite fold_left_app.
    apply (overlays_feedHeaders (filter isHeaderRaw (rawBlocks s2))).
Qed.

(** ** Lines without effect and missing fields *)

Lemma parseLine_noEffect (st : BlockState) (line : str) :
  noEffectLine line = true -> parseLine st line = st.
Proof.
  unfold noEffectLine, parseLine. cbv zeta.
  destruct (negb (truthy (trim line))); [reflexivity|]. cbn [orb].
  destruct (startsWith [HASH] (trim line)); intros H.
  - apply andb_true_iff in H as [H1 H2]. apply negb_true_iff in H1, H2.
    rewrite H1, H2. reflexivity.
  - apply andb_true_iff in H as [H H4]. apply andb_true_iff in H as [H H3].
    apply andb_true_iff in H as [H1 H2].
    apply negb_true_iff in H1, H2, H3, H4. rewrite H1, H2, H3, H4.
    reflexivity.
Qed.

Lemma fold_parseLine_effective (lines : list str) (st : BlockState) :
  fold_left parseLine (filter (fun l => negb (noEffectLine l)) lines) st
  = fold_left parseLine lines st.
Proof.
  revert st. induction lines as [|l lines IH]; intros st; [reflexivity|].
  cbn [filter fold_left]. destruct (noEffectLine l) eqn:E; cbn [negb].
  - rewrite (parseLine_noEffect st l E). apply IH.
  - cbn [fold_left]. apply IH.
Qed.

Lemma parseLine_notMsgstr (st : BlockState) (line : str) :
  notMsgstrLine line = true ->
  b_msgstr st = [] -> b_currentField st <> Some FMsgstr ->
  b_msgstr (parseLine st line) = []
  /\ b_currentField (parseLine st line) <> Some FMsgstr.
Proof.
  unfold notMsgstrLine. intros H Hm Hf. apply negb_true_iff in H.
  unfold parseLine. cbv zeta. rewrite H.
  repeat destr_if; cbn [b_msgstr b_currentField addComment];
    try (split; [assumption|first [assumption|discriminate]]).
  unfold continueField.
  destruct (b_currentField st) as [[]|] eqn:Ef;
    cbn [b_msgstr b_currentField];
    first [exfalso; apply Hf; reflexivity
          |split; [assumption|congruence]].
Qed.

Lemma parseLine_notMsgctxt (st : BlockState) (line : str) :
  notMsgctxtLine line = true ->
  b_context st = None -> b_currentField st <> Some FMsgctxt ->
  b_context (parseLine st line) = None
  /\ b_currentField (parseLine st line) <> Some FMsgctxt.
Proof.
  unfold notMsgctxtLine. intros H Hm Hf. apply negb_true_iff in H.
  unfold parseLine. cbv zeta. rewrite H.
  repeat destr_if; cbn [b_context b_currentField addComment];
    try (split; [assumption|first [assumption|discriminate]]).
  unfold continueField.
  destruct (b_currentField st) as [[]|] eqn:Ef;
    cbn [b_context b_currentField];
    first [exfalso; apply Hf; reflexivity
          |split; [assumption|congruence]].
Qed.

Lemma rawOf_without_msgstr (block : str) :
  forallb notMsgstrLine (split NL block) = true -> r_msgstr (rawOf block) = [].
Proof.
  intros H. unfold rawOf, finishBlock. cbn [r_msgstr].
  assert (G : forall lines st,
             forallb notMsgstrLine lines = true ->
             b_msgstr st = [] -> b_currentField st <> Some FMsgstr ->
             b_msgstr (fold_left parseLine lines st) = []).
  { induction lines as [|l lines IH]; intros st Hl Hm Hf; [exact Hm|].
    cbn [forallb] in Hl. apply andb_true_iff in Hl as [Hl Hrest].
    cbn [fold_left].
    destruct (parseLine_notMsgstr st l Hl Hm Hf) as [A B].
    apply IH; assumption. }
  apply G; [exact H|reflexivity|discriminate].
Qed.

Lemma rawOf_without_msgctxt (block : str) :
  forallb notMsgctxtLine (split NL block) = true ->
  r_context (rawOf block) = None.
Proof.
  intros H. unfold rawOf, finishBlock. cbn [r_context].
  assert (G : forall lines st,
             forallb notMsgctxtLine lines = true ->
             b_context st = None -> b_currentField st <> Some FMsgctxt ->
             b_context (fold_left parseLine lines st) = None).
  { induction lines as [|l lines IH]; intros st Hl Hm Hf; [exact Hm|].
    cbn [forallb] in Hl. apply andb_true_iff in Hl as [Hl Hrest].
    cbn [fold_left].
    destruct (parseLine_notMsgctxt st l Hl Hm Hf) as [A B].
    apply IH; assumption. }
  apply G; [exact H|reflexivity|discriminate].
Qed.

Lemma parseLine_field (st : BlockState) (line rest : str) :
  (trim line = kw_msgid ++ rest ->
   parseLine st line
   = mkBlock (extractString rest) (b_msgstr st) (b_context st)
             (b_comments st) (Some FMsgid))
  /\ (trim line = kw_msgstr ++ rest ->
      parseLine st line
      = mkBlock (b_msgid st) (extractString rest) (b_context st)
                (b_comments st) (Some FMsgstr))
  /\ (trim line = kw_msgctxt ++ rest ->
      parseLine st line
      = mkBlock (b_msgid st) (b_msgstr st) (Some (extractString rest))
                (b_comments st) (Some FMsgctxt)).
Proof.
  repeat split; intros E; unfold parseLine; cbv zeta; rewrite E;
    reflexivity.
Qed.

Lemma fold_parseLine_noEffect (lines : list str) (st : BlockState) :
  forallb noEffectLine lines = true -> fold_left parseLine lines st = st.
Proof.
  revert st. induction lines as [|l lines IH]; intros st H; [reflexivity|].
  cbn [forallb] in H. apply andb_true_iff in H as [Hl Hrest].
  cbn [fold_left]. rewrite (parseLine_noEffect st l Hl). apply IH, Hrest.
Qed.

Lemma rawOfLines_lone_msgid (before after : list str) (line v : str) :
  forallb noEffectLine before = true -> forallb noEffectLine after = true ->
  trim line = kw_msgid ++ v ->
  rawOfLines (before ++ line :: after) = mkRaw (extractString v) [] None None.
Proof.
  intros Hb Ha E. unfold rawOfLines. rewrite fold_left_app.
  rewrite (fold_parseLine_noEffect before initBlock Hb). cbn [fold_left].
  rewrite (proj1 (parseLine_field initBlock line v) E).
  rewrite (fold_parseLine_noEffect after _ Ha). reflexivity.
Qed.

(** ** The claim *)

(** C3: [parsePOFile] is a total function on strings, made of string
    operations that do not throw; the two values that can be null, the
    match of [extractString] and the result of [parseBlock], are tested
    before they are used, and [parseBlock] never returns null.  What the
    parser does with malformed text is the following.  The catalog is
    made of the records of the blocks that are not blank, each of which
    becomes an entry or feeds the headers.  Text after an empty line is
    parsed as if it stood alone, whatever comes before it: the entries of
    the two parts follow each other, and a header is the one of the
    second part or else the one of the first.  In a block, a blank line,
    a comment of another kind than [#.] and [#:] and a line of no known
    form leave the record as it is, so the record is that of the other
    lines; a field line stores what follows the keyword, unescaped when
    it is a quoted string and as it is otherwise; a block with one
    [msgid] line among lines without effect gives the record with that
    [msgid] and nothing else; without a [msgstr] line the [msgstr] is
    empty, and without a [msgctxt] line there is no context. *)
Theorem parsePOFile_total :
  (forall block, parseBlock block = Some (rawOf block))
  /\ (forall content,
         headers (parsePOFile content)
         = fold_left feedHeaders (filter isHeaderRaw (rawBlocks content)) []
         /\ entries (parsePOFile content)
            = map entryOfRaw
                  (filter (fun r => negb (isHeaderRaw r)) (rawBlocks content))
         /\ (length (entries (parsePOFile content))
             + length (filter isHeaderRaw (rawBlocks content))
             = length (filter nonBlank
                              (splitBlocks (normalizeNewlines content))))%nat)
  /\ (forall s1 s2,
         entries (parsePOFile (s1 ++ [NL; NL] ++ s2))
         = entries (parsePOFile s1) ++ entries (parsePOFile s2)
         /\ forall k,
              objGet k (headers (parsePOFile (s1 ++ [NL; NL] ++ s2)))
              = match objGet k (headers (parsePOFile s2)) with
                | Some v => Some v
                | None => objGet k (headers (parsePOFile s1))
                end)
  /\ (forall st line, noEffectLine line = true -> parseLine st line = st)
  /\ (forall block,
         rawOf block
         = rawOfLines (filter (fun l => negb (noEffectLine l))
                              (split NL block)))
  /\ (forall st line rest,
         (trim line = kw_msgid ++ rest ->
          parseLine st line
          = mkBlock (extractString rest) (b_msgstr st) (b_context st)
                    (b_comments st) (Some FMsgid))
         /\ (trim line = kw_msgstr ++ rest ->
             parseLine st line
             = mkBlock (b_msgid st) (extractString rest) (b_context st)
                       (b_comments st) (Some FMsgstr))
         /\ (trim line = kw_msgctxt ++ rest ->
             parseLine st line
             = mkBlock (b_msgid st) (b_msgstr st)
                       (Some (extractString rest))
                       (b_comments st) (Some FMsgctxt)))
  /\ (forall v, (forall body, v <> DQ :: body ++ [DQ]) -> extractString v = v)
  /\ (forall before after line v,
         forallb noEffectLine before = true ->
         forallb noEffectLine after = true ->
         trim line = kw_msgid ++ v ->
         rawOfLines (before ++ line :: after)
         = mkRaw (extractString v) [] None None)
  /\ (forall block,
         forallb notMsgstrLine (split NL block) = true ->
         r_msgstr (rawOf block) = [])
  /\ (forall block,
         forallb notMsgctxtLine (split NL block) = true ->
         r_context (rawOf block) = None).
Proof.
  split; [intros block; apply parseBlock_rawOf|].
  split.
  { intros content. split; [apply parsePOFile_headers|].
    split; [apply parsePOFile_entries|].
    rewrite parsePOFile_entries, length_map, filter_partition_length.
    unfold rawBlocks. apply length_map. }
  split; [exact parsePOFile_app|].
  split; [exact parseLine_noEffect|].
  split.
  { intros block. unfold rawOf, rawOfLines.
    rewrite fold_parseLine_effective. reflexivity. }
  split; [exact parseLine_field|].
  split.
  { intros v H. unfold extractString.
    destruct (matchQuoted v) as [body|] eqn:E; [|reflexivity].
    apply matchQuoted_inv in E as [E _]. exfalso. exact (H body E). }
  split; [exact rawOfLines_lone_msgid|].
  split; [exact rawOf_without_msgstr|exact rawOf_without_msgctxt].
Qed.

Lemma parsePOFile_total_witness :
  entries (parsePOFile brokenBlock)
  = [mkEntry ([95%N; DQ] ++ lit "unterminated") ([DQ] ++ lit "unterminated")
             [] None None Pending]
  /\ entries (parsePOFile (brokenBlock ++ [NL; NL] ++ scenario1))
     = entries (parsePOFile brokenBlock) ++ entries (parsePOFile scenario1).
Proof.
  split; [vm_compute; reflexivity|].
  exact (proj1 (proj1 (proj2 (proj2 parsePOFile_total))
                      brokenBlock scenario1)).
Defined.
